(** * Savid/iptv: channel matching and guide merging (internal/epg)

    A shallow embedding of [internal/epg/filter.go] and of the merger
    [MergeEPGs] of the same package, together with the properties of the
    name normalizer, the identifier allocator, the matcher and the
    multi-source merger.

    Conventions of the embedding.
    - A Go [string] is a sequence of bytes: Rocq's [string].  The library
      functions [strings.ToUpper], [strings.ToLower], [strings.Fields] and
      [strings.TrimSpace] are embedded on their ASCII behaviour (bytes
      above 127 are left alone and are never white space); all tables of the
      program are ASCII.  On names of ASCII bytes this is the behaviour of
      the library, and the slices of the normalizer are in range.  On other
      names the library maps Unicode letters and white space, the
      upper-cased name may differ in length from the name, and a slice of
      the suffix loop may then be out of range: what depends on the result
      of the normalizer, or on its returning at all, is stated for ASCII
      names.
    - A Go [map] is a [gmap]; a [map[K]bool] that only ever stores [true]
      is a [gset].  Go leaves the iteration order of [range m] unspecified:
      every loop over a map takes its order from an oracle [range], of which
      only [range_ok] (it enumerates exactly the entries of the map) is
      assumed.  The first argument of [range] names the loop, so that two
      loops over equal maps need not agree.
    - A run-time panic (index out of range) is [None] in the option monad.
    - Logging has no effect on the results and is left out. *)

From Stdlib Require Import ZArith Ascii.
From stdpp Require Import base option list gmap strings pretty fin_maps.

Local Open Scope Z_scope.

(** ** Go strings *)

Module GoStrings.

Definition byte_in (lo hi : N) (c : ascii) : bool :=
  let n := N_of_ascii c in ((lo <=? n) && (n <=? hi))%N.

Definition upperByte (c : ascii) : ascii :=
  if byte_in 97 122 c then ascii_of_N (N_of_ascii c - 32) else c.

Definition lowerByte (c : ascii) : ascii :=
  if byte_in 65 90 c then ascii_of_N (N_of_ascii c + 32) else c.

Fixpoint mapBytes (f : ascii → ascii) (s : string) : string :=
  match s with
  | EmptyString => EmptyString
  | String c r => String (f c) (mapBytes f r)
  end.

(** [strings.ToUpper], [strings.ToLower]. *)
Definition ToUpper : string → string := mapBytes upperByte.
Definition ToLower : string → string := mapBytes lowerByte.

(** [len(s)]. *)
Definition len (s : string) : Z := Z.of_nat (String.length s).

(** [strings.HasPrefix(s, prefix)]. *)
Fixpoint HasPrefix (s prefix : string) {struct prefix} : bool :=
  match prefix, s with
  | EmptyString, _ => true
  | String p pr, String c r => if decide (p = c) then HasPrefix r pr else false
  | String _ _, EmptyString => false
  end.

(** [s[n:]] and [s[:n]] for [0 <= n <= len(s)]. *)
Fixpoint dropBytes (n : nat) (s : string) : string :=
  match n, s with
  | O, _ => s
  | S m, String _ r => dropBytes m r
  | S _, EmptyString => EmptyString
  end.

Fixpoint takeBytes (n : nat) (s : string) : string :=
  match n, s with
  | O, _ => EmptyString
  | S m, String c r => String c (takeBytes m r)
  | S _, EmptyString => EmptyString
  end.

Definition sliceFrom (s : string) (i : Z) : string := dropBytes (Z.to_nat i) s.
Definition sliceTo (s : string) (i : Z) : string := takeBytes (Z.to_nat i) s.

(** [strings.Index(s, substr)]: the first position at which [substr]
    occurs, [-1] when there is none. *)
Fixpoint Index (s substr : string) : Z :=
  if HasPrefix s substr then 0
  else match s with
       | EmptyString => -1
       | String _ r => let i := Index r substr in if i <? 0 then -1 else i + 1
       end.

(** [strings.LastIndex(s, substr)]. *)
Fixpoint LastIndex (s substr : string) : Z :=
  match s with
  | EmptyString => if HasPrefix s substr then 0 else -1
  | String _ r =>
      let i := LastIndex r substr in
      if 0 <=? i then i + 1 else if HasPrefix s substr then 0 else -1
  end.

(** [strings.Contains(s, substr)]. *)
Definition Contains (s substr : string) : bool := 0 <=? Index s substr.

Definition isSpace (c : ascii) : bool :=
  match c with
  | "009" | "010" | "011" | "012" | "013" | " " => true
  | _ => false
  end%char.

(** [strings.Fields(s)]: the maximal runs of non-space bytes.  [cur] is the
    field being read, in order. *)
Fixpoint fieldsFrom (cur : string) (s : string) : list string :=
  match s with
  | EmptyString => if decide (cur = "") then [] else [cur]
  | String c r =>
      if isSpace c
      then (if decide (cur = "") then fieldsFrom "" r else cur :: fieldsFrom "" r)
      else fieldsFrom (cur +:+ String c "") r
  end.

Definition Fields (s : string) : list string := fieldsFrom "" s.

(** [strings.Join(elems, sep)]. *)
Fixpoint Join (elems : list string) (sep : string) : string :=
  match elems with
  | [] => ""
  | [e] => e
  | e :: rest => e +:+ sep +:+ Join rest sep
  end.

Fixpoint trimLeft (s : string) : string :=
  match s with
  | String c r => if isSpace c then trimLeft r else s
  | EmptyString => EmptyString
  end.

Fixpoint trimRight (s : string) : string :=
  match s with
  | EmptyString => EmptyString
  | String c r =>
      match trimRight r with
      | EmptyString => if isSpace c then EmptyString else String c EmptyString
      | t => String c t
      end
  end.

(** [strings.TrimSpace(s)]. *)
Definition TrimSpace (s : string) : string := trimRight (trimLeft s).

End GoStrings.

Import GoStrings.

(** ** The name normalizer (filter.go, lines 13-97) *)

Definition countryPrefixes : list string :=
  [ "USA  "; "World  "; "AUS  ";
    "US:"; "AU:"; "AUS:"; "UK:"; "PH:"; "BR:"; "CA:"; "NZ:"; "MX:"; "ID:";
    "USA "; "UK "; "PH "; "BR "; "ID "; "MY "; "MX "; "AUS ";
    "Carib "; "World "; "Latin "; "US " ].

(** The entries of the map literal [regionPrefixes], in source order. *)
Definition regionPrefixes : list (string * string) :=
  [ ("US:", "us"); ("USA ", "us"); ("USA  ", "us"); ("US ", "us");
    ("AU:", "au"); ("AUS:", "au"); ("AUS ", "au"); ("AUS  ", "au");
    ("UK:", "uk"); ("UK ", "uk");
    ("PH:", "ph"); ("PH ", "ph");
    ("BR:", "br"); ("BR ", "br");
    ("CA:", "ca");
    ("NZ:", "nz");
    ("MX:", "mx"); ("MX ", "mx");
    ("ID:", "id"); ("ID ", "id");
    ("MY ", "my");
    ("Carib ", "carib");
    ("World ", "world"); ("World  ", "world");
    ("Latin ", "latin") ].

Definition qualitySuffixes : list string :=
  [ "(HD)"; "(FHD)"; "(SD)"; "(4K)"; "(UHD)";
    "(S)"; "(A)"; "(H)"; "(D)"; "(C)"; "(P)"; "(FL)"; "(F)"; "(E)"; "(R)";
    "(North America)"; "(EMEA)"; "(PRIME)"; "(TUBI)";
    " FHD"; " HD" ].

(** [extractRegion] with the iteration order over the table made explicit. *)
Fixpoint extractRegionIn (order : list (string * string)) (upperName : string) : string :=
  match order with
  | [] => ""
  | (prefix, region) :: rest =>
      if HasPrefix upperName (ToUpper prefix) then region
      else extractRegionIn rest upperName
  end.

Definition extractRegion (name : string) : string :=
  extractRegionIn regionPrefixes (ToUpper name).

(** One iteration of the prefix loop of [normalizeChannelName]: the loop
    variable is [normalized] ([upperName] is always [ToUpper normalized]). *)
Definition stripPrefixStep (normalized prefix : string) : string :=
  if HasPrefix (ToUpper normalized) (ToUpper prefix)
  then sliceFrom normalized (len prefix)
  else normalized.

Definition stripPrefixes (prefixes : list string) (name : string) : string :=
  foldl stripPrefixStep name prefixes.

(** The inner [for strings.Contains(upperName, upperSuffix)] loop; [fuel]
    bounds the number of iterations ([stripSuffix_exits] shows that the
    length of the string is enough). *)
Fixpoint stripSuffixLoop (fuel : nat) (suffix normalized : string) : string :=
  match fuel with
  | O => normalized
  | S fuel' =>
      let upperName := ToUpper normalized in
      let upperSuffix := ToUpper suffix in
      if Contains upperName upperSuffix then
        let idx := Index upperName upperSuffix in
        if 0 <=? idx then
          stripSuffixLoop fuel' suffix
            (sliceTo normalized idx +:+ sliceFrom normalized (idx + len suffix))
        else stripSuffixLoop fuel' suffix normalized
      else normalized
  end.

Definition stripSuffix (normalized suffix : string) : string :=
  stripSuffixLoop (String.length normalized) suffix normalized.

Definition stripSuffixes (suffixes : list string) (normalized : string) : string :=
  foldl stripSuffix normalized suffixes.

Definition normalizeChannelName (name : string) : string :=
  let normalized := stripPrefixes countryPrefixes name in
  let normalized := stripSuffixes qualitySuffixes normalized in
  let normalized := Join (Fields normalized) " " in
  let normalized := TrimSpace normalized in
  ToLower normalized.


(** ** The identifier allocator: [crypto/md5] and [generateChannelID] *)

(** [md5.Sum] as RFC 1321 defines it, on 32-bit words kept in [Z]. *)
Module MD5.

Definition w32 (x : Z) : Z := x mod 2 ^ 32.

Definition rotl (x c : Z) : Z :=
  w32 (Z.lor (Z.shiftl x c) (Z.shiftr x (32 - c))).

Definition not32 (x : Z) : Z := Z.lxor x 0xffffffff.

Definition shifts : list Z :=
  [ 7; 12; 17; 22; 7; 12; 17; 22; 7; 12; 17; 22; 7; 12; 17; 22;
    5; 9; 14; 20; 5; 9; 14; 20; 5; 9; 14; 20; 5; 9; 14; 20;
    4; 11; 16; 23; 4; 11; 16; 23; 4; 11; 16; 23; 4; 11; 16; 23;
    6; 10; 15; 21; 6; 10; 15; 21; 6; 10; 15; 21; 6; 10; 15; 21 ].

Definition sines : list Z :=
  [ 0xd76aa478; 0xe8c7b756; 0x242070db; 0xc1bdceee;
    0xf57c0faf; 0x4787c62a; 0xa8304613; 0xfd469501;
    0x698098d8; 0x8b44f7af; 0xffff5bb1; 0x895cd7be;
    0x6b901122; 0xfd987193; 0xa679438e; 0x49b40821;
    0xf61e2562; 0xc040b340; 0x265e5a51; 0xe9b6c7aa;
    0xd62f105d; 0x02441453; 0xd8a1e681; 0xe7d3fbc8;
    0x21e1cde6; 0xc33707d6; 0xf4d50d87; 0x455a14ed;
    0xa9e3e905; 0xfcefa3f8; 0x676f02d9; 0x8d2a4c8a;
    0xfffa3942; 0x8771f681; 0x6d9d6122; 0xfde5380c;
    0xa4beea44; 0x4bdecfa9; 0xf6bb4b60; 0xbebfbc70;
    0x289b7ec6; 0xeaa127fa; 0xd4ef3085; 0x04881d05;
    0xd9d4d039; 0xe6db99e5; 0x1fa27cf8; 0xc4ac5665;
    0xf4292244; 0x432aff97; 0xab9423a7; 0xfc93a039;
    0x655b59c3; 0x8f0ccc92; 0xffeff47d; 0x85845dd1;
    0x6fa87e4f; 0xfe2ce6e0; 0xa3014314; 0x4e0811a1;
    0xf7537e82; 0xbd3af235; 0x2ad7d2bb; 0xeb86d391 ].

Definition bytesOf (s : string) : list Z :=
  map (λ c, Z.of_N (N_of_ascii c)) (String.list_ascii_of_string s).

(** The little-endian bytes of a word of [n] bytes. *)
Fixpoint leBytes (n : nat) (x : Z) : list Z :=
  match n with
  | O => []
  | S m => (x mod 256) :: leBytes m (x / 256)
  end.

Fixpoint leWord (bs : list Z) : Z :=
  match bs with
  | [] => 0
  | b :: r => b + 256 * leWord r
  end.

Definition pad (msg : list Z) : list Z :=
  let n := Z.of_nat (length msg) in
  msg ++ [0x80] ++ replicate (Z.to_nat ((55 - n) mod 64)) 0
      ++ leBytes 8 ((8 * n) mod 2 ^ 64).

Definition words (chunk : list Z) : list Z :=
  map (λ j, leWord (take 4 (drop (4 * j) chunk))) (seq 0 16).

Definition round (M : list Z) (st : Z * Z * Z * Z) (i : nat) : Z * Z * Z * Z :=
  let '(A, B, C, D) := st in
  let iz := Z.of_nat i in
  let '(F, g) :=
    if iz <? 16 then (Z.lor (Z.land B C) (Z.land (not32 B) D), iz)
    else if iz <? 32 then (Z.lor (Z.land D B) (Z.land (not32 D) C), (5 * iz + 1) mod 16)
    else if iz <? 48 then (Z.lxor (Z.lxor B C) D, (3 * iz + 5) mod 16)
    else (Z.lxor C (Z.lor B (not32 D)), (7 * iz) mod 16) in
  let F := w32 (F + A + nth i sines 0 + nth (Z.to_nat g) M 0) in
  (D, w32 (B + rotl F (nth i shifts 0)), B, C).

Definition block (h : Z * Z * Z * Z) (chunk : list Z) : Z * Z * Z * Z :=
  let '(a0, b0, c0, d0) := h in
  let '(A, B, C, D) := foldl (round (words chunk)) h (seq 0 64) in
  (w32 (a0 + A), w32 (b0 + B), w32 (c0 + C), w32 (d0 + D)).

Definition chunks (bs : list Z) : list (list Z) :=
  map (λ k, take 64 (drop (64 * k) bs)) (seq 0 (length bs / 64)%nat).

Definition Sum (s : string) : list Z :=
  let '(a, b, c, d) :=
    foldl block (0x67452301, 0xefcdab89, 0x98badcfe, 0x10325476)
          (chunks (pad (bytesOf s))) in
  leBytes 4 a ++ leBytes 4 b ++ leBytes 4 c ++ leBytes 4 d.

End MD5.

Definition hexDigit (n : Z) : ascii :=
  match n with
  | 0 => "0" | 1 => "1" | 2 => "2" | 3 => "3" | 4 => "4" | 5 => "5"
  | 6 => "6" | 7 => "7" | 8 => "8" | 9 => "9" | 10 => "a" | 11 => "b"
  | 12 => "c" | 13 => "d" | 14 => "e" | _ => "f"
  end%char.

(** [fmt.Sprintf("%x", hash)] for a byte array: two lower-case digits a byte. *)
Fixpoint hexBytes (bs : list Z) : string :=
  match bs with
  | [] => ""
  | b :: r => String (hexDigit (b / 16)) (String (hexDigit (b mod 16)) (hexBytes r))
  end.

Definition generateChannelID (displayName : string) : string :=
  hexBytes (MD5.Sum displayName).


(** ** Data model (m3u/parser.go, epg/parser.go) *)

Module m3u.
Record Channel := {
  Name : string;
  URL : string;
  TVGID : string;
  TVGName : string;
  TVGLogo : string;
  Group : string;
  Original : string;
}.
End m3u.

Record Icon := { Src : string }.

(** [epg.Channel]; the field [Icon] is [ChIcon] here. *)
Record Channel := {
  ID : string;
  DisplayName : string;
  ChIcon : Icon;
}.

(** [epg.Programme]; the field [Channel] is [PChannel] here. *)
Record Programme := {
  PChannel : string;
  Start : string;
  Stop : string;
  Title : string;
  Description : string;
  Category : string;
}.

Record TV := {
  Channels : list Channel;
  Programs : list Programme;
}.

Global Instance Icon_eq_dec : EqDecision Icon.
Proof. solve_decision. Defined.
Global Instance Channel_eq_dec : EqDecision Channel.
Proof. solve_decision. Defined.
Global Instance Programme_eq_dec : EqDecision Programme.
Proof. solve_decision. Defined.

Definition withID (id : string) (ch : Channel) : Channel :=
  {| ID := id; DisplayName := DisplayName ch; ChIcon := ChIcon ch |}.

Definition withDisplayName (name : string) (ch : Channel) : Channel :=
  {| ID := ID ch; DisplayName := name; ChIcon := ChIcon ch |}.

Definition withChannel (id : string) (p : Programme) : Programme :=
  {| PChannel := id; Start := Start p; Stop := Stop p; Title := Title p;
     Description := Description p; Category := Category p |}.

Definition withCategory (category : string) (p : Programme) : Programme :=
  {| PChannel := PChannel p; Start := Start p; Stop := Stop p; Title := Title p;
     Description := Description p; Category := category |}.

(** ** Loops *)

(** [for _, x := range l { body }] over a slice, in a state that may panic. *)
Fixpoint forEach {A S : Type} (l : list A) (body : A → S → option S) (s : S) : option S :=
  match l with
  | [] => Some s
  | x :: rest => s' ← body x s; forEach rest body s'
  end.

(** [for i, x := range l]: the elements with their indices. *)
Definition indexed {A : Type} (l : list A) : list (nat * A) := imap pair l.

(** The order in which a [range] loop visits a map: the first argument names
    the loop. *)
Definition RangeOracle : Type := nat → ∀ V : Type, gmap string V → list (string * V).

Definition range_ok (range : RangeOracle) : Prop :=
  ∀ site V (m : gmap string V), range site V m ≡ₚ map_to_list m.

(** The oracle that visits every map in the order of [map_to_list]. *)
Definition range_canon : RangeOracle := λ _ V m, map_to_list m.

(** ** Lookup tables built from the playlist (filter.go, lines 99-148, 283-320) *)

Record m3uNormalizedInfo := {
  originalName : string;
  normalizedName : string;
  region : string;
}.

(** The first loop of [buildNormalizedNameMap]: the names that some entry
    carries together with a guide-id hint. *)
Definition namesWithTVGID (m3uChannels : list m3u.Channel) : gset string :=
  foldl (λ acc channel,
           if decide (m3u.TVGID channel ≠ "" ∧ m3u.Name channel ≠ "")
           then {[m3u.Name channel]} ∪ acc else acc)
        ∅ m3uChannels.

Definition buildNormalizedNameMap (m3uChannels : list m3u.Channel)
  : gmap string m3uNormalizedInfo :=
  let namesWithTVGID := namesWithTVGID m3uChannels in
  foldl (λ normalizedMap channel,
           if decide (m3u.TVGID channel ≠ "") then normalizedMap
           else if decide (m3u.Name channel ∈ namesWithTVGID) then normalizedMap
           else if decide (m3u.Name channel ≠ "") then
             let normalized := normalizeChannelName (m3u.Name channel) in
             let region := extractRegion (m3u.Name channel) in
             match normalizedMap !! normalized with
             | Some _ => normalizedMap
             | None =>
                 <[normalized := {| originalName := m3u.Name channel;
                                    normalizedName := normalized;
                                    region := region |}]> normalizedMap
             end
           else normalizedMap)
        ∅ m3uChannels.

Definition buildChannelNameMap (m3uChannels : list m3u.Channel) : gset string :=
  foldl (λ channelMap channel,
           if decide (m3u.Name channel ≠ "")
           then {[m3u.Name channel]} ∪ channelMap else channelMap)
        ∅ m3uChannels.

Definition buildTVGIDMap (m3uChannels : list m3u.Channel) : gmap string string :=
  foldl (λ tvgIDMap channel,
           if decide (m3u.TVGID channel ≠ "" ∧ m3u.Name channel ≠ "")
           then <[m3u.TVGID channel := m3u.Name channel]> tvgIDMap else tvgIDMap)
        ∅ m3uChannels.

Definition buildCategoryMap (m3uChannels : list m3u.Channel) : gmap string string :=
  foldl (λ categoryMap channel,
           if decide (m3u.Name channel ≠ "" ∧ m3u.Group channel ≠ "")
           then <[m3u.Name channel := m3u.Group channel]> categoryMap else categoryMap)
        ∅ m3uChannels.

(** ** The channel matcher (filter.go, lines 322-529) *)

Record matcherState := {
  epgChannels : list Channel;
  matchedChannels : list Channel;
  channelIDMap : gmap string string;
  matchedM3U : gset string;
  matchedEPG : gset nat;
  idUsageCount : gmap string Z;
  epgIDToCandidates : gmap string (list nat);
}.

Definition newMatcherState (epgChannels : list Channel) : matcherState :=
  {| epgChannels := epgChannels;
     matchedChannels := [];
     channelIDMap := ∅;
     matchedM3U := ∅;
     matchedEPG := ∅;
     idUsageCount := ∅;
     epgIDToCandidates :=
       foldl (λ cands '(i, ch),
                if decide (ID ch ≠ "")
                then <[ID ch := default [] (cands !! ID ch) ++ [i]]> cands
                else cands)
             ∅ (indexed epgChannels) |}.

(** [ensureID]: the first lines of [addMatch]. *)
Definition ensureID (ch : Channel) : Channel :=
  if decide (ID ch = "") then withID (generateChannelID (DisplayName ch)) ch else ch.

(** [dedupe]: the identifier under which the next channel with original
    identifier [originalID] is finalized. *)
Definition dedupeID (idUsageCount : gmap string Z) (originalID : string) : string :=
  match idUsageCount !! originalID with
  | Some count => originalID +:+ "-" +:+ pretty (count + 1)
  | None => originalID
  end.

Definition addMatch (epgIdx : nat) (m3uName : string) (s : matcherState)
  : option matcherState :=
  epgCopy ← epgChannels s !! epgIdx;
  let epgCopy := ensureID epgCopy in
  let originalID := ID epgCopy in
  let epgCopy := withID (dedupeID (idUsageCount s) originalID) epgCopy in
  Some {| epgChannels := epgChannels s;
          matchedChannels := matchedChannels s ++ [epgCopy];
          channelIDMap := <[ID epgCopy := m3uName]> (channelIDMap s);
          matchedM3U := {[m3uName]} ∪ matchedM3U s;
          matchedEPG := {[epgIdx]} ∪ matchedEPG s;
          idUsageCount :=
            <[originalID := default 0 (idUsageCount s !! originalID) + 1]>
              (idUsageCount s);
          epgIDToCandidates := epgIDToCandidates s |}.

Fixpoint findBestTVGIDCandidateFrom (s : matcherState) (candidates : list nat)
    (m3uName : string) (bestIdx : Z) : option Z :=
  match candidates with
  | [] => Some bestIdx
  | idx :: rest =>
      if decide (idx ∈ matchedEPG s)
      then findBestTVGIDCandidateFrom s rest m3uName bestIdx
      else
        ch ← epgChannels s !! idx;
        if decide (DisplayName ch = m3uName) then Some (Z.of_nat idx)
        else findBestTVGIDCandidateFrom s rest m3uName
               (if bestIdx =? -1 then Z.of_nat idx else bestIdx)
  end.

Definition findBestTVGIDCandidate (s : matcherState) (candidates : list nat)
    (m3uName : string) : option Z :=
  findBestTVGIDCandidateFrom s candidates m3uName (-1).

Definition matchByTVGID (order : list (string * string)) (s : matcherState)
  : option matcherState :=
  forEach order
    (λ '(tvgID, m3uName) s,
       if decide (m3uName ∈ matchedM3U s) then Some s
       else
         let candidates := default [] (epgIDToCandidates s !! tvgID) in
         if decide (length candidates = 0%nat) then Some s
         else
           bestIdx ← findBestTVGIDCandidate s candidates m3uName;
           if 0 <=? bestIdx then addMatch (Z.to_nat bestIdx) m3uName s else Some s)
    s.

Definition matchByDisplayName (channelNameMap : gset string) (s : matcherState)
  : option matcherState :=
  forEach (indexed (epgChannels s))
    (λ '(i, epgChannel) s,
       if decide (i ∈ matchedEPG s) then Some s
       else if decide (DisplayName epgChannel ∉ channelNameMap
                       ∨ DisplayName epgChannel ∈ matchedM3U s) then Some s
       else addMatch i (DisplayName epgChannel) s)
    s.

Definition scoreRegionMatch (m3uRegion epgRegion : string) : Z :=
  if decide (m3uRegion ≠ "" ∧ epgRegion = m3uRegion) then 2
  else if decide (epgRegion = "") then 1
  else 0.

(** The body of the loop of [findBestNormalizedMatch] on the pair
    [(bestIdx, bestScore)]. *)
Definition bestNormalizedStep (s : matcherState) (m3uInfo : m3uNormalizedInfo)
    (best : Z * Z) (entry : nat * Channel) : Z * Z :=
  let '(i, epgChannel) := entry in
  if decide (i ∈ matchedEPG s) then best
  else if decide (normalizeChannelName (DisplayName epgChannel) ≠ normalizedName m3uInfo)
  then best
  else
    let score := scoreRegionMatch (region m3uInfo) (extractRegion (DisplayName epgChannel)) in
    if snd best <? score then (Z.of_nat i, score) else best.

Definition findBestNormalizedMatch (s : matcherState) (m3uInfo : m3uNormalizedInfo) : Z :=
  fst (foldl (bestNormalizedStep s m3uInfo) (-1, -1) (indexed (epgChannels s))).

Definition matchByNormalizedName (order : list (string * m3uNormalizedInfo))
    (s : matcherState) : option matcherState :=
  forEach order
    (λ '(_, m3uInfo) s,
       if decide (originalName m3uInfo ∈ matchedM3U s) then Some s
       else
         let bestIdx := findBestNormalizedMatch s m3uInfo in
         if 0 <=? bestIdx then addMatch (Z.to_nat bestIdx) (originalName m3uInfo) s
         else Some s)
    s.

(** The three passes of [matchChannels], on the matcher state
    ([logUnmatched], which follows them, only writes to the log). *)
Definition runMatcher (range : RangeOracle) (epgChannels : list Channel)
    (channelNameMap : gset string) (tvgIDMap : gmap string string)
    (normalizedNameMap : gmap string m3uNormalizedInfo) : option matcherState :=
  let state := newMatcherState epgChannels in
  state ← matchByTVGID (range 1%nat _ tvgIDMap) state;
  state ← matchByDisplayName channelNameMap state;
  matchByNormalizedName (range 2%nat _ normalizedNameMap) state.

Definition matchChannels (range : RangeOracle) (epgChannels : list Channel)
    (channelNameMap : gset string) (tvgIDMap : gmap string string)
    (normalizedNameMap : gmap string m3uNormalizedInfo)
  : option (list Channel * gmap string string) :=
  state ← runMatcher range epgChannels channelNameMap tvgIDMap normalizedNameMap;
  Some (matchedChannels state, channelIDMap state).

(** ** Filtering programs (filter.go, lines 150-281, 531-624) *)

(** [strconv.Atoi] for a 64-bit [int]: an optional sign, then one or more
    decimal digits whose value fits the type. *)
Fixpoint parseDigits (acc : Z) (s : string) : option Z :=
  match s with
  | EmptyString => Some acc
  | String c r =>
      if byte_in 48 57 c
      then parseDigits (10 * acc + (Z.of_N (N_of_ascii c) - 48)) r
      else None
  end.

Definition Atoi (s : string) : option Z :=
  let '(neg, body) :=
    match s with
    | String "-" r => (true, r)
    | String "+" r => (false, r)
    | _ => (false, s)
    end in
  if decide (body = "") then None
  else
    n ← parseDigits 0 body;
    let v := if neg : bool then - n else n in
    if (- 2 ^ 63 <=? v) && (v <? 2 ^ 63) then Some v else None.

Definition isNumericSuffix (s : string) : bool :=
  if decide (s = "") then false
  else match Atoi s with Some _ => true | None => false end.

(** The loop [for channelID := range channelIDMap] that records, for every
    key ending in a dash and a number, the key under the part before the
    dash. *)
Definition buildOriginalIDMap (order : list (string * string))
  : gmap string (list string) :=
  foldl (λ originalIDMap '(channelID, _),
           let idx := LastIndex channelID "-" in
           if 0 <? idx then
             let suffix := sliceFrom channelID (idx + 1) in
             if isNumericSuffix suffix then
               let originalID := sliceTo channelID idx in
               <[originalID := default [] (originalIDMap !! originalID) ++ [channelID]]>
                 originalIDMap
             else originalIDMap
           else originalIDMap)
        ∅ order.

(** [p.Category = category] when [categoryMap] has the playlist name of
    [channelID], as both branches of the program loop do. *)
Definition categorize (channelIDMap categoryMap : gmap string string)
    (channelID : string) (p : Programme) : Programme :=
  match channelIDMap !! channelID with
  | Some displayName =>
      match categoryMap !! displayName with
      | Some category => withCategory category p
      | None => p
      end
  | None => p
  end.

(** The body of the program loop of [FilterForMerge]. *)
Definition filterProgram (channelIDMap categoryMap : gmap string string)
    (originalIDMap : gmap string (list string))
    (filteredPrograms : list Programme) (program : Programme) : list Programme :=
  let filteredPrograms :=
    match channelIDMap !! PChannel program with
    | Some _ =>
        filteredPrograms ++ [categorize channelIDMap categoryMap (PChannel program) program]
    | None => filteredPrograms
    end in
  match originalIDMap !! PChannel program with
  | Some suffixedIDs =>
      foldl (λ filteredPrograms suffixedID,
               filteredPrograms ++
                 [categorize channelIDMap categoryMap suffixedID
                    (withChannel suffixedID program)])
            filteredPrograms suffixedIDs
  | None => filteredPrograms
  end.

(** The body of the program loop of [Filter], which also records the
    channels that own a program. *)
Definition filterProgramTracking (channelIDMap categoryMap : gmap string string)
    (originalIDMap : gmap string (list string))
    (acc : list Programme * gset string) (program : Programme)
  : list Programme * gset string :=
  let acc :=
    match channelIDMap !! PChannel program with
    | Some _ =>
        (acc.1 ++ [categorize channelIDMap categoryMap (PChannel program) program],
         {[PChannel program]} ∪ acc.2)
    | None => acc
    end in
  match originalIDMap !! PChannel program with
  | Some suffixedIDs =>
      foldl (λ acc suffixedID,
               (acc.1 ++
                  [categorize channelIDMap categoryMap suffixedID
                     (withChannel suffixedID program)],
                {[suffixedID]} ∪ acc.2))
            acc suffixedIDs
  | None => acc
  end.

Definition generateFakeEPGData (order : list (string * string))
    (m3uChannels : list m3u.Channel) : list Channel :=
  let matchedM3UNames : gset string :=
    foldl (λ acc '(_, m3uName), {[m3uName]} ∪ acc) ∅ order in
  foldl (λ fakeChannels m3uChannel,
           if decide (m3u.Name m3uChannel ∈ matchedM3UNames) then fakeChannels
           else if decide (m3u.Name m3uChannel = "") then fakeChannels
           else
             let channelID := generateChannelID (m3u.Name m3uChannel) in
             fakeChannels ++
               [{| ID := channelID;
                   DisplayName := m3u.Name m3uChannel;
                   ChIcon := {| Src := m3u.TVGLogo m3uChannel |} |}])
        [] m3uChannels.

Definition generateFakePrograms (channels : list Channel)
    (channelsWithPrograms : gset string) (categoryMap channelIDMap : gmap string string)
  : list Programme :=
  foldl (λ fakePrograms ch,
           if decide (ID ch ∈ channelsWithPrograms) then fakePrograms
           else
             let displayName := default (DisplayName ch) (channelIDMap !! ID ch) in
             let fakeProgram :=
               {| PChannel := ID ch;
                  Start := "20260101000000 +0000";
                  Stop := "20260101235959 +0000";
                  Title := displayName;
                  Description := "No programme information available";
                  Category := default "" (categoryMap !! displayName) |} in
             fakePrograms ++ [fakeProgram])
        [] channels.

Record FilterResult := {
  EPG : option TV;
  ChannelMap : gmap string string;
}.

Definition FilterForMerge (range : RangeOracle) (epgData : TV)
    (m3uChannels : list m3u.Channel) : option FilterResult :=
  let channelNameMap := buildChannelNameMap m3uChannels in
  let tvgIDMap := buildTVGIDMap m3uChannels in
  let normalizedNameMap := buildNormalizedNameMap m3uChannels in
  let categoryMap := buildCategoryMap m3uChannels in
  '(matchedChannels, channelIDMap) ←
    matchChannels range (Channels epgData) channelNameMap tvgIDMap normalizedNameMap;
  let originalIDMap := buildOriginalIDMap (range 3%nat _ channelIDMap) in
  let filteredPrograms :=
    foldl (filterProgram channelIDMap categoryMap originalIDMap) [] (Programs epgData) in
  Some {| EPG := Some {| Channels := matchedChannels; Programs := filteredPrograms |};
          ChannelMap := channelIDMap |}.

Definition Filter (range : RangeOracle) (epgData : TV)
    (m3uChannels : list m3u.Channel) : option (TV * gmap string string) :=
  let channelNameMap := buildChannelNameMap m3uChannels in
  let tvgIDMap := buildTVGIDMap m3uChannels in
  let normalizedNameMap := buildNormalizedNameMap m3uChannels in
  let categoryMap := buildCategoryMap m3uChannels in
  '(matchedChannels, channelIDMap) ←
    matchChannels range (Channels epgData) channelNameMap tvgIDMap normalizedNameMap;
  let originalIDMap := buildOriginalIDMap (range 3%nat _ channelIDMap) in
  let '(filteredPrograms, channelsWithPrograms) :=
    foldl (filterProgramTracking channelIDMap categoryMap originalIDMap)
          ([], ∅) (Programs epgData) in
  let fakeChannels := generateFakeEPGData (range 4%nat _ channelIDMap) m3uChannels in
  let matchedChannels := matchedChannels ++ fakeChannels in
  let channelIDMap :=
    foldl (λ channelIDMap fakeChannel,
             <[ID fakeChannel := DisplayName fakeChannel]> channelIDMap)
          channelIDMap fakeChannels in
  let fakePrograms :=
    generateFakePrograms matchedChannels channelsWithPrograms categoryMap channelIDMap in
  Some ({| Channels := matchedChannels; Programs := filteredPrograms ++ fakePrograms |},
        channelIDMap).

(** ** The multi-source merger ([MergeEPGs], package epg) *)

Record MergeResult := {
  MergedChannels : list Channel;
  MergedPrograms : list Programme;
  MergedChannelMap : gmap string string;
}.

Fixpoint hasOverlap (existing : list Programme) (newProg : Programme) : bool :=
  match existing with
  | [] => false
  | p :: rest => if decide (Start p = Start newProg) then true else hasOverlap rest newProg
  end.

(** The variables of [MergeEPGs] that its loops update. *)
Record mergeState := {
  mergedChannels : list Channel;
  mergedChannelMap : gmap string string;
  m3uToEPGID : gmap string string;
  channelPrograms : gmap string (list Programme);
}.

(** The innermost loop body: one program of the source under one map entry. *)
Definition mergeProgram (epgID primaryID : string)
    (channelPrograms : gmap string (list Programme)) (prog : Programme)
  : gmap string (list Programme) :=
  if decide (PChannel prog ≠ epgID) then channelPrograms
  else
    let remapped := withChannel primaryID prog in
    let existing := default [] (channelPrograms !! primaryID) in
    if hasOverlap existing remapped then channelPrograms
    else <[primaryID := existing ++ [remapped]]> channelPrograms.

(** The first channel of the source with the claimed identifier, as the
    loop with [break] finds it, renamed to the playlist name. *)
Definition claimedChannel (channels : list Channel) (epgID m3uName : string)
  : list Channel :=
  match list_find (λ ch, ID ch = epgID) channels with
  | Some (_, ch) => [withDisplayName m3uName ch]
  | None => []
  end.

(** The body of [for epgID, m3uName := range r.ChannelMap]. *)
Definition mergeEntry (epg : TV) (st : mergeState) (entry : string * string)
  : mergeState :=
  let '(epgID, m3uName) := entry in
  let st :=
    match m3uToEPGID st !! m3uName with
    | Some _ => st
    | None =>
        {| mergedChannels := mergedChannels st ++ claimedChannel (Channels epg) epgID m3uName;
           mergedChannelMap := <[epgID := m3uName]> (mergedChannelMap st);
           m3uToEPGID := <[m3uName := epgID]> (m3uToEPGID st);
           channelPrograms := channelPrograms st |}
    end in
  let primaryID := default "" (m3uToEPGID st !! m3uName) in
  {| mergedChannels := mergedChannels st;
     mergedChannelMap := mergedChannelMap st;
     m3uToEPGID := m3uToEPGID st;
     channelPrograms :=
       foldl (mergeProgram epgID primaryID) (channelPrograms st) (Programs epg) |}.

(** The body of [for _, r := range results]; [i] is the position of [r]. *)
Definition mergeSource (range : RangeOracle) (st : mergeState)
    (entry : nat * option FilterResult) : mergeState :=
  match entry with
  | (i, Some {| EPG := Some epg; ChannelMap := channelMap |}) =>
      foldl (mergeEntry epg) st (range (6 + i)%nat _ channelMap)
  | _ => st
  end.

Definition mergeSources (range : RangeOracle) (results : list (option FilterResult))
  : mergeState :=
  foldl (mergeSource range)
        {| mergedChannels := []; mergedChannelMap := ∅;
           m3uToEPGID := ∅; channelPrograms := ∅ |}
        (indexed results).

Definition MergeEPGs (range : RangeOracle) (results : list (option FilterResult))
  : MergeResult :=
  if decide (length results = 0%nat)
  then {| MergedChannels := []; MergedPrograms := []; MergedChannelMap := ∅ |}
  else
    let st := mergeSources range results in
    {| MergedChannels := mergedChannels st;
       MergedPrograms :=
         foldl (λ programs '(_, progs), programs ++ progs) []
               (range 5%nat _ (channelPrograms st));
       MergedChannelMap := mergedChannelMap st |}.

(** ** Auxiliary definitions of the statements *)

(** The prefix loop again, recording which list entries it removes. *)
Definition stripPrefixTrace (prefixes : list string) (name : string)
  : string * list string :=
  foldl (λ '(normalized, removed) prefix,
           if HasPrefix (ToUpper normalized) (ToUpper prefix)
           then (sliceFrom normalized (len prefix), removed ++ [prefix])
           else (normalized, removed))
        (name, []) prefixes.

Definition removedPrefixes (prefixes : list string) (name : string) : list string :=
  (stripPrefixTrace prefixes name).2.


(** Two entries of a region table of which one prefix extends the other
    carry the same region. *)
Definition regionsAgree (tbl : list (string * string)) : bool :=
  forallb (λ e1, forallb (λ e2,
    if HasPrefix (ToUpper e1.1) (ToUpper e2.1)
    then bool_decide (e1.2 = e2.2) else true) tbl) tbl.

(** *** The identifier allocator, as the specification words it *)

(** The identifier of a guide channel before any suffix. *)
Definition originalID (ch : Channel) : string := ID (ensureID ch).

(** How many of the channels [prior] have the original identifier [id]. *)
Definition usesOf (id : string) (prior : list Channel) : Z :=
  Z.of_nat (length (filter (λ ch, originalID ch = id) prior)).

(** The [n]-th use of an identifier: kept for [n = 1], [<id>-n] after. *)
Definition nthUseID (id : string) (n : Z) : string :=
  if decide (n = 1) then id else id +:+ "-" +:+ pretty n.

(** The channel [ch] finalized after the channels [prior] of the same run. *)
Definition finalizeNth (prior : list Channel) (ch : Channel) : Channel :=
  withID (nthUseID (originalID ch) (usesOf (originalID ch) prior + 1)) (ensureID ch).

Fixpoint finalizeFrom (prior rest : list Channel) : list Channel :=
  match rest with
  | [] => []
  | ch :: rest => finalizeNth prior ch :: finalizeFrom (prior ++ [ch]) rest
  end.

Definition finalizeAll (matched : list Channel) : list Channel :=
  finalizeFrom [] matched.

(** The counter of a run holds, under every original identifier, the number
    of channels finalized with it so far; an identifier not yet used has no
    entry. *)
Definition countsUses (counts : gmap string Z) (prior : list Channel) : Prop :=
  ∀ id, counts !! id = if decide (usesOf id prior = 0) then None else Some (usesOf id prior).

(** The states of one matching run: [matcherRun chs matches s] when [s] is
    reached from the fresh state by the calls of [addMatch] that pair the
    guide channels and playlist names [matches], in this order. *)
Inductive matcherRun (chs : list Channel)
  : list (Channel * string) → matcherState → Prop :=
| matcherRun_init : matcherRun chs [] (newMatcherState chs)
| matcherRun_step matches s i ch name s' :
    matcherRun chs matches s →
    chs !! i = Some ch →
    i ∉ matchedEPG s →
    name ∉ matchedM3U s →
    addMatch i name s = Some s' →
    matcherRun chs (matches ++ [(ch, name)]) s'.

(** What holds of the state of a run. *)
Record matcherInv (chs : list Channel) (matches : list (Channel * string))
    (s : matcherState) : Prop := {
  inv_epgChannels : epgChannels s = chs;
  inv_candidates : epgIDToCandidates s = epgIDToCandidates (newMatcherState chs);
  inv_matchedChannels : matchedChannels s = finalizeAll matches.*1;
  inv_counts : countsUses (idUsageCount s) matches.*1;
  inv_matchedM3U : ∀ name, name ∈ matchedM3U s ↔ name ∈ matches.*2;
  inv_names_NoDup : NoDup matches.*2;
  inv_map_value : ∀ id name, channelIDMap s !! id = Some name → name ∈ matches.*2;
  inv_map_key : ∀ id, is_Some (channelIDMap s !! id) →
                      ∃ ch, ch ∈ matchedChannels s ∧ ID ch = id;
  inv_map_inj : ∀ id1 id2 name, channelIDMap s !! id1 = Some name →
                                channelIDMap s !! id2 = Some name → id1 = id2;
  inv_matchedEPG : ∀ i, i ∈ matchedEPG s → (i < length chs)%nat;
}.

(** A guide channel that the normalized-name pass may pair with [m3uInfo]. *)
Definition normalizedCandidate (s : matcherState) (m3uInfo : m3uNormalizedInfo)
    (i : nat) (ch : Channel) : Prop :=
  (i ∉ matchedEPG s)
  ∧ (normalizeChannelName (DisplayName ch) = normalizedName m3uInfo).

Definition regionScore (m3uInfo : m3uNormalizedInfo) (ch : Channel) : Z :=
  scoreRegionMatch (region m3uInfo) (extractRegion (DisplayName ch)).

Global Instance normalizedCandidate_dec s m3uInfo i ch :
  Decision (normalizedCandidate s m3uInfo i ch).
Proof. unfold normalizedCandidate. apply _. Defined.

(** [runFrom chs matches s]: the state [s] continues the run that made the
    matches [matches]. *)
Definition runFrom (chs : list Channel) (matches : list (Channel * string))
    (s : matcherState) : Prop :=
  ∃ new, matcherRun chs (matches ++ new) s.

(** *** Inputs of the examples *)

Definition playlistEntry (name tvgID : string) : m3u.Channel :=
  {| m3u.Name := name; m3u.URL := ""; m3u.TVGID := tvgID; m3u.TVGName := "";
     m3u.TVGLogo := ""; m3u.Group := ""; m3u.Original := "" |}.

Definition guideChannel (id name : string) : Channel :=
  {| ID := id; DisplayName := name; ChIcon := {| Src := "" |} |}.

Definition guideProgram (channel start title : string) : Programme :=
  {| PChannel := channel; Start := start; Stop := ""; Title := title;
     Description := ""; Category := "" |}.

(** The guide channel that [generateFakeEPGData] makes up for a playlist
    entry. *)
Definition synthesizedChannel (m3uChannel : m3u.Channel) : Channel :=
  {| ID := generateChannelID (m3u.Name m3uChannel);
     DisplayName := m3u.Name m3uChannel;
     ChIcon := {| Src := m3u.TVGLogo m3uChannel |} |}.

Definition isLowerHex (c : ascii) : bool := byte_in 48 57 c || byte_in 97 102 c.

Fixpoint allBytes (P : ascii → bool) (s : string) : bool :=
  match s with
  | EmptyString => true
  | String c r => P c && allBytes P r
  end.

(** *** The merger *)

(** The [j]-th result is present, with guide [epg] and map [channelMap]. *)
Definition liveSource (results : list (option FilterResult)) (j : nat)
    (epg : TV) (channelMap : gmap string string) : Prop :=
  results !! j = Some (Some {| EPG := Some epg; ChannelMap := channelMap |}).

(** Every program list of [cp] is still there in [cp'], possibly longer. *)
Definition programsExtend (cp cp' : gmap string (list Programme)) : Prop :=
  ∀ k l, cp !! k = Some l → ∃ l', cp' !! k = Some (l ++ l').

(** Under every identifier, programs of that channel with distinct starts. *)
Definition programsWf (cp : gmap string (list Programme)) : Prop :=
  ∀ k l, cp !! k = Some l → Forall (λ p, PChannel p = k) l ∧ NoDup (Start <$> l).

(** Some program with the start of [p] is kept under the identifier [own]. *)
Definition covered (cp : gmap string (list Programme)) (own : string)
    (p : Programme) : Prop :=
  ∃ q, q ∈ default [] (cp !! own) ∧ Start q = Start p.

(** The channel entries emitted for the playlist name [name]. *)
Definition entriesFor (name : string) (channels : list Channel) : list Channel :=
  filter (λ ch, DisplayName ch = name) channels.


(** * Further definitions *)

(** Strings of ASCII bytes, on which the embedding of the [strings] library
    is exact. *)
Definition isASCII (s : string) : bool := allBytes (byte_in 0 127) s.

(** Guides, playlists and fetched sources whose names are ASCII.  The
    normalizer is applied to the display names of guide channels and to the
    names of playlist entries only; on ASCII names it is the normalizer of
    the code, whose slices are then in range, so that no call of it
    panics. *)
Definition asciiGuide (chs : list Channel) : Prop :=
  Forall (λ ch, isASCII (DisplayName ch) = true) chs.

Definition asciiPlaylist (m3uChannels : list m3u.Channel) : Prop :=
  Forall (λ c, isASCII (m3u.Name c) = true) m3uChannels.

Definition asciiSources (sources : list (option TV)) : Prop :=
  Forall (λ source, ∀ epgData, source = Some epgData → asciiGuide (Channels epgData))
         sources.

(** A sequence of calls [addMatch(i, name, _)] on a matcher state, and the
    guide channels that the calls name. *)
Definition addMatches (calls : list (nat * string)) (s : matcherState)
  : option matcherState :=
  forEach calls (λ '(i, name) s, addMatch i name s) s.

Definition calledChannels (chs : list Channel) (calls : list (nat * string))
  : list Channel :=
  omap (λ call, chs !! call.1) calls.

(** The playlist names that can be matched: the non-empty names. *)
Definition playlistName (m3uChannels : list m3u.Channel) (name : string) : Prop :=
  name ≠ "" ∧ ∃ c, c ∈ m3uChannels ∧ m3u.Name c = name.

(** The unmatched ones among the candidates of a guide-id hint. *)
Definition unmatchedCandidates (s : matcherState) (candidates : list nat) : list nat :=
  filter (λ i, i ∉ matchedEPG s) candidates.

(** The guide channel at position [i] has the display name [name]. *)
Definition displayNameAt (s : matcherState) (name : string) (i : nat) : Prop :=
  DisplayName <$> epgChannels s !! i = Some name.

Global Instance displayNameAt_dec s name i : Decision (displayNameAt s name i).
Proof. unfold displayNameAt. apply _. Defined.

(** The playlist entries with the guide-id hint [tvgID] that
    [buildTVGIDMap] takes into account. *)
Definition hintedAs (tvgID : string) (c : m3u.Channel) : Prop :=
  m3u.TVGID c = tvgID ∧ m3u.TVGID c ≠ "" ∧ m3u.Name c ≠ "".

(** The playlist entries named [name] that carry a group label. *)
Definition groupedAs (name : string) (c : m3u.Channel) : Prop :=
  m3u.Name c = name ∧ m3u.Name c ≠ "" ∧ m3u.Group c ≠ "".

(** The playlist entries that the normalized-name pass may stand for
    [key]: no hint, a non-empty name that no hinted entry bears, and the
    normalized name [key]. *)
Definition normalizedAs (hinted : gset string) (key : string) (c : m3u.Channel) : Prop :=
  m3u.TVGID c = "" ∧ (m3u.Name c ∉ hinted) ∧ m3u.Name c ≠ ""
  ∧ normalizeChannelName (m3u.Name c) = key.

Global Instance hintedAs_dec tvgID c : Decision (hintedAs tvgID c).
Proof. unfold hintedAs. apply _. Defined.
Global Instance groupedAs_dec name c : Decision (groupedAs name c).
Proof. unfold groupedAs. apply _. Defined.
Global Instance normalizedAs_dec hinted key c : Decision (normalizedAs hinted key c).
Proof. unfold normalizedAs. apply _. Defined.

(** The entry of the normalized-name map that a playlist entry gives. *)
Definition normalizedInfoOf (c : m3u.Channel) : m3uNormalizedInfo :=
  {| originalName := m3u.Name c;
     normalizedName := normalizeChannelName (m3u.Name c);
     region := extractRegion (m3u.Name c) |}.

(** The matcher only adds to its two matched sets and keeps the guide. *)
Definition stateGrows (s s' : matcherState) : Prop :=
  epgChannels s' = epgChannels s
  ∧ epgIDToCandidates s' = epgIDToCandidates s
  ∧ matchedM3U s ⊆ matchedM3U s'
  ∧ matchedEPG s ⊆ matchedEPG s'.

(** What [findBestTVGIDCandidate] is to return: the first unmatched
    candidate with the display name of the playlist entry, else the first
    unmatched candidate, else [-1]. *)
Definition bestTVGIDCandidate (s : matcherState) (candidates : list nat)
    (m3uName : string) : Z :=
  match list_find (displayNameAt s m3uName) (unmatchedCandidates s candidates) with
  | Some (_, i) => Z.of_nat i
  | None =>
      match unmatchedCandidates s candidates with
      | i :: _ => Z.of_nat i
      | [] => -1
      end
  end.

(** The finalized channel [ch] is the guide channel [ch0] under the
    identifier of some use of its original identifier. *)
Definition finalizedFrom (ch0 ch : Channel) : Prop :=
  DisplayName ch = DisplayName ch0 ∧ ChIcon ch = ChIcon ch0
  ∧ ∃ n, 1 ≤ n ∧ ID ch = nthUseID (originalID ch0) n.

(** The filtered program [q] is the guide program [p], kept under its own
    channel or copied to a channel renamed with a numeric suffix, with the
    category of the playlist where there is one. *)
Definition filteredFrom (channelIDMap categoryMap : gmap string string)
    (p q : Programme) : Prop :=
  q = categorize channelIDMap categoryMap (PChannel q) (withChannel (PChannel q) p)
  ∧ (PChannel q = PChannel p
     ∨ ∃ suffix, isNumericSuffix suffix = true
                 ∧ PChannel q = PChannel p +:+ "-" +:+ suffix).

(** ** Placeholders after the merge ([AddFakeChannels], package epg)

    The two loops over [channelMap] are numbered 0 and 1 in the oracle that
    the function is given. *)
Definition AddFakeChannels (range : RangeOracle) (epgData : TV)
    (m3uChannels : list m3u.Channel) (channelMap : gmap string string) : TV :=
  let matchedM3UNames : gset string :=
    foldl (λ acc '(_, m3uName), {[m3uName]} ∪ acc) ∅ (range 0%nat _ channelMap) in
  let channelsWithPrograms : gset string :=
    foldl (λ acc prog, {[PChannel prog]} ∪ acc) ∅ (Programs epgData) in
  let categoryMap := buildCategoryMap m3uChannels in
  let newChannelMap : gmap string string :=
    foldl (λ acc '(k, v), <[k := v]> acc) ∅ (range 1%nat _ channelMap) in
  let '(fakeChannels, newChannelMap) :=
    foldl (λ '(fakeChannels, newChannelMap) m3uChannel,
             if decide (m3u.Name m3uChannel ∈ matchedM3UNames)
             then (fakeChannels, newChannelMap)
             else if decide (m3u.Name m3uChannel = "") then (fakeChannels, newChannelMap)
             else
               let channelID := generateChannelID (m3u.Name m3uChannel) in
               let fakeChannel :=
                 {| ID := channelID;
                    DisplayName := m3u.Name m3uChannel;
                    ChIcon := {| Src := m3u.TVGLogo m3uChannel |} |} in
               (fakeChannels ++ [fakeChannel],
                <[channelID := m3u.Name m3uChannel]> newChannelMap))
          ([], newChannelMap) m3uChannels in
  let allChannels := Channels epgData ++ fakeChannels in
  let fakePrograms :=
    generateFakePrograms allChannels channelsWithPrograms categoryMap newChannelMap in
  {| Channels := allChannels; Programs := Programs epgData ++ fakePrograms |}.

(** ** Fetching the guides ([FetchEPG], package data)

    What the network and the XML decoder give is an input: [storedM3U] is
    the playlist of the store, if any, and [sources] holds, for every guide
    URL in order, the decoded guide, or [None] when the download or the
    decoding failed.  Every call of [FilterForMerge] has range loops of its
    own, and so have [MergeEPGs] and [AddFakeChannels]. *)
Inductive fetchOutcome :=
| fetchStored (epg : TV) (channelMap : gmap string string)
| fetchError (msg : string).

Definition filterSources (rangeFilter : nat → RangeOracle)
    (m3uChannels : list m3u.Channel) (sources : list (option TV))
  : option (list (option FilterResult)) :=
  forEach (indexed sources)
    (λ '(i, source) results,
       match source with
       | None => Some results
       | Some epgData =>
           result ← FilterForMerge (rangeFilter i) epgData m3uChannels;
           _ ← EPG result;
           Some (results ++ [Some result])
       end)
    [].

Definition FetchEPG (rangeFilter : nat → RangeOracle) (rangeMerge rangeFake : RangeOracle)
    (storedM3U : option (list m3u.Channel)) (sources : list (option TV))
  : option fetchOutcome :=
  match storedM3U with
  | None => Some (fetchError "M3U data not available, cannot filter EPG")
  | Some m3uChannels =>
      results ← filterSources rangeFilter m3uChannels sources;
      if decide (length results = 0%nat) then Some (fetchError "all EPG sources failed")
      else
        let merged := MergeEPGs rangeMerge results in
        let finalEPG :=
          {| Channels := MergedChannels merged; Programs := MergedPrograms merged |} in
        let finalEPG :=
          AddFakeChannels rangeFake finalEPG m3uChannels (MergedChannelMap merged) in
        Some (fetchStored finalEPG (MergedChannelMap merged))
  end.

(** The placeholder program of a channel without guide data. *)
Definition placeholderProgram (categoryMap channelIDMap : gmap string string)
    (ch : Channel) : Programme :=
  let displayName := default (DisplayName ch) (channelIDMap !! ID ch) in
  {| PChannel := ID ch;
     Start := "20260101000000 +0000";
     Stop := "20260101235959 +0000";
     Title := displayName;
     Description := "No programme information available";
     Category := default "" (categoryMap !! displayName) |}.

(** The playlist entries for which a placeholder channel is made up. *)
Definition unmatchedEntries (channelMap : gmap string string)
    (m3uChannels : list m3u.Channel) : list m3u.Channel :=
  filter (λ c, (m3u.Name c ∉ (map_img channelMap : gset string)) ∧ m3u.Name c ≠ "")
         m3uChannels.

(** [newChannelMap] once the placeholder channels are entered. *)
Definition withFakeChannels (channelMap : gmap string string) (fake : list Channel)
  : gmap string string :=
  foldl (λ channelIDMap fakeChannel,
           <[ID fakeChannel := DisplayName fakeChannel]> channelIDMap)
        channelMap fake.

(** *** Where the merged guide comes from *)

(** Some live source maps the identifier [id] to the playlist name [name]. *)
Definition sourceEntry (results : list (option FilterResult)) (id name : string) : Prop :=
  ∃ j epg cm, liveSource results j epg cm ∧ cm !! id = Some name.

(** The merged channel [ch] is a channel of a live source that maps its
    identifier to a playlist name, shown under that name. *)
Definition sourceChannel (results : list (option FilterResult)) (ch : Channel) : Prop :=
  ∃ j epg cm ch0, liveSource results j epg cm ∧ ch0 ∈ Channels epg
                  ∧ cm !! ID ch0 = Some (DisplayName ch)
                  ∧ ch = withDisplayName (DisplayName ch) ch0.

(** The merged program [q] is a program of a live source that maps its
    channel to the playlist name [name], moved to the channel of [q]. *)
Definition sourceProgram (results : list (option FilterResult)) (name : string)
    (q : Programme) : Prop :=
  ∃ j epg cm p, liveSource results j epg cm ∧ p ∈ Programs epg
                ∧ cm !! PChannel p = Some name ∧ q = withChannel (PChannel q) p.

(** What holds of the variables of [MergeEPGs] between two map entries. *)
Record mergeInv (results : list (option FilterResult)) (st : mergeState) : Prop := {
  minv_map : ∀ id name, mergedChannelMap st !! id = Some name →
               sourceEntry results id name ∧ m3uToEPGID st !! name = Some id;
  minv_owner : ∀ name id, m3uToEPGID st !! name = Some id →
                 sourceEntry results id name ∧ is_Some (mergedChannelMap st !! id);
  minv_channels : ∀ ch, ch ∈ mergedChannels st →
                    sourceChannel results ch
                    ∧ m3uToEPGID st !! DisplayName ch = Some (ID ch);
  minv_programs : ∀ k l q, channelPrograms st !! k = Some l → q ∈ l →
                    PChannel q = k
                    ∧ ∃ name, m3uToEPGID st !! name = Some k
                              ∧ sourceProgram results name q;
}.

Definition emptyMergeState : mergeState :=
  {| mergedChannels := []; mergedChannelMap := ∅; m3uToEPGID := ∅; channelPrograms := ∅ |}.

(** The result [x] is what [FilterForMerge] returns for some decoded source. *)
Definition filteredSource (rangeFilter : nat → RangeOracle)
    (m3uChannels : list m3u.Channel) (sources : list (option TV))
    (x : option FilterResult) : Prop :=
  ∃ i epgData tv cm,
    sources !! i = Some (Some epgData)
    ∧ FilterForMerge (rangeFilter i) epgData m3uChannels
      = Some {| EPG := Some tv; ChannelMap := cm |}
    ∧ x = Some {| EPG := Some tv; ChannelMap := cm |}.

(** * Properties *)

(** ** Go strings *)

Section string_facts.

Lemma mapBytes_length f s : String.length (mapBytes f s) = String.length s.
Proof. induction s as [|c r IH]; simpl; congruence. Qed.

Lemma ToUpper_length s : String.length (ToUpper s) = String.length s.
Proof. apply mapBytes_length. Qed.

Lemma app_cons c s t : String c s +:+ t = String c (s +:+ t).
Proof. reflexivity. Qed.

Lemma app_nil s : "" +:+ s = s.
Proof. reflexivity. Qed.

Lemma mapBytes_app f s t : mapBytes f (s +:+ t) = mapBytes f s +:+ mapBytes f t.
Proof.
  induction s as [|c r IH]; [done|].
  rewrite app_cons. cbn [mapBytes]. by rewrite app_cons, IH.
Qed.


Lemma mapBytes_takeBytes f n s : mapBytes f (takeBytes n s) = takeBytes n (mapBytes f s).
Proof.
  revert s. induction n as [|n IH]; intros [|c r]; simpl; auto.
  by rewrite IH.
Qed.

Lemma dropBytes_dropBytes a b s : dropBytes b (dropBytes a s) = dropBytes (a + b) s.
Proof.
  revert s. induction a as [|a IH]; intros s; simpl; [done|].
  destruct s as [|c r]; [by destruct b|]. apply IH.
Qed.

Lemma dropBytes_length n s :
  String.length (dropBytes n s) = (String.length s - n)%nat.
Proof. revert s. induction n as [|n IH]; intros [|c r]; simpl; auto with lia. Qed.

Lemma takeBytes_length n s :
  String.length (takeBytes n s) = (n `min` String.length s)%nat.
Proof. revert s. induction n as [|n IH]; intros [|c r]; simpl; auto with lia. Qed.

Lemma app_length_str s t :
  String.length (s +:+ t) = (String.length s + String.length t)%nat.
Proof.
  induction s as [|c r IH]; [done|]. rewrite app_cons. simpl. by rewrite IH.
Qed.


Lemma HasPrefix_length s p :
  HasPrefix s p = true → (String.length p ≤ String.length s)%nat.
Proof.
  revert s. induction p as [|c p IH]; intros [|d s];
    cbn [HasPrefix String.length]; try done; try lia.
  case_decide; [|done]. intros ?%IH. lia.
Qed.

(** Two prefixes of one string: the shorter is a prefix of the longer. *)
Lemma HasPrefix_both s p q :
  HasPrefix s p = true → HasPrefix s q = true →
  HasPrefix p q = true ∨ HasPrefix q p = true.
Proof.
  revert s q. induction p as [|c p IH]; intros s q; [by right; destruct q|].
  destruct q as [|d q]; [by left|]. destruct s as [|e s]; [done|].
  cbn [HasPrefix]. repeat case_decide; try done; subst; try congruence. apply IH.
Qed.

Lemma Index_bounds s sub :
  0 ≤ Index s sub → Index s sub + len sub ≤ len s.
Proof.
  unfold len. induction s as [|c r IH].
  - cbn [Index]. destruct (HasPrefix "" sub) eqn:E; [|lia].
    apply HasPrefix_length in E. simpl in *. lia.
  - cbn [Index]. destruct (HasPrefix (String c r) sub) eqn:E.
    + apply HasPrefix_length in E. lia.
    + cbn zeta. case_match; [lia|]. intros _.
      assert (0 ≤ Index r sub) as Hr by lia. specialize (IH Hr). simpl. lia.
Qed.

End string_facts.

(** ** The name normalizer *)

(** The inner suffix loop leaves through its condition: started with the
    length of the string as fuel, it returns a string in which the suffix
    no longer occurs. *)
Lemma stripSuffixLoop_exits fuel suffix s :
  suffix ≠ "" → (String.length s ≤ fuel)%nat →
  Contains (ToUpper (stripSuffixLoop fuel suffix s)) (ToUpper suffix) = false.
Proof.
  intros Hne. revert s. induction fuel as [|fuel IH]; intros s Hlen.
  - destruct s; [|simpl in Hlen; lia]. destruct suffix; done.
  - cbn [stripSuffixLoop]. cbn zeta.
    destruct (Contains (ToUpper s) (ToUpper suffix)) eqn:Hc; [|done].
    unfold Contains in Hc. rewrite Hc. apply IH.
    apply Z.leb_le in Hc. pose proof (Index_bounds _ _ Hc) as Hb.
    unfold len in Hb. rewrite !ToUpper_length in Hb.
    rewrite app_length_str. unfold sliceTo, sliceFrom, len.
    rewrite takeBytes_length, dropBytes_length.
    assert (0 < String.length suffix)%nat by (destruct suffix; [done|simpl; lia]).
    lia.
Qed.

Lemma stripSuffix_exits s suffix :
  suffix ≠ "" → Contains (ToUpper (stripSuffix s suffix)) (ToUpper suffix) = false.
Proof. intros. by apply stripSuffixLoop_exits. Qed.

Lemma qualitySuffixes_nonempty : Forall (λ suffix, suffix ≠ "") qualitySuffixes.
Proof. repeat constructor; discriminate. Qed.

Lemma regionPrefixes_agree : regionsAgree regionPrefixes = true.
Proof. vm_compute. reflexivity. Qed.

Lemma extractRegionIn_first order upperName :
  (extractRegionIn order upperName = ""
   ∧ Forall (λ e, HasPrefix upperName (ToUpper e.1) = false) order)
  ∨ (∃ e, e ∈ order ∧ HasPrefix upperName (ToUpper e.1) = true
        ∧ extractRegionIn order upperName = e.2).
Proof.
  induction order as [|[p r] rest IH]; [by left|]. simpl.
  destruct (HasPrefix upperName (ToUpper p)) eqn:E.
  - right. exists (p, r). split; [left|done].
  - destruct IH as [[? ?]|(e & ? & ? & ?)].
    + left. split; [done|]. by constructor.
    + right. exists e. split; [by right|done].
Qed.

(** The verdict of [extractRegion] does not depend on the order in which the
    [range] loop visits [regionPrefixes]: two entries that match the same
    name carry the same region. *)
Lemma extractRegion_any_order order name :
  order ≡ₚ regionPrefixes →
  extractRegionIn order (ToUpper name) = extractRegion name.
Proof.
  intros Hperm. unfold extractRegion.
  assert (∀ e1 e2, e1 ∈ regionPrefixes → e2 ∈ regionPrefixes →
            HasPrefix (ToUpper name) (ToUpper e1.1) = true →
            HasPrefix (ToUpper name) (ToUpper e2.1) = true → e1.2 = e2.2) as Hagree.
  { intros e1 e2 H1 H2 P1 P2.
    pose proof regionPrefixes_agree as Hall. unfold regionsAgree in Hall.
    rewrite forallb_forall in Hall.
    destruct (HasPrefix_both _ _ _ P1 P2) as [Hp|Hp].
    - apply list_elem_of_In in H1, H2. specialize (Hall _ H1).
      rewrite forallb_forall in Hall. specialize (Hall _ H2).
      rewrite Hp in Hall. by apply bool_decide_eq_true in Hall.
    - apply list_elem_of_In in H1, H2. specialize (Hall _ H2).
      rewrite forallb_forall in Hall. specialize (Hall _ H1).
      rewrite Hp in Hall. by apply bool_decide_eq_true in Hall. }
  destruct (extractRegionIn_first order (ToUpper name)) as [[-> Ho]|(e1 & I1 & P1 & ->)];
    destruct (extractRegionIn_first regionPrefixes (ToUpper name))
      as [[-> Hr]|(e2 & I2 & P2 & ->)]; try done.
  - rewrite Hperm in Ho. rewrite Forall_forall in Ho. specialize (Ho _ I2). congruence.
  - rewrite Hperm in I1. rewrite Forall_forall in Hr. specialize (Hr _ I1). congruence.
  - rewrite Hperm in I1. by apply Hagree.
Qed.


Lemma app_nil_r_str s : s +:+ "" = s.
Proof. induction s as [|c s IH]; [done|]. by rewrite app_cons, IH. Qed.

Lemma app_assoc_str s t u : s +:+ (t +:+ u) = (s +:+ t) +:+ u.
Proof. induction s as [|c s IH]; [done|]. by rewrite !app_cons, IH. Qed.






(** An entry that precedes a removed one is not tried again: "UK " is
    removed from "UK US:ESPN", and "US:", earlier in the list, stays. *)
Example normalize_no_rescan :
  removedPrefixes countryPrefixes "UK US:ESPN" = ["UK "]
  ∧ normalizeChannelName "UK US:ESPN" = "us:espn".
Proof. vm_compute. done. Qed.

(** C4: the three names "US: ESPN", "ESPN" and "USA  ESPN (HD)" all
    normalize to "espn". *)
Theorem normalize_espn_variants :
  normalizeChannelName "US: ESPN" = "espn"
  ∧ normalizeChannelName "ESPN" = "espn"
  ∧ normalizeChannelName "USA  ESPN (HD)" = "espn"
  ∧ normalizeChannelName "US: ESPN" = normalizeChannelName "ESPN"
  ∧ normalizeChannelName "ESPN" = normalizeChannelName "USA  ESPN (HD)".
Proof. vm_compute. done. Qed.
Example normalize_tests :
  map normalizeChannelName
    ["ESPN"; "US: ESPN"; "USA  ESPN"; "AU: Fox Sports 501"; "ESPN (HD)";
     "US ESPN 1 (HD) (S)"; "Carib ESPN (D)"; "FOX   NEWS  "; "PH TFC (EMEA)"]
  = ["espn"; "espn"; "espn"; "fox sports 501"; "espn"; "espn 1"; "espn";
     "fox news"; "tfc"].
Proof. vm_compute. reflexivity. Qed.

Example generateChannelID_tests :
  map generateChannelID [""; "ESPN"; "FOX Sports 1";
    "12345678901234567890123456789012345678901234567890123456789012345678901234567890"]
  = ["d41d8cd98f00b204e9800998ecf8427e"; "7b0ef842a6a1233a8a86a8533063a1a1";
     "03615679344c1d71e60376308ca61992"; "57edf4a22be3c955ac49da2e2107b67a"].
Proof. vm_compute. reflexivity. Qed.

(** ** Loops and iteration orders *)

Lemma forEach_app {A S : Type} (l1 l2 : list A) (body : A → S → option S) (s : S) :
  forEach (l1 ++ l2) body s = forEach l1 body s ≫= forEach l2 body.
Proof.
  revert s. induction l1 as [|x l1 IH]; intros s; simpl; [done|].
  destruct (body x s) as [s'|]; simpl; [apply IH|done].
Qed.

Lemma forEach_inv {A S : Type} (P : S → Prop) (l : list A)
    (body : A → S → option S) (s : S) :
  P s →
  (∀ x s, x ∈ l → P s → ∃ s', body x s = Some s' ∧ P s') →
  ∃ s', forEach l body s = Some s' ∧ P s'.
Proof.
  revert s. induction l as [|x l IH]; intros s Hs Hbody; simpl; [by eauto|].
  destruct (Hbody x s) as (s1 & -> & Hs1); [by left|done|]. simpl.
  apply IH; [done|]. intros y t Hy. apply Hbody. by right.
Qed.

Lemma forEach_Some_inv {A S : Type} (P : S → Prop) (l : list A)
    (body : A → S → option S) (s s' : S) :
  forEach l body s = Some s' →
  P s →
  (∀ x s s', x ∈ l → body x s = Some s' → P s → P s') →
  P s'.
Proof.
  revert s. induction l as [|x l IH]; intros s Hrun Hs Hbody; simpl in *.
  - by simplify_eq.
  - destruct (body x s) as [s1|] eqn:E; simpl in *; [|done].
    apply (IH s1); [done| |].
    + eapply Hbody; [by left|done|done].
    + intros y t t' Hy. apply Hbody. by right.
Qed.

Lemma indexed_lookup {A : Type} (l : list A) i x :
  (i, x) ∈ indexed l ↔ l !! i = Some x.
Proof.
  unfold indexed. rewrite list_elem_of_lookup. split.
  - intros [k Hk]. rewrite list_lookup_imap in Hk.
    destruct (l !! k) eqn:E; simpl in Hk; [|done]. by simplify_eq.
  - intros Hi. exists i. by rewrite list_lookup_imap, Hi.
Qed.

Lemma range_canon_ok : range_ok range_canon.
Proof. by intros site V m. Qed.

Lemma range_elem_of (range : RangeOracle) site {V} (m : gmap string V) k v :
  range_ok range → (k, v) ∈ range site V m ↔ m !! k = Some v.
Proof. intros Hr. by rewrite (Hr site V m), elem_of_map_to_list. Qed.

Lemma range_NoDup_keys (range : RangeOracle) site {V} (m : gmap string V) :
  range_ok range → NoDup (range site V m).*1.
Proof. intros Hr. rewrite (Hr site V m). apply NoDup_fst_map_to_list. Qed.

(** ** The identifier allocator *)

Lemma withID_same ch : withID (ID ch) ch = ch.
Proof. by destruct ch. Qed.

Lemma finalizeFrom_snoc prior l ch :
  finalizeFrom prior (l ++ [ch]) = finalizeFrom prior l ++ [finalizeNth (prior ++ l) ch].
Proof.
  revert prior. induction l as [|c l IH]; intros prior; simpl.
  - by rewrite app_nil_r.
  - by rewrite IH, <- app_assoc.
Qed.

Lemma finalizeAll_snoc l ch :
  finalizeAll (l ++ [ch]) = finalizeAll l ++ [finalizeNth l ch].
Proof. apply finalizeFrom_snoc. Qed.

Lemma finalizeAll_length l : length (finalizeAll l) = length l.
Proof.
  unfold finalizeAll. generalize (@nil Channel) as prior.
  induction l as [|c l IH]; intros prior; simpl; [done|]. by rewrite IH.
Qed.

Lemma usesOf_nonneg id prior : 0 ≤ usesOf id prior.
Proof. unfold usesOf. lia. Qed.

Lemma usesOf_snoc id prior ch :
  usesOf id (prior ++ [ch])
  = usesOf id prior + (if decide (originalID ch = id) then 1 else 0).
Proof.
  unfold usesOf. rewrite filter_app, length_app.
  rewrite filter_cons, filter_nil. case_decide; simpl; lia.
Qed.


Lemma dedupeID_nthUse counts prior id :
  countsUses counts prior → dedupeID counts id = nthUseID id (usesOf id prior + 1).
Proof.
  intros Hc. unfold dedupeID, nthUseID. rewrite (Hc id).
  pose proof (usesOf_nonneg id prior).
  repeat case_decide; try done; lia.
Qed.

Lemma countsUses_step counts prior ch :
  countsUses counts prior →
  countsUses (<[originalID ch := default 0 (counts !! originalID ch) + 1]> counts)
             (prior ++ [ch]).
Proof.
  intros Hc id. rewrite usesOf_snoc.
  pose proof (usesOf_nonneg id prior).
  destruct (decide (originalID ch = id)) as [->|Hne].
  - rewrite lookup_insert_eq, (Hc id).
    repeat case_decide; simpl; try lia; f_equal; lia.
  - rewrite lookup_insert_ne by done. rewrite (Hc id), Z.add_0_r. done.
Qed.

(** ** The matcher state along a run *)


Lemma matcherRun_inv chs matches s : matcherRun chs matches s → matcherInv chs matches s.
Proof.
  induction 1 as [|matches s i ch name s' Hrun IH Hi HnE HnM Hadd].
  - split; try done.
    + intros name. set_solver.
    + constructor.
    + intros id [? H]. simpl in H. by rewrite lookup_empty in H.
  - destruct IH as [He Hc Hm Hcnt HM Hnd Hval Hkey Hinj HE].
    unfold addMatch in Hadd. rewrite He, Hi in Hadd. simpl in Hadd.
    injection Hadd as <-. fold (originalID ch).
    rewrite (dedupeID_nthUse _ _ _ Hcnt). fold (finalizeNth matches.*1 ch).
    split; simpl; rewrite ?fmap_app; simpl; try done.
    + by rewrite Hm, finalizeAll_snoc.
    + by apply countsUses_step.
    + intros n. rewrite elem_of_union, elem_of_singleton, elem_of_app, HM.
      rewrite list_elem_of_singleton. tauto.
    + apply NoDup_app. split; [done|]. split; [|apply NoDup_singleton].
      intros n Hn ->%list_elem_of_singleton. apply HnM. by apply HM.
    + intros id n. rewrite lookup_insert. case_decide.
      * intros [= <-]. apply elem_of_app. right. by left.
      * intros ?%Hval. apply elem_of_app. by left.
    + intros id. rewrite lookup_insert. case_decide as Hid.
      * intros _. eexists. split; [apply elem_of_app; right; by left|done].
      * intros (c & Hin & Hc')%Hkey. exists c. split; [|done].
        apply elem_of_app. by left.
    + intros id1 id2 n. rewrite !lookup_insert.
      repeat case_decide; subst; try done.
      * intros [= <-] ?%Hval. exfalso. apply HnM. by apply HM.
      * intros ?%Hval [= <-]. exfalso. apply HnM. by apply HM.
      * apply Hinj.
    + intros j [->%elem_of_singleton|?]%elem_of_union; [|by apply HE].
      by apply lookup_lt_Some in Hi.
Qed.

Lemma foldl_inv {A B : Type} (P : B → Prop) (f : B → A → B) (l : list A) (b : B) :
  P b → (∀ b x, x ∈ l → P b → P (f b x)) → P (foldl f b l).
Proof.
  revert b. induction l as [|x l IH]; intros b Hb Hf; simpl; [done|].
  apply IH; [apply Hf; [by left|done]|]. intros b' y Hy. apply Hf. by right.
Qed.

Lemma indexed_snoc {A : Type} (l : list A) x :
  indexed (l ++ [x]) = indexed l ++ [(length l, x)].
Proof. unfold indexed. rewrite imap_app. simpl. by rewrite Nat.add_0_r. Qed.

(** The candidate lists of a fresh state only hold positions of guide
    channels with the identifier they are filed under. *)
Lemma candidates_valid chs id cands i :
  epgIDToCandidates (newMatcherState chs) !! id = Some cands → i ∈ cands →
  ∃ ch, chs !! i = Some ch ∧ ID ch = id.
Proof.
  simpl. revert id cands i.
  apply (foldl_inv (λ m : gmap string (list nat), ∀ id cands i,
           m !! id = Some cands → i ∈ cands → ∃ ch, chs !! i = Some ch ∧ ID ch = id)).
  - intros id cands i. by rewrite lookup_empty.
  - intros m [j ch] Hj%indexed_lookup IH id cands i. case_decide; [|apply IH].
    rewrite lookup_insert. case_decide as Hid; [|apply IH].
    intros [= <-] [Hi| ->%list_elem_of_singleton]%elem_of_app; [|by eauto].
    destruct (m !! ID ch) as [old|] eqn:E; simpl in Hi; [|by inversion Hi].
    subst id. by eapply IH.
Qed.

(** ** The normalized-name pass picks the best candidate *)

Lemma scoreRegionMatch_cases m3uRegion epgRegion :
  (m3uRegion ≠ "" ∧ epgRegion = m3uRegion ∧ scoreRegionMatch m3uRegion epgRegion = 2)
  ∨ (epgRegion = "" ∧ scoreRegionMatch m3uRegion epgRegion = 1)
  ∨ (epgRegion ≠ "" ∧ epgRegion ≠ m3uRegion ∧ scoreRegionMatch m3uRegion epgRegion = 0).
Proof.
  unfold scoreRegionMatch.
  destruct (decide (m3uRegion ≠ "" ∧ epgRegion = m3uRegion)) as [[? ?]|Hn];
    [by left|].
  destruct (decide (epgRegion = "")); [by right; left|].
  right; right. split_and!; try done. intros ->. apply Hn. by split.
Qed.

Lemma scoreRegionMatch_nonneg m3uRegion epgRegion :
  0 ≤ scoreRegionMatch m3uRegion epgRegion.
Proof. destruct (scoreRegionMatch_cases m3uRegion epgRegion) as [(_&_&->)|[(_&->)|(_&_&->)]]; lia. Qed.

Lemma bestNormalizedStep_eq s m3uInfo best i ch :
  bestNormalizedStep s m3uInfo best (i, ch)
  = if decide (normalizedCandidate s m3uInfo i ch)
    then (if best.2 <? regionScore m3uInfo ch
          then (Z.of_nat i, regionScore m3uInfo ch) else best)
    else best.
Proof.
  unfold bestNormalizedStep, normalizedCandidate, regionScore.
  destruct (decide (i ∈ matchedEPG s)); [by rewrite decide_False by tauto|].
  destruct (decide (normalizeChannelName (DisplayName ch) ≠ normalizedName m3uInfo)).
  - by rewrite decide_False by tauto.
  - rewrite decide_True; [done|]. split; [done|].
    by destruct (decide (normalizeChannelName (DisplayName ch) = normalizedName m3uInfo)).
Qed.

Lemma bestNormalized_fold s m3uInfo chs :
  let best := foldl (bestNormalizedStep s m3uInfo) (-1, -1) (indexed chs) in
  ((∀ j c, chs !! j = Some c → ¬ normalizedCandidate s m3uInfo j c) ∧ best = (-1, -1))
  ∨ (∃ i ch, chs !! i = Some ch ∧ normalizedCandidate s m3uInfo i ch
       ∧ best = (Z.of_nat i, regionScore m3uInfo ch)
       ∧ ∀ j c, chs !! j = Some c → normalizedCandidate s m3uInfo j c →
           regionScore m3uInfo c ≤ regionScore m3uInfo ch
           ∧ ((j < i)%nat → regionScore m3uInfo c < regionScore m3uInfo ch)).
Proof.
  cbn zeta. induction chs as [|x chs IH] using rev_ind.
  { left. split; [|done]. intros j c. by rewrite lookup_nil. }
  rewrite indexed_snoc, foldl_app. cbn [foldl].
  set (n := length chs) in *.
  assert (∀ j c, (chs ++ [x]) !! j = Some c →
            chs !! j = Some c ∧ (j < n)%nat ∨ j = n ∧ c = x) as Hsplit.
  { intros j c Hj. apply lookup_app_Some in Hj as [Hj|[Hge Hj]].
    - left. split; [done|]. by apply lookup_lt_Some in Hj.
    - right. apply list_lookup_singleton_Some in Hj as [? ->]. subst n. split; [lia|done]. }
  rewrite bestNormalizedStep_eq.
  pose proof (scoreRegionMatch_nonneg (region m3uInfo) (extractRegion (DisplayName x))) as Hx.
  fold (regionScore m3uInfo x) in Hx.
  assert ((chs ++ [x]) !! n = Some x) as Hnx.
  { subst n. by rewrite list_lookup_middle. }
  destruct (decide (normalizedCandidate s m3uInfo n x)) as [Hcx|Hcx].
  - destruct IH as [[Hnone ->]|(i & ch & Hi & Hc & -> & Hmax)]; cbn [snd].
    + right. exists n, x. rewrite (proj2 (Z.ltb_lt _ _)) by lia.
      split_and!; try done.
      intros j c [[Hj _]|[-> ->]]%Hsplit Hcj; [by destruct (Hnone j c)|]. lia.
    + right. destruct (regionScore m3uInfo ch <? regionScore m3uInfo x) eqn:E.
      * apply Z.ltb_lt in E. exists n, x. split_and!; try done.
        intros j c [[Hj Hlt]|[-> ->]]%Hsplit Hcj; [|lia].
        destruct (Hmax j c Hj Hcj). lia.
      * apply Z.ltb_ge in E. exists i, ch. split_and!; try done.
        { by apply lookup_app_l_Some. }
        intros j c [[Hj Hlt]|[-> ->]]%Hsplit Hcj; [by apply Hmax|].
        split; [done|]. apply lookup_lt_Some in Hi. lia.
  - destruct IH as [[Hnone ->]|(i & ch & Hi & Hc & -> & Hmax)].
    + left. split; [|done]. intros j c [[Hj _]|[-> ->]]%Hsplit; [by apply Hnone|done].
    + right. exists i, ch. split_and!; try done.
      { by apply lookup_app_l_Some. }
      intros j c [[Hj _]|[-> ->]]%Hsplit Hcj; [by apply Hmax|done].
Qed.

(** ** The passes extend a run *)

Lemma runFrom_refl chs matches s : matcherRun chs matches s → runFrom chs matches s.
Proof. intros. exists []. by rewrite app_nil_r. Qed.

Lemma addMatch_runFrom chs matches s i ch name :
  runFrom chs matches s → chs !! i = Some ch →
  i ∉ matchedEPG s → name ∉ matchedM3U s →
  ∃ s', addMatch i name s = Some s' ∧ runFrom chs matches s'.
Proof.
  intros [new Hrun] Hi HE HM.
  pose proof (inv_epgChannels _ _ _ (matcherRun_inv _ _ _ Hrun)) as He.
  destruct (addMatch i name s) as [s'|] eqn:Hadd.
  - exists s'. split; [done|]. exists (new ++ [(ch, name)]).
    rewrite app_assoc. by eapply matcherRun_step.
  - unfold addMatch in Hadd. by rewrite He, Hi in Hadd.
Qed.

Lemma findBestTVGIDCandidateFrom_spec s candidates m3uName bestIdx :
  (∀ i, i ∈ candidates → is_Some (epgChannels s !! i)) →
  ∃ r, findBestTVGIDCandidateFrom s candidates m3uName bestIdx = Some r
       ∧ (r = bestIdx ∨ ∃ i, r = Z.of_nat i ∧ i ∈ candidates ∧ i ∉ matchedEPG s).
Proof.
  revert bestIdx. induction candidates as [|idx rest IH]; intros bestIdx Hvalid; simpl.
  - eauto.
  - assert (∀ i, i ∈ rest → is_Some (epgChannels s !! i)) as Hrest.
    { intros i Hi. apply Hvalid. by right. }
    assert (∀ b, ∃ r, findBestTVGIDCandidateFrom s rest m3uName b = Some r
              ∧ (r = b ∨ ∃ i, r = Z.of_nat i ∧ i ∈ idx :: rest ∧ i ∉ matchedEPG s)) as IH'.
    { intros b. destruct (IH b Hrest) as (r & -> & [->|(i & -> & Hi & Hm)]);
        eexists; split; eauto. right. exists i. split_and!; [done|by right|done]. }
    destruct (decide (idx ∈ matchedEPG s)) as [Hm|Hm]; [apply IH'|].
    destruct (Hvalid idx) as [ch ->]; [by left|]. simpl.
    destruct (decide (DisplayName ch = m3uName)).
    + eexists. split; [done|]. right. exists idx. split_and!; [done|by left|done].
    + destruct (IH' (if bestIdx =? -1 then Z.of_nat idx else bestIdx))
        as (r & -> & [->|Hr]); eexists; (split; [done|]); [|by right].
      destruct (bestIdx =? -1); [|by left].
      right. exists idx. split_and!; [done|by left|done].
Qed.

Lemma matchByTVGID_runFrom chs matches order s :
  runFrom chs matches s →
  ∃ s', matchByTVGID order s = Some s' ∧ runFrom chs matches s'.
Proof.
  intros Hrun. unfold matchByTVGID.
  apply (forEach_inv (runFrom chs matches)); [done|].
  intros [tvgID m3uName] t _ Ht.
  destruct (decide (m3uName ∈ matchedM3U t)); [by eauto|].
  destruct (decide (length _ = 0%nat)); [by eauto|].
  pose proof Ht as [new Hr].
  pose proof (matcherRun_inv _ _ _ Hr) as [He Hc _ _ _ _ _ _ _ _].
  assert (∀ i, i ∈ default [] (epgIDToCandidates t !! tvgID) → is_Some (chs !! i)) as Hvalid.
  { intros i Hi. rewrite Hc in Hi.
    destruct (epgIDToCandidates (newMatcherState chs) !! tvgID) as [l|] eqn:E;
      simpl in Hi; [|by inversion Hi].
    destruct (candidates_valid _ _ _ _ E Hi) as (ch & -> & _). by eexists. }
  unfold findBestTVGIDCandidate.
  destruct (findBestTVGIDCandidateFrom_spec t
              (default [] (epgIDToCandidates t !! tvgID)) m3uName (-1)) as (r & -> & Hr');
    [by rewrite He|]. simpl.
  destruct Hr' as [->|(i & -> & Hi & Hm)]; [simpl; by eauto|].
  rewrite (proj2 (Z.leb_le _ _)) by lia. rewrite Nat2Z.id.
  destruct (Hvalid i Hi) as [ch Hch].
  eapply addMatch_runFrom; eauto.
Qed.

Lemma matchByDisplayName_runFrom chs matches channelNameMap s :
  runFrom chs matches s →
  ∃ s', matchByDisplayName channelNameMap s = Some s' ∧ runFrom chs matches s'.
Proof.
  intros Hrun. unfold matchByDisplayName.
  assert (epgChannels s = chs) as ->.
  { destruct Hrun as [new Hr]. apply (matcherRun_inv _ _ _ Hr). }
  apply (forEach_inv (runFrom chs matches)); [done|].
  intros [i ch] t Hi%indexed_lookup Ht.
  destruct (decide (i ∈ matchedEPG t)); [by eauto|].
  destruct (decide (_ ∨ _)) as [|Hn]; [by eauto|].
  eapply addMatch_runFrom; eauto.
Qed.

Lemma findBestNormalizedMatch_spec s m3uInfo :
  let r := findBestNormalizedMatch s m3uInfo in
  ((∀ j c, epgChannels s !! j = Some c → ¬ normalizedCandidate s m3uInfo j c) ∧ r = -1)
  ∨ (∃ i ch, epgChannels s !! i = Some ch ∧ normalizedCandidate s m3uInfo i ch
       ∧ r = Z.of_nat i
       ∧ ∀ j c, epgChannels s !! j = Some c → normalizedCandidate s m3uInfo j c →
           regionScore m3uInfo c ≤ regionScore m3uInfo ch
           ∧ ((j < i)%nat → regionScore m3uInfo c < regionScore m3uInfo ch)).
Proof.
  cbn zeta. unfold findBestNormalizedMatch.
  destruct (bestNormalized_fold s m3uInfo (epgChannels s))
    as [[Hnone ->]|(i & ch & Hi & Hc & -> & Hmax)]; [by left|].
  right. by exists i, ch.
Qed.

Lemma matchByNormalizedName_runFrom chs matches order s :
  runFrom chs matches s →
  ∃ s', matchByNormalizedName order s = Some s' ∧ runFrom chs matches s'.
Proof.
  intros Hrun. unfold matchByNormalizedName.
  apply (forEach_inv (runFrom chs matches)); [done|].
  intros [key m3uInfo] t _ Ht.
  destruct (decide (originalName m3uInfo ∈ matchedM3U t)); [by eauto|].
  cbn zeta.
  destruct (findBestNormalizedMatch_spec t m3uInfo)
    as [[_ ->]|(i & ch & Hi & [Hm _] & -> & _)]; [simpl; by eauto|].
  rewrite (proj2 (Z.leb_le _ _)) by lia. rewrite Nat2Z.id.
  assert (epgChannels t = chs) as He.
  { destruct Ht as [new Hr]. apply (matcherRun_inv _ _ _ Hr). }
  rewrite He in Hi. eapply addMatch_runFrom; eauto.
Qed.

(** The matcher never panics, and its final state is the state of a run. *)
Lemma runMatcher_run range chs channelNameMap tvgIDMap normalizedNameMap :
  ∃ s matches,
    runMatcher range chs channelNameMap tvgIDMap normalizedNameMap = Some s
    ∧ matcherRun chs matches s.
Proof.
  unfold runMatcher.
  destruct (matchByTVGID_runFrom chs [] (range 1%nat _ tvgIDMap) (newMatcherState chs))
    as (s1 & -> & H1); [apply runFrom_refl; constructor|]. simpl.
  destruct (matchByDisplayName_runFrom chs [] channelNameMap s1 H1) as (s2 & -> & H2).
  simpl.
  destruct (matchByNormalizedName_runFrom chs [] (range 2%nat _ normalizedNameMap) s2 H2)
    as (s3 & -> & [new H3]).
  by exists s3, new.
Qed.

(** ** The entries of the normalized-name pass *)

(** Every entry of the normalized-name map is filed under the normalized
    name of a playlist entry without guide-id hint, with the region of that
    name. *)
Lemma buildNormalizedNameMap_info m3uChannels key info :
  buildNormalizedNameMap m3uChannels !! key = Some info →
  key = normalizedName info
  ∧ normalizedName info = normalizeChannelName (originalName info)
  ∧ region info = extractRegion (originalName info)
  ∧ ∃ c, c ∈ m3uChannels ∧ m3u.Name c = originalName info ∧ m3u.TVGID c = "".
Proof.
  unfold buildNormalizedNameMap. cbn zeta. revert key info.
  set (names := namesWithTVGID m3uChannels).
  apply (foldl_inv (λ m : gmap string m3uNormalizedInfo, ∀ key info,
           m !! key = Some info →
           key = normalizedName info
           ∧ normalizedName info = normalizeChannelName (originalName info)
           ∧ region info = extractRegion (originalName info)
           ∧ ∃ c, c ∈ m3uChannels ∧ m3u.Name c = originalName info ∧ m3u.TVGID c = "")).
  - intros key info. by rewrite lookup_empty.
  - intros m c Hc Hm key info.
    destruct (decide (m3u.TVGID c ≠ "")) as [|Hid]; [apply Hm|].
    destruct (decide (m3u.Name c ∈ names)); [apply Hm|].
    destruct (decide (m3u.Name c ≠ "")); [|apply Hm].
    destruct (m !! normalizeChannelName (m3u.Name c)); [apply Hm|].
    rewrite lookup_insert. case_decide as Hk; [|apply Hm].
    intros [= <-]. simpl. split_and!; try done. exists c. split_and!; try done.
    by destruct (decide (m3u.TVGID c = "")).
Qed.

(** One turn of the loop of the normalized-name pass: an entry whose name
    is unmatched is paired with the choice of [findBestNormalizedMatch],
    when there is one. *)
Lemma matchByNormalizedName_cons key m3uInfo order s :
  matchByNormalizedName ((key, m3uInfo) :: order) s
  = if decide (originalName m3uInfo ∈ matchedM3U s)
    then matchByNormalizedName order s
    else if 0 <=? findBestNormalizedMatch s m3uInfo
         then addMatch (Z.to_nat (findBestNormalizedMatch s m3uInfo))
                (originalName m3uInfo) s ≫= matchByNormalizedName order
         else matchByNormalizedName order s.
Proof.
  unfold matchByNormalizedName. cbn [forEach].
  destruct (decide (originalName m3uInfo ∈ matchedM3U s)); [done|].
  cbn zeta. by destruct (0 <=? findBestNormalizedMatch s m3uInfo).
Qed.

(** ** Finalized identifiers *)

Lemma finalizeFrom_lookup prior l k :
  finalizeFrom prior l !! k = finalizeNth (prior ++ take k l) <$> l !! k.
Proof.
  revert prior k. induction l as [|c l IH]; intros prior k; [by destruct k|].
  destruct k as [|k]; simpl.
  - by rewrite app_nil_r.
  - rewrite IH. by rewrite <- app_assoc.
Qed.

Lemma finalizeAll_lookup l k ch :
  l !! k = Some ch → finalizeAll l !! k = Some (finalizeNth (take k l) ch).
Proof. intros H. unfold finalizeAll. by rewrite finalizeFrom_lookup, H. Qed.

(** *** Sequences of calls of [addMatch] *)

Lemma addMatches_snoc calls i name s :
  addMatches (calls ++ [(i, name)]) s = addMatches calls s ≫= addMatch i name.
Proof.
  unfold addMatches. rewrite forEach_app.
  destruct (forEach calls _ s) as [t|]; simpl; [|done]. by destruct (addMatch i name t).
Qed.

Lemma calledChannels_snoc chs calls i name ch :
  chs !! i = Some ch →
  calledChannels chs (calls ++ [(i, name)]) = calledChannels chs calls ++ [ch].
Proof. intros Hi. unfold calledChannels. rewrite omap_app. simpl. by rewrite Hi. Qed.

Lemma calledChannels_take chs calls k :
  Forall (λ call, is_Some (chs !! call.1)) calls →
  calledChannels chs (take k calls) = take k (calledChannels chs calls).
Proof.
  intros Hall. revert k. induction Hall as [|[i name] l [ch Hi] _ IH]; intros k.
  - by destruct k.
  - destruct k as [|k]; [done|]. unfold calledChannels in *. simpl in *.
    rewrite Hi. simpl. by rewrite IH.
Qed.

Lemma calledChannels_lookup chs calls k i name ch :
  Forall (λ call, is_Some (chs !! call.1)) calls →
  calls !! k = Some (i, name) → chs !! i = Some ch →
  calledChannels chs calls !! k = Some ch.
Proof.
  intros Hall. revert k. induction Hall as [|[j n] l [c Hj] _ IH]; intros k Hk Hi.
  - by rewrite lookup_nil in Hk.
  - unfold calledChannels in *. simpl in *. rewrite Hj. simpl. destruct k as [|k].
    + simpl in Hk. injection Hk as -> ->. simpl. congruence.
    + simpl. by apply IH.
Qed.

(** The calls of [addMatch] on a fresh state return when their indices are
    in range; the channels are finalized in the order of the calls, and the
    counter holds the uses of every original identifier. *)
Lemma addMatches_spec chs calls :
  Forall (λ call, is_Some (chs !! call.1)) calls →
  ∃ s, addMatches calls (newMatcherState chs) = Some s
       ∧ epgChannels s = chs
       ∧ matchedChannels s = finalizeAll (calledChannels chs calls)
       ∧ countsUses (idUsageCount s) (calledChannels chs calls)
       ∧ length (calledChannels chs calls) = length calls.
Proof.
  induction calls as [|[i name] calls IH] using rev_ind; intros Hall.
  - exists (newMatcherState chs). split_and!; try done.
  - apply Forall_app in Hall as [Hall Hlast]. apply Forall_singleton in Hlast as [ch Hi].
    destruct (IH Hall) as (s & Hs & He & Hm & Hc & Hlen).
    rewrite addMatches_snoc, Hs. cbn [mbind option_bind].
    rewrite (calledChannels_snoc _ _ _ _ _ Hi).
    unfold addMatch. rewrite He. simpl in Hi. rewrite Hi. cbn [mbind option_bind].
    eexists. split; [done|]. cbn [epgChannels matchedChannels idUsageCount].
    fold (originalID ch). rewrite (dedupeID_nthUse _ _ _ Hc).
    fold (finalizeNth (calledChannels chs calls) ch).
    split_and!; [done| | |].
    + by rewrite Hm, finalizeAll_snoc.
    + by apply countsUses_step.
    + rewrite !length_app. simpl. lia.
Qed.

(** A run of the matcher is a sequence of calls of [addMatch] on a fresh
    state, with indices in range and distinct playlist names. *)
Lemma matcherRun_calls chs matches s :
  matcherRun chs matches s →
  ∃ calls, Forall (λ call, is_Some (chs !! call.1)) calls
           ∧ calls.*2 = matches.*2
           ∧ addMatches calls (newMatcherState chs) = Some s.
Proof.
  induction 1 as [|matches s i ch name s' Hrun (calls & Hall & Hn & Hs) Hi HnE HnM Hadd].
  - by exists [].
  - exists (calls ++ [(i, name)]). split_and!.
    + apply Forall_app. split; [done|]. apply Forall_singleton. by eexists.
    + by rewrite !fmap_app, Hn.
    + by rewrite addMatches_snoc, Hs.
Qed.

(** C5: the usage counter of a matcher state starts empty, and it is keyed
    by the original identifier.  In a sequence of calls of [addMatch] on a
    fresh state, the channel of the [k]-th call is finalized as [<id>] when
    no earlier call named a channel with its original identifier [<id>],
    and as [<id>-N] when it is the [N]-th such call (N ≥ 2).  Two channels
    with the identifier "same.id" leave as "same.id" and "same.id-2",
    whatever their names.  Every run of the matcher that returns is such a
    sequence of calls, with distinct playlist names; on the guide of
    [TestFilter_DuplicateChannelIDs] the matcher returns "same.id" and
    "same.id-2". *)
Theorem dedupe_nth_use (chs : list Channel) (calls : list (nat * string)) :
  Forall (λ call, is_Some (chs !! call.1)) calls →
  idUsageCount (newMatcherState chs) = ∅
  ∧ (∃ s,
       addMatches calls (newMatcherState chs) = Some s
       ∧ length (matchedChannels s) = length calls
       ∧ (∀ k i name ch, calls !! k = Some (i, name) → chs !! i = Some ch →
            let id := originalID ch in
            let n := usesOf id (calledChannels chs (take k calls)) + 1 in
            1 ≤ n
            ∧ matchedChannels s !! k
              = Some (withID (if decide (n = 1) then id else id +:+ "-" +:+ pretty n)
                             (ensureID ch)))
       ∧ (∀ id, idUsageCount s !! id
                = if decide (usesOf id (calledChannels chs calls) = 0) then None
                  else Some (usesOf id (calledChannels chs calls))))
  ∧ (∀ c1 c2 n1 n2, ID c1 = "same.id" → ID c2 = "same.id" →
       ∃ s, addMatches [(0%nat, n1); (1%nat, n2)] (newMatcherState [c1; c2]) = Some s
            ∧ ID <$> matchedChannels s = ["same.id"; "same.id-2"])
  ∧ (∀ range channelNameMap tvgIDMap normalizedNameMap s,
       runMatcher range chs channelNameMap tvgIDMap normalizedNameMap = Some s →
       ∃ calls', Forall (λ call, is_Some (chs !! call.1)) calls'
                 ∧ NoDup calls'.*2
                 ∧ addMatches calls' (newMatcherState chs) = Some s)
  ∧ (let guide := [guideChannel "same.id" "Channel A"; guideChannel "same.id" "Channel B"] in
     let playlist := [playlistEntry "Channel A" ""; playlistEntry "Channel B" ""] in
     ∃ chans idMap,
       matchChannels range_canon guide (buildChannelNameMap playlist)
         (buildTVGIDMap playlist) (buildNormalizedNameMap playlist) = Some (chans, idMap)
       ∧ ID <$> chans = ["same.id"; "same.id-2"]
       ∧ map_to_list idMap = [("same.id-2", "Channel B"); ("same.id", "Channel A")]).
Proof.
  intros Hall. split; [done|]. split_and!.
  - destruct (addMatches_spec chs calls Hall) as (s & Hs & He & Hm & Hc & Hlen).
    exists s. split_and!; [done| | |].
    + by rewrite Hm, finalizeAll_length.
    + intros k i name ch Hk Hi. cbn zeta.
      split; [pose proof (usesOf_nonneg (originalID ch) (calledChannels chs (take k calls)));
              lia|].
      rewrite Hm, (calledChannels_take _ _ _ Hall).
      by apply finalizeAll_lookup, (calledChannels_lookup chs calls k i name).
    + apply Hc.
  - intros c1 c2 n1 n2 H1 H2.
    destruct (addMatches_spec [c1; c2] [(0%nat, n1); (1%nat, n2)])
      as (s & Hs & _ & Hm & _); [repeat constructor; by eexists|].
    exists s. split; [done|]. rewrite Hm.
    destruct c1 as [id1 d1 i1], c2 as [id2 d2 i2]. simpl in H1, H2. subst id1 id2.
    reflexivity.
  - intros range channelNameMap tvgIDMap normalizedNameMap s Hs.
    destruct (runMatcher_run range chs channelNameMap tvgIDMap normalizedNameMap)
      as (s' & matches & Hs' & Hrun).
    rewrite Hs in Hs'. injection Hs' as <-.
    destruct (matcherRun_calls _ _ _ Hrun) as (calls' & Hall' & Hn & Hadd).
    exists calls'. split_and!; [done| |done].
    rewrite Hn. apply (inv_names_NoDup _ _ _ (matcherRun_inv _ _ _ Hrun)).
  - vm_compute. eexists _, _. repeat split; reflexivity.
Qed.

Lemma dedupe_nth_use_witness :
  let chs := [guideChannel "same.id" "Channel A"; guideChannel "other" "Channel B";
              guideChannel "same.id" "Channel C"; guideChannel "same.id" "Channel D"] in
  let calls := [(0%nat, "A"); (2%nat, "C"); (1%nat, "B"); (3%nat, "D")] in
  idUsageCount (newMatcherState chs) = ∅
  ∧ (∃ s,
       addMatches calls (newMatcherState chs) = Some s
       ∧ length (matchedChannels s) = length calls
       ∧ (∀ k i name ch, calls !! k = Some (i, name) → chs !! i = Some ch →
            let id := originalID ch in
            let n := usesOf id (calledChannels chs (take k calls)) + 1 in
            1 ≤ n
            ∧ matchedChannels s !! k
              = Some (withID (if decide (n = 1) then id else id +:+ "-" +:+ pretty n)
                             (ensureID ch)))
       ∧ (∀ id, idUsageCount s !! id
                = if decide (usesOf id (calledChannels chs calls) = 0) then None
                  else Some (usesOf id (calledChannels chs calls))))
  ∧ (∀ c1 c2 n1 n2, ID c1 = "same.id" → ID c2 = "same.id" →
       ∃ s, addMatches [(0%nat, n1); (1%nat, n2)] (newMatcherState [c1; c2]) = Some s
            ∧ ID <$> matchedChannels s = ["same.id"; "same.id-2"])
  ∧ (∀ range channelNameMap tvgIDMap normalizedNameMap s,
       runMatcher range chs channelNameMap tvgIDMap normalizedNameMap = Some s →
       ∃ calls', Forall (λ call, is_Some (chs !! call.1)) calls'
                 ∧ NoDup calls'.*2
                 ∧ addMatches calls' (newMatcherState chs) = Some s)
  ∧ (let guide := [guideChannel "same.id" "Channel A"; guideChannel "same.id" "Channel B"] in
     let playlist := [playlistEntry "Channel A" ""; playlistEntry "Channel B" ""] in
     ∃ chans idMap,
       matchChannels range_canon guide (buildChannelNameMap playlist)
         (buildTVGIDMap playlist) (buildNormalizedNameMap playlist) = Some (chans, idMap)
       ∧ ID <$> chans = ["same.id"; "same.id-2"]
       ∧ map_to_list idMap = [("same.id-2", "Channel B"); ("same.id", "Channel A")]).
Proof.
  intros chs calls. apply (dedupe_nth_use chs calls).
  repeat constructor; by eexists.
Defined.

(** The run of [TestFilter_DuplicateChannelIDs]. *)
Example dedupe_same_id :
  let guide := [guideChannel "same.id" "Channel A"; guideChannel "same.id" "Channel B"] in
  let playlist := [playlistEntry "Channel A" ""; playlistEntry "Channel B" ""] in
  ∃ chans idMap,
    matchChannels range_canon guide (buildChannelNameMap playlist)
      (buildTVGIDMap playlist) (buildNormalizedNameMap playlist) = Some (chans, idMap)
    ∧ ID <$> chans = ["same.id"; "same.id-2"]
    ∧ map_to_list idMap = [("same.id-2", "Channel B"); ("same.id", "Channel A")].
Proof. vm_compute. eexists _, _. repeat split; reflexivity. Qed.

(** C6: in the normalized-name pass the guide channel chosen for a playlist
    entry is, among the unmatched guide channels with the same normalized
    name, one of maximal region score, and the first such in guide order;
    there is no choice ([-1]) only when there is no candidate.  The score is
    2 for an equal non-empty region, 1 for a guide channel without region,
    0 otherwise.  Of two candidates "UK: Fox" and "US: Fox" the playlist
    entry "USA Fox" (region "us") gets the second.  The display names of
    the guide are ASCII: the normalized names and regions of the statement
    are then those that the code computes, and the search returns. *)
Theorem normalized_pass_best_candidate (s : matcherState) (m3uInfo : m3uNormalizedInfo) :
  asciiGuide (epgChannels s) →
  let r := findBestNormalizedMatch s m3uInfo in
  (((∀ j c, epgChannels s !! j = Some c → ¬ normalizedCandidate s m3uInfo j c) ∧ r = -1)
   ∨ (∃ i ch, epgChannels s !! i = Some ch ∧ normalizedCandidate s m3uInfo i ch
        ∧ r = Z.of_nat i
        ∧ ∀ j c, epgChannels s !! j = Some c → normalizedCandidate s m3uInfo j c →
            regionScore m3uInfo c ≤ regionScore m3uInfo ch
            ∧ ((j < i)%nat → regionScore m3uInfo c < regionScore m3uInfo ch)))
  ∧ (∀ m3uRegion epgRegion,
       (scoreRegionMatch m3uRegion epgRegion = 2 ↔ m3uRegion ≠ "" ∧ epgRegion = m3uRegion)
       ∧ (scoreRegionMatch m3uRegion epgRegion = 1 ↔ epgRegion = "")
       ∧ (scoreRegionMatch m3uRegion epgRegion = 0 ↔ epgRegion ≠ "" ∧ epgRegion ≠ m3uRegion)
       ∧ scoreRegionMatch m3uRegion epgRegion ∈ [0; 1; 2])
  ∧ (let usaFox := {| originalName := "USA Fox";
                      normalizedName := normalizeChannelName "USA Fox";
                      region := extractRegion "USA Fox" |} in
     let uk := guideChannel "fox.uk" "UK: Fox" in
     let us := guideChannel "fox.us" "US: Fox" in
     normalizeChannelName (DisplayName uk) = "fox"
     ∧ normalizeChannelName (DisplayName us) = "fox"
     ∧ extractRegion (DisplayName uk) = "uk"
     ∧ extractRegion (DisplayName us) = "us"
     ∧ region usaFox = "us"
     ∧ findBestNormalizedMatch (newMatcherState [uk; us]) usaFox = 1
     ∧ findBestNormalizedMatch (newMatcherState [us; uk]) usaFox = 0).
Proof.
  intros _. cbn zeta. split; [apply findBestNormalizedMatch_spec|]. split.
  - intros m e.
    destruct (scoreRegionMatch_cases m e) as [(Hm&He&->)|[(He&->)|(He&Hne&->)]].
    + split_and!; [tauto| |split; [lia|tauto]|repeat constructor].
      split; [lia|congruence].
    + split_and!; [|tauto| |repeat constructor].
      * split; [lia|]. intros [? ?]. congruence.
      * split; [lia|tauto].
    + split_and!; [|split; [lia|tauto]|tauto|repeat constructor].
      split; [lia|tauto].
  - vm_compute. repeat split; reflexivity.
Qed.

Lemma normalized_pass_best_candidate_witness :
  let s := newMatcherState [guideChannel "fox.uk" "UK: Fox"; guideChannel "fox.us" "US: Fox";
                            guideChannel "fox" "Fox (HD)"] in
  let m3uInfo := {| originalName := "USA Fox";
                    normalizedName := normalizeChannelName "USA Fox";
                    region := extractRegion "USA Fox" |} in
  let r := findBestNormalizedMatch s m3uInfo in
  (((∀ j c, epgChannels s !! j = Some c → ¬ normalizedCandidate s m3uInfo j c) ∧ r = -1)
   ∨ (∃ i ch, epgChannels s !! i = Some ch ∧ normalizedCandidate s m3uInfo i ch
        ∧ r = Z.of_nat i
        ∧ ∀ j c, epgChannels s !! j = Some c → normalizedCandidate s m3uInfo j c →
            regionScore m3uInfo c ≤ regionScore m3uInfo ch
            ∧ ((j < i)%nat → regionScore m3uInfo c < regionScore m3uInfo ch)))
  ∧ (∀ m3uRegion epgRegion,
       (scoreRegionMatch m3uRegion epgRegion = 2 ↔ m3uRegion ≠ "" ∧ epgRegion = m3uRegion)
       ∧ (scoreRegionMatch m3uRegion epgRegion = 1 ↔ epgRegion = "")
       ∧ (scoreRegionMatch m3uRegion epgRegion = 0 ↔ epgRegion ≠ "" ∧ epgRegion ≠ m3uRegion)
       ∧ scoreRegionMatch m3uRegion epgRegion ∈ [0; 1; 2])
  ∧ (let usaFox := {| originalName := "USA Fox";
                      normalizedName := normalizeChannelName "USA Fox";
                      region := extractRegion "USA Fox" |} in
     let uk := guideChannel "fox.uk" "UK: Fox" in
     let us := guideChannel "fox.us" "US: Fox" in
     normalizeChannelName (DisplayName uk) = "fox"
     ∧ normalizeChannelName (DisplayName us) = "fox"
     ∧ extractRegion (DisplayName uk) = "uk"
     ∧ extractRegion (DisplayName us) = "us"
     ∧ region usaFox = "us"
     ∧ findBestNormalizedMatch (newMatcherState [uk; us]) usaFox = 1
     ∧ findBestNormalizedMatch (newMatcherState [us; uk]) usaFox = 0).
Proof.
  intros s m3uInfo. apply (normalized_pass_best_candidate s m3uInfo).
  repeat constructor.
Defined.

(** ** The identifier→name map of a run *)

(** Every playlist name is the value of at most one identifier, every key
    is the identifier of a returned channel, and no more entries than
    channels are returned. *)
Lemma matchChannels_map range chs channelNameMap tvgIDMap normalizedNameMap :
  ∃ chans idMap,
    matchChannels range chs channelNameMap tvgIDMap normalizedNameMap = Some (chans, idMap)
    ∧ (∀ id1 id2 name, idMap !! id1 = Some name → idMap !! id2 = Some name → id1 = id2)
    ∧ (∀ id, is_Some (idMap !! id) → ∃ ch, ch ∈ chans ∧ ID ch = id).
Proof.
  unfold matchChannels.
  destruct (runMatcher_run range chs channelNameMap tvgIDMap normalizedNameMap)
    as (s & matches & -> & Hrun).
  pose proof (matcherRun_inv _ _ _ Hrun) as Hinv.
  exists (matchedChannels s), (channelIDMap s). split; [done|]. split.
  - apply (inv_map_inj _ _ _ Hinv).
  - apply (inv_map_key _ _ _ Hinv).
Qed.

(** C2 (the code at the failing input): a guide that holds the identifier
    "a" twice and also the identifier "a-2".  The second "a" is finalized
    as "a-2", the third channel keeps its own "a-2": the returned channel
    list holds "a-2" twice, and the later entry replaces the earlier one in
    the map, so that the playlist name "Y" is no value of the map. *)
Theorem matchChannels_duplicate_identifier :
  let guide := [guideChannel "a" "X"; guideChannel "a" "Y"; guideChannel "a-2" "Z"] in
  let playlist := [playlistEntry "X" ""; playlistEntry "Y" ""; playlistEntry "Z" ""] in
  ∃ chans idMap,
    matchChannels range_canon guide (buildChannelNameMap playlist)
      (buildTVGIDMap playlist) (buildNormalizedNameMap playlist) = Some (chans, idMap)
    ∧ chans = [guideChannel "a" "X"; guideChannel "a-2" "Y"; guideChannel "a-2" "Z"]
    ∧ ¬ NoDup (ID <$> chans)
    ∧ map_to_list idMap = [("a-2", "Z"); ("a", "X")].
Proof.
  vm_compute. eexists _, _. split; [reflexivity|]. split; [reflexivity|].
  split; [|reflexivity].
  intros Hnd. apply NoDup_cons in Hnd as [_ Hnd]. apply NoDup_cons in Hnd as [Hin _].
  apply Hin. left.
Qed.

Lemma matchByNormalizedName_all_matched order s :
  Forall (λ e : string * m3uNormalizedInfo, originalName e.2 ∈ matchedM3U s) order →
  matchByNormalizedName order s = Some s.
Proof.
  unfold matchByNormalizedName.
  induction 1 as [|[k info] order Hk _ IH]; simpl; [done|].
  simpl in Hk. by rewrite decide_True.
Qed.

(** When no playlist entry has a guide-id hint and the exact display-name
    pass pairs every name of the normalized map, the result of the matcher
    is the same under every iteration order. *)
Lemma runMatcher_order_free range chs channelNameMap normalizedNameMap s :
  range_ok range →
  matchByDisplayName channelNameMap (newMatcherState chs) = Some s →
  map_Forall (λ _ info, originalName info ∈ matchedM3U s) normalizedNameMap →
  runMatcher range chs channelNameMap ∅ normalizedNameMap = Some s.
Proof.
  intros Hr Hd Hall. unfold runMatcher.
  pose proof (Hr 1%nat _ (∅ : gmap string string)) as H1.
  rewrite map_to_list_empty in H1. apply Permutation_nil_r in H1. rewrite H1.
  simpl. rewrite Hd. simpl.
  apply matchByNormalizedName_all_matched.
  rewrite (Hr 2%nat _ normalizedNameMap).
  apply Forall_forall. intros [k info] Hin%elem_of_map_to_list. by apply (Hall k).
Qed.

(** The failing input of C2 under every iteration order. *)
Lemma matchChannels_duplicate_identifier_any_order range :
  range_ok range →
  let guide := [guideChannel "a" "X"; guideChannel "a" "Y"; guideChannel "a-2" "Z"] in
  let playlist := [playlistEntry "X" ""; playlistEntry "Y" ""; playlistEntry "Z" ""] in
  ∃ idMap,
    matchChannels range guide (buildChannelNameMap playlist)
      (buildTVGIDMap playlist) (buildNormalizedNameMap playlist)
    = Some ([guideChannel "a" "X"; guideChannel "a-2" "Y"; guideChannel "a-2" "Z"], idMap)
    ∧ map_to_list idMap = [("a-2", "Z"); ("a", "X")].
Proof.
  intros Hr. cbn zeta. unfold matchChannels.
  set (guide := [guideChannel "a" "X"; guideChannel "a" "Y"; guideChannel "a-2" "Z"]).
  set (playlist := [playlistEntry "X" ""; playlistEntry "Y" ""; playlistEntry "Z" ""]).
  destruct (matchByDisplayName (buildChannelNameMap playlist) (newMatcherState guide))
    as [s|] eqn:Hs; [|by vm_compute in Hs].
  assert (buildTVGIDMap playlist = ∅) as -> by (by vm_compute).
  rewrite (runMatcher_order_free range guide _ _ s Hr Hs).
  - simpl. exists (channelIDMap s). vm_compute in Hs. injection Hs as <-.
    split; [reflexivity|]. by vm_compute.
  - apply map_Forall_to_list. vm_compute in Hs. injection Hs as <-.
    assert (map_to_list (buildNormalizedNameMap playlist)
            = [("y", {| originalName := "Y"; normalizedName := "y"; region := "" |});
               ("z", {| originalName := "Z"; normalizedName := "z"; region := "" |});
               ("x", {| originalName := "X"; normalizedName := "x"; region := "" |})]) as ->.
    { by vm_compute. }
    repeat constructor; simpl; set_solver.
Qed.

(** ** Entries with a guide-id hint and the later passes *)

(** Closed decidable facts are settled by evaluation. *)
Ltac by_compute := apply (bool_decide_unpack _); vm_compute; exact I.

Lemma namesWithTVGID_elem (l : list m3u.Channel) (acc : gset string) c :
  m3u.TVGID c ≠ "" → m3u.Name c ≠ "" → m3u.Name c ∈ acc ∨ c ∈ l →
  m3u.Name c ∈
    foldl (λ acc channel,
             if decide (m3u.TVGID channel ≠ "" ∧ m3u.Name channel ≠ "")
             then {[m3u.Name channel]} ∪ acc else acc) acc l.
Proof.
  intros Hid Hname. revert acc. induction l as [|x l IH]; intros acc Hc; simpl.
  - destruct Hc as [?|Hc]; [done|by inversion Hc].
  - apply IH. destruct Hc as [?|[->|?]%elem_of_cons].
    + left. destruct (decide _); [|done]. apply elem_of_union. by right.
    + left. rewrite decide_True by done. apply elem_of_union. left.
      by apply elem_of_singleton.
    + by right.
Qed.

(** No entry of the normalized-name map stands for a playlist name that
    some entry carries together with a guide-id hint. *)
Lemma buildNormalizedNameMap_hintless m3uChannels key info c :
  buildNormalizedNameMap m3uChannels !! key = Some info →
  c ∈ m3uChannels → m3u.TVGID c ≠ "" →
  originalName info ≠ m3u.Name c.
Proof.
  unfold buildNormalizedNameMap. cbn zeta.
  set (names := namesWithTVGID m3uChannels).
  intros Hlook Hc Hid.
  assert (originalName info ≠ "" ∧ originalName info ∉ names) as [Hne Hnot].
  { revert key info Hlook.
    apply (foldl_inv (λ m : gmap string m3uNormalizedInfo, ∀ key info,
             m !! key = Some info → originalName info ≠ "" ∧ originalName info ∉ names)).
    - intros key info. by rewrite lookup_empty.
    - intros m x _ IH key info.
      repeat case_decide; try apply IH.
      destruct (m !! normalizeChannelName (m3u.Name x)); [apply IH|].
      rewrite lookup_insert. case_decide; [|apply IH].
      by intros [= <-]. }
  destruct (decide (m3u.Name c = "")) as [Hempty|Hname]; [congruence|].
  intros Heq. apply Hnot. rewrite Heq.
  apply namesWithTVGID_elem; [done|done|by right].
Qed.

Lemma matchByNormalizedName_other_names order s s' name :
  Forall (λ e : string * m3uNormalizedInfo, originalName e.2 ≠ name) order →
  matchByNormalizedName order s = Some s' →
  (name ∈ matchedM3U s' → name ∈ matchedM3U s)
  ∧ (∀ id, channelIDMap s' !! id = Some name → channelIDMap s !! id = Some name).
Proof.
  intros Hall Hrun. unfold matchByNormalizedName in Hrun.
  apply (forEach_Some_inv
           (λ t, (name ∈ matchedM3U t → name ∈ matchedM3U s)
                 ∧ (∀ id, channelIDMap t !! id = Some name → channelIDMap s !! id = Some name))
           _ _ _ _ Hrun); [done|].
  intros [k info] t t' Hin Hbody [HM Hmap].
  rewrite Forall_forall in Hall. specialize (Hall _ Hin). simpl in Hall.
  destruct (decide (originalName info ∈ matchedM3U t)); [by simplify_eq|].
  cbn zeta in Hbody. destruct (0 <=? findBestNormalizedMatch t info); [|by simplify_eq].
  unfold addMatch in Hbody. destruct (epgChannels t !! _) as [ch|]; [|done].
  simpl in Hbody. injection Hbody as <-. simpl. split.
  - intros [?%elem_of_singleton|?]%elem_of_union; [congruence|by apply HM].
  - intros id. rewrite lookup_insert. case_decide; [congruence|apply Hmap].
Qed.

(** ** The exact display-name pass *)

Lemma forEach_middle {A S : Type} (l1 l2 : list A) (x : A)
    (body : A → S → option S) (s s' : S) :
  forEach (l1 ++ x :: l2) body s = Some s' →
  ∃ t1 t2, forEach l1 body s = Some t1 ∧ body x t1 = Some t2
           ∧ forEach l2 body t2 = Some s'.
Proof.
  rewrite forEach_app. destruct (forEach l1 body s) as [t1|]; simpl; [|done].
  destruct (body x t1) as [t2|] eqn:E; simpl; [|done]. intros H. by exists t1, t2.
Qed.

Lemma addMatch_Some_sets i name s s' :
  addMatch i name s = Some s' →
  matchedM3U s' = {[name]} ∪ matchedM3U s ∧ matchedEPG s' = {[i]} ∪ matchedEPG s.
Proof.
  unfold addMatch. destruct (epgChannels s !! i) as [ch|]; simpl; [|done].
  by intros [= <-].
Qed.

(** The exact display-name pass pairs every playlist name, hinted or not,
    that is still unmatched when the pass meets an unmatched guide channel
    of exactly that display name. *)
Lemma matchByDisplayName_claims channelNameMap s s' i ch :
  matchByDisplayName channelNameMap s = Some s' →
  epgChannels s !! i = Some ch → i ∉ matchedEPG s →
  DisplayName ch ∈ channelNameMap →
  DisplayName ch ∈ matchedM3U s'.
Proof.
  unfold matchByDisplayName. intros Hrun Hi HE Hn.
  set (n := DisplayName ch) in *.
  set (body := λ '(i, epgChannel) s, _) in Hrun.
  assert (∀ x t t', body x t = Some t' →
            (n ∈ matchedM3U t → n ∈ matchedM3U t')
            ∧ (x.1 ≠ i → i ∉ matchedEPG t → i ∉ matchedEPG t')) as Hbody.
  { intros [j c] t t' Hb. subst body. simpl in Hb.
    destruct (decide (j ∈ matchedEPG t)); [by simplify_eq|].
    destruct (decide (_ ∨ _)); [by simplify_eq|].
    apply addMatch_Some_sets in Hb as [-> ->]. simpl. split.
    - intros ?. apply elem_of_union. by right.
    - intros Hj Hni [Heq%elem_of_singleton|?]%elem_of_union; [congruence|done]. }
  rewrite <- (take_drop_middle _ _ _ Hi) in Hrun. unfold indexed in Hrun.
  rewrite imap_app in Hrun. cbn [imap] in Hrun.
  assert (length (take i (epgChannels s)) = i) as Hlen.
  { apply length_take_le. apply lookup_lt_Some in Hi. lia. }
  rewrite Hlen, Nat.add_0_r in Hrun.
  apply forEach_middle in Hrun as (t1 & t2 & E1 & E2 & Hrun).
  assert (n ∈ matchedM3U t1 ∨ i ∉ matchedEPG t1) as H1.
  { apply (forEach_Some_inv (λ t, n ∈ matchedM3U t ∨ i ∉ matchedEPG t) _ _ _ _ E1);
      [by right|].
    intros [j c] t t' Hin%indexed_lookup Hb [Hm|Hm].
    - left. by apply (Hbody _ _ _ Hb).
    - right. apply (Hbody _ _ _ Hb); [|done]. simpl.
      apply lookup_lt_Some in Hin. rewrite Hlen in Hin. lia. }
  assert (n ∈ matchedM3U t2) as H2.
  { destruct H1 as [Hm|Hm]; [by apply (Hbody _ _ _ E2)|].
    subst body. simpl in E2. rewrite decide_False in E2 by done.
    destruct (decide (_ ∨ _)) as [[Hc|Hc]|Hc]; [done|by simplify_eq|].
    apply addMatch_Some_sets in E2 as [-> _]. apply elem_of_union. left.
    by apply elem_of_singleton. }
  apply (forEach_Some_inv (λ t, n ∈ matchedM3U t) _ _ _ _ Hrun); [done|].
  intros x t t' _ Hb Hm. by apply (Hbody _ _ _ Hb).
Qed.

Lemma buildChannelNameMap_elem m3uChannels c :
  c ∈ m3uChannels → m3u.Name c ≠ "" → m3u.Name c ∈ buildChannelNameMap m3uChannels.
Proof.
  intros Hc Hn. unfold buildChannelNameMap.
  induction m3uChannels as [|x l IH] using rev_ind; [by inversion Hc|].
  rewrite foldl_app. cbn [foldl].
  apply elem_of_app in Hc as [Hc|Hc%list_elem_of_singleton].
  - destruct (decide _); [apply elem_of_union; right|]; by apply IH.
  - subst x. rewrite decide_True by done. apply elem_of_union. left.
    by apply elem_of_singleton.
Qed.

(** C1 (as stated): the playlist entry "ESPN" carries the guide-id hint
    "nope", which no guide channel has, so the identifier pass leaves it
    unmatched; the exact display-name pass then pairs it with the guide
    channel "espn.us" of the same display name. *)
Lemma hinted_entry_matched_by_display_name :
  let guide := [guideChannel "espn.us" "ESPN"] in
  let playlist := [playlistEntry "ESPN" "nope"] in
  let s0 := newMatcherState guide in
  epgIDToCandidates s0 !! "nope" = None
  ∧ ∃ s1 s2,
      matchByTVGID (range_canon 1%nat _ (buildTVGIDMap playlist)) s0 = Some s1
      ∧ ("ESPN" ∉ matchedM3U s1)
      ∧ matchByDisplayName (buildChannelNameMap playlist) s1 = Some s2
      ∧ "ESPN" ∈ matchedM3U s2
      ∧ channelIDMap s2 !! "espn.us" = Some "ESPN"
      ∧ runMatcher range_canon guide (buildChannelNameMap playlist)
          (buildTVGIDMap playlist) (buildNormalizedNameMap playlist) = Some s2.
Proof.
  cbn zeta. split; [by vm_compute|].
  eexists _, _. split; [by vm_compute|]. split; [by_compute|].
  split; [by vm_compute|]. split; [by_compute|]. split; by vm_compute.
Qed.

(** C1 (amended): a playlist entry that carries a non-empty guide-id hint is
    never claimed by the normalized-name pass, whether or not its hint
    resolved in the identifier pass: whenever that pass returns, it has
    neither marked the name of the entry as matched nor mapped an
    identifier to it.  The exact display-name pass does not set hinted
    entries aside: when the identifier pass leaves a guide channel unmatched
    whose display name is the (non-empty) name of the entry, the name is
    matched once the display-name pass is over.  The first two passes
    return on every input, the third one on ASCII names. *)
Theorem hinted_entry_later_passes (range : RangeOracle)
    (chs : list Channel) (m3uChannels : list m3u.Channel) (c : m3u.Channel) :
  range_ok range → c ∈ m3uChannels → m3u.TVGID c ≠ "" →
  ∃ s1 s2,
    matchByTVGID (range 1%nat _ (buildTVGIDMap m3uChannels)) (newMatcherState chs) = Some s1
    ∧ matchByDisplayName (buildChannelNameMap m3uChannels) s1 = Some s2
    ∧ (∀ i ch, chs !! i = Some ch → i ∉ matchedEPG s1 →
               DisplayName ch = m3u.Name c → m3u.Name c ≠ "" →
               m3u.Name c ∈ matchedM3U s2)
    ∧ (∀ s3,
         matchByNormalizedName (range 2%nat _ (buildNormalizedNameMap m3uChannels)) s2
         = Some s3 →
         runMatcher range chs (buildChannelNameMap m3uChannels)
           (buildTVGIDMap m3uChannels) (buildNormalizedNameMap m3uChannels) = Some s3
         ∧ (m3u.Name c ∈ matchedM3U s3 → m3u.Name c ∈ matchedM3U s2)
         ∧ (∀ id, channelIDMap s3 !! id = Some (m3u.Name c) →
                  channelIDMap s2 !! id = Some (m3u.Name c)))
    ∧ (asciiGuide chs → asciiPlaylist m3uChannels →
       ∃ s3, matchByNormalizedName (range 2%nat _ (buildNormalizedNameMap m3uChannels)) s2
             = Some s3).
Proof.
  intros Hr Hc Hid.
  destruct (matchByTVGID_runFrom chs [] (range 1%nat _ (buildTVGIDMap m3uChannels))
              (newMatcherState chs)) as (s1 & H1 & R1); [apply runFrom_refl; constructor|].
  destruct (matchByDisplayName_runFrom chs [] (buildChannelNameMap m3uChannels) s1 R1)
    as (s2 & H2 & R2).
  assert (Forall (λ e : string * m3uNormalizedInfo, originalName e.2 ≠ m3u.Name c)
            (range 2%nat _ (buildNormalizedNameMap m3uChannels))) as Hother.
  { apply Forall_forall. intros [k info] Hin%(range_elem_of range); [|done].
    simpl. by eapply buildNormalizedNameMap_hintless. }
  exists s1, s2. split_and!; try done.
  - intros i ch Hi HE Hd Hn. rewrite <- Hd.
    destruct R1 as [new R1].
    eapply matchByDisplayName_claims; [done| |done|].
    + by rewrite (inv_epgChannels _ _ _ (matcherRun_inv _ _ _ R1)).
    + rewrite Hd. by apply buildChannelNameMap_elem.
  - intros s3 H3. split_and!.
    + unfold runMatcher. rewrite H1. simpl. rewrite H2. simpl. done.
    + by eapply matchByNormalizedName_other_names.
    + by eapply matchByNormalizedName_other_names.
  - intros _ _.
    destruct (matchByNormalizedName_runFrom chs []
                (range 2%nat _ (buildNormalizedNameMap m3uChannels)) s2 R2)
      as (s3 & H3 & _).
    by exists s3.
Qed.

Lemma hinted_entry_later_passes_witness :
  let playlist := [playlistEntry "US: ESPN" "espn.us"; playlistEntry "USA  ESPN" ""] in
  let guide := [guideChannel "" "ESPN"; guideChannel "espn" "US: ESPN"] in
  ∃ s1 s2,
    matchByTVGID (range_canon 1%nat _ (buildTVGIDMap playlist)) (newMatcherState guide) = Some s1
    ∧ matchByDisplayName (buildChannelNameMap playlist) s1 = Some s2
    ∧ (∀ i ch, guide !! i = Some ch → i ∉ matchedEPG s1 →
               DisplayName ch = "US: ESPN" → "US: ESPN" ≠ "" →
               "US: ESPN" ∈ matchedM3U s2)
    ∧ (∀ s3,
         matchByNormalizedName (range_canon 2%nat _ (buildNormalizedNameMap playlist)) s2
         = Some s3 →
         runMatcher range_canon guide (buildChannelNameMap playlist)
           (buildTVGIDMap playlist) (buildNormalizedNameMap playlist) = Some s3
         ∧ ("US: ESPN" ∈ matchedM3U s3 → "US: ESPN" ∈ matchedM3U s2)
         ∧ (∀ id, channelIDMap s3 !! id = Some "US: ESPN" →
                  channelIDMap s2 !! id = Some "US: ESPN"))
    ∧ (asciiGuide guide → asciiPlaylist playlist →
       ∃ s3, matchByNormalizedName (range_canon 2%nat _ (buildNormalizedNameMap playlist)) s2
             = Some s3).
Proof.
  apply (hinted_entry_later_passes range_canon
           [guideChannel "" "ESPN"; guideChannel "espn" "US: ESPN"]
           [playlistEntry "US: ESPN" "espn.us"; playlistEntry "USA  ESPN" ""]
           (playlistEntry "US: ESPN" "espn.us")).
  - exact range_canon_ok.
  - left.
  - simpl. discriminate.
Defined.

(** ** Synthesized channels *)

Lemma leBytes_length n x : length (MD5.leBytes n x) = n.
Proof. revert x. induction n as [|n IH]; intros x; simpl; [done|]. by rewrite IH. Qed.

Lemma MD5_Sum_length s : length (MD5.Sum s) = 16%nat.
Proof.
  unfold MD5.Sum. destruct (foldl MD5.block _ _) as [[[a b] c] d].
  by rewrite !length_app, !leBytes_length.
Qed.

Lemma hexBytes_length bs : String.length (hexBytes bs) = (2 * length bs)%nat.
Proof. induction bs as [|b bs IH]; simpl; [done|]. rewrite IH. lia. Qed.

Lemma hexDigit_lower_hex n : isLowerHex (hexDigit n) = true.
Proof.
  destruct n as [|p|p]; try done.
  do 4 (try destruct p as [p|p|]; try done).
Qed.

Lemma hexBytes_lower_hex bs : allBytes isLowerHex (hexBytes bs) = true.
Proof.
  induction bs as [|b bs IH]; [done|]. cbn [hexBytes allBytes].
  by rewrite !hexDigit_lower_hex, IH.
Qed.

(** The identifier made from a display name has 32 lower-case hexadecimal
    digits. *)
Lemma generateChannelID_shape name :
  String.length (generateChannelID name) = 32%nat
  ∧ allBytes isLowerHex (generateChannelID name) = true.
Proof.
  unfold generateChannelID. split; [|apply hexBytes_lower_hex].
  by rewrite hexBytes_length, MD5_Sum_length.
Qed.

Lemma foldl_values_elem (order : list (string * string)) (acc : gset string) name :
  name ∈ foldl (λ acc '(_, m3uName), {[m3uName]} ∪ acc) acc order
  ↔ name ∈ acc ∨ name ∈ order.*2.
Proof.
  revert acc. induction order as [|[k v] order IH]; intros acc; simpl.
  - split; [by left|]. intros [?|H]; [done|by inversion H].
  - rewrite IH, elem_of_union, elem_of_singleton, elem_of_cons. tauto.
Qed.


Lemma foldl_fake_channels (names : gset string) (idMap : gmap string string)
    (l : list m3u.Channel) :
  (∀ c, m3u.Name c ∈ names ↔ m3u.Name c ∈ (map_img idMap : gset string)) →
  foldl (λ fakeChannels m3uChannel,
           if decide (m3u.Name m3uChannel ∈ names) then fakeChannels
           else if decide (m3u.Name m3uChannel = "") then fakeChannels
           else
             let channelID := generateChannelID (m3u.Name m3uChannel) in
             fakeChannels ++
               [{| ID := channelID;
                   DisplayName := m3u.Name m3uChannel;
                   ChIcon := {| Src := m3u.TVGLogo m3uChannel |} |}])
        [] l
  = synthesizedChannel <$>
      filter (λ c, (m3u.Name c ∉ (map_img idMap : gset string)) ∧ m3u.Name c ≠ "") l.
Proof.
  intros Hnames. induction l as [|c l IH] using rev_ind; [done|].
  rewrite foldl_app, filter_app, fmap_app, <- IH. simpl.
  rewrite filter_cons, filter_nil.
  destruct (decide (m3u.Name c ∈ names)) as [Hin|Hin].
  - rewrite decide_False; [by rewrite app_nil_r|].
    intros [Hno _]. by apply Hno, Hnames.
  - destruct (decide (m3u.Name c = "")) as [He|He].
    + rewrite decide_False; [by rewrite app_nil_r|]. tauto.
    + rewrite decide_True; [done|]. split; [|done].
      intros Himg. by apply Hin, Hnames.
Qed.

(** [generateFakeEPGData] keeps, in playlist order, the entries with a
    non-empty name that is no value of the map. *)
Lemma generateFakeEPGData_spec range site (idMap : gmap string string) m3uChannels :
  range_ok range →
  generateFakeEPGData (range site _ idMap) m3uChannels
  = synthesizedChannel <$>
      filter (λ c, (m3u.Name c ∉ (map_img idMap : gset string)) ∧ m3u.Name c ≠ "")
             m3uChannels.
Proof.
  intros Hr. unfold generateFakeEPGData. cbn zeta.
  set (names := foldl _ ∅ (range site _ idMap)).
  assert (∀ name, name ∈ names ↔ ∃ id, idMap !! id = Some name) as Hnames.
  { intros name. subst names. rewrite foldl_values_elem, list_elem_of_fmap. split.
    - intros [?|([id n] & -> & Hin)]; [set_solver|].
      exists id. by apply (range_elem_of range site idMap id n Hr).
    - intros [id Hid]. right. exists (id, name). split; [done|].
      by apply (range_elem_of range site idMap id name Hr). }
  apply (foldl_fake_channels names). intros c. rewrite Hnames, elem_of_map_img. done.
Qed.

(** C9: when the matcher has returned its channels and its identifier→name
    map, [Filter] returns them followed by the synthesized channels: for
    every playlist entry with a non-empty display name that is no value of
    the map there is a synthesized channel whose identifier is
    [generateChannelID] of the display name alone, whose display name is
    the playlist name and whose icon is the playlist logo; all synthesized
    channels arise so, and none has an empty display name.
    [generateChannelID] gives 32 lower-case hexadecimal digits, and they
    are those of the MD5 digest: on the test suite of RFC 1321 and on the
    names "ESPN" and "HBO" it returns the known digests. *)
Theorem filter_synthesizes_unmatched (range : RangeOracle) (epgData : TV)
    (m3uChannels : list m3u.Channel) (chans : list Channel)
    (idMap : gmap string string) :
  range_ok range →
  matchChannels range (Channels epgData) (buildChannelNameMap m3uChannels)
    (buildTVGIDMap m3uChannels) (buildNormalizedNameMap m3uChannels) = Some (chans, idMap) →
  ∃ tv finalMap fake,
    Filter range epgData m3uChannels = Some (tv, finalMap)
    ∧ Channels tv = chans ++ fake
    ∧ (∀ c, c ∈ m3uChannels → m3u.Name c ≠ "" →
            (∀ id, idMap !! id ≠ Some (m3u.Name c)) →
            ∃ ch, ch ∈ fake
                  ∧ ID ch = generateChannelID (m3u.Name c)
                  ∧ DisplayName ch = m3u.Name c
                  ∧ Src (ChIcon ch) = m3u.TVGLogo c)
    ∧ (∀ ch, ch ∈ fake →
             DisplayName ch ≠ ""
             ∧ ∃ c, c ∈ m3uChannels
                    ∧ ID ch = generateChannelID (m3u.Name c)
                    ∧ DisplayName ch = m3u.Name c
                    ∧ Src (ChIcon ch) = m3u.TVGLogo c
                    ∧ ∀ id, idMap !! id ≠ Some (m3u.Name c))
    ∧ (∀ name, String.length (generateChannelID name) = 32%nat
               ∧ allBytes isLowerHex (generateChannelID name) = true)
    ∧ map generateChannelID
        [""; "a"; "abc"; "message digest"; "abcdefghijklmnopqrstuvwxyz";
         "ABCDEFGHIJKLMNOPQRSTUVWXYZabcdefghijklmnopqrstuvwxyz0123456789";
         "12345678901234567890123456789012345678901234567890123456789012345678901234567890";
         "ESPN"; "HBO"]
      = ["d41d8cd98f00b204e9800998ecf8427e"; "0cc175b9c0f1b6a831c399e269772661";
         "900150983cd24fb0d6963f7d28e17f72"; "f96b697d7cb7938d525a2f31aaf161d0";
         "c3fcd3d76192e4007dfb496cca67e13b"; "d174ab98d277d9f5a5611c2c9f419d9f";
         "57edf4a22be3c955ac49da2e2107b67a";
         "7b0ef842a6a1233a8a86a8533063a1a1"; "509e5f41146e278f9eab1ddaceb34515"].
Proof.
  intros Hr Hm.
  unfold Filter. cbn zeta. rewrite Hm. simpl.
  destruct (foldl (filterProgramTracking _ _ _) _ _) as [filteredPrograms channelsWithPrograms].
  eexists _, _, (generateFakeEPGData (range 4%nat _ idMap) m3uChannels).
  split; [done|]. split; [done|].
  rewrite (generateFakeEPGData_spec range 4%nat idMap m3uChannels Hr).
  split_and!.
  - intros c Hc Hname Hno. exists (synthesizedChannel c). split; [|done].
    apply list_elem_of_fmap. exists c. split; [done|]. apply list_elem_of_filter.
    split; [|done]. split; [|done]. intros [id Hid]%elem_of_map_img. by apply (Hno id).
  - intros ch (c & -> & [[Hno Hname] Hc]%list_elem_of_filter)%list_elem_of_fmap.
    split; [done|]. exists c. split_and!; try done.
    intros id Hid. apply Hno, elem_of_map_img. by exists id.
  - apply generateChannelID_shape.
  - vm_compute. reflexivity.
Qed.

Lemma filter_synthesizes_unmatched_witness :
  let epgData := {| Channels := [guideChannel "espn.us" "ESPN"]; Programs := [] |} in
  let m3uChannels := [playlistEntry "ESPN" ""; playlistEntry "HBO" ""] in
  let chans := [guideChannel "espn.us" "ESPN"] in
  let idMap : gmap string string := <["espn.us" := "ESPN"]> ∅ in
  ∃ tv finalMap fake,
    Filter range_canon epgData m3uChannels = Some (tv, finalMap)
    ∧ Channels tv = chans ++ fake
    ∧ (∀ c, c ∈ m3uChannels → m3u.Name c ≠ "" →
            (∀ id, idMap !! id ≠ Some (m3u.Name c)) →
            ∃ ch, ch ∈ fake
                  ∧ ID ch = generateChannelID (m3u.Name c)
                  ∧ DisplayName ch = m3u.Name c
                  ∧ Src (ChIcon ch) = m3u.TVGLogo c)
    ∧ (∀ ch, ch ∈ fake →
             DisplayName ch ≠ ""
             ∧ ∃ c, c ∈ m3uChannels
                    ∧ ID ch = generateChannelID (m3u.Name c)
                    ∧ DisplayName ch = m3u.Name c
                    ∧ Src (ChIcon ch) = m3u.TVGLogo c
                    ∧ ∀ id, idMap !! id ≠ Some (m3u.Name c))
    ∧ (∀ name, String.length (generateChannelID name) = 32%nat
               ∧ allBytes isLowerHex (generateChannelID name) = true)
    ∧ map generateChannelID
        [""; "a"; "abc"; "message digest"; "abcdefghijklmnopqrstuvwxyz";
         "ABCDEFGHIJKLMNOPQRSTUVWXYZabcdefghijklmnopqrstuvwxyz0123456789";
         "12345678901234567890123456789012345678901234567890123456789012345678901234567890";
         "ESPN"; "HBO"]
      = ["d41d8cd98f00b204e9800998ecf8427e"; "0cc175b9c0f1b6a831c399e269772661";
         "900150983cd24fb0d6963f7d28e17f72"; "f96b697d7cb7938d525a2f31aaf161d0";
         "c3fcd3d76192e4007dfb496cca67e13b"; "d174ab98d277d9f5a5611c2c9f419d9f";
         "57edf4a22be3c955ac49da2e2107b67a";
         "7b0ef842a6a1233a8a86a8533063a1a1"; "509e5f41146e278f9eab1ddaceb34515"].
Proof.
  intros epgData m3uChannels chans idMap.
  apply (filter_synthesizes_unmatched range_canon epgData m3uChannels chans idMap).
  - exact range_canon_ok.
  - vm_compute. reflexivity.
Defined.

(** The run of [TestFilter_GenerateFakeChannels] with one matched entry. *)
Example filter_synthesizes_hbo :
  ∃ tv finalMap,
    Filter range_canon {| Channels := [guideChannel "espn.us" "ESPN"]; Programs := [] |}
      [playlistEntry "ESPN" ""; playlistEntry "HBO" ""; playlistEntry "" ""]
    = Some (tv, finalMap)
    ∧ Channels tv = [guideChannel "espn.us" "ESPN";
                     guideChannel "509e5f41146e278f9eab1ddaceb34515" "HBO"].
Proof. vm_compute. eexists _, _. split; reflexivity. Qed.

(** ** Programs duplicated under suffixed identifiers *)

Lemma Index_ge s sub : -1 ≤ Index s sub.
Proof.
  induction s as [|c r IH]; cbn [Index]; destruct (HasPrefix _ sub); try lia.
  cbn zeta. destruct (Index r sub <? 0) eqn:E; [lia|]. apply Z.ltb_ge in E. lia.
Qed.

Lemma LastIndex_ge s sub : -1 ≤ LastIndex s sub.
Proof.
  induction s as [|c r IH]; cbn [LastIndex].
  - destruct (HasPrefix _ sub); lia.
  - cbn zeta. destruct (0 <=? LastIndex r sub) eqn:E.
    + apply Z.leb_le in E. lia.
    + destruct (HasPrefix _ sub); lia.
Qed.

Lemma LastIndex_absent s sub : Contains s sub = false → LastIndex s sub = -1.
Proof.
  unfold Contains. induction s as [|c r IH]; cbn [Index LastIndex].
  - by destruct (HasPrefix "" sub).
  - destruct (HasPrefix (String c r) sub); [done|]. cbn zeta.
    pose proof (Index_ge r sub) as Hge.
    destruct (Index r sub <? 0) eqn:E.
    + apply Z.ltb_lt in E. intros _. rewrite IH; [done|]. apply Z.leb_gt. lia.
    + apply Z.ltb_ge in E. intros Hc%Z.leb_gt. lia.
Qed.

Lemma LastIndex_app base t sub :
  0 ≤ LastIndex t sub → LastIndex (base +:+ t) sub = len base + LastIndex t sub.
Proof.
  intros Ht. unfold len. induction base as [|c base IH]; [rewrite app_nil; simpl; lia|].
  rewrite app_cons. cbn [LastIndex String.length]. cbn zeta. rewrite IH.
  rewrite (proj2 (Z.leb_le _ _)) by lia. lia.
Qed.

Lemma takeBytes_app s t : takeBytes (String.length s) (s +:+ t) = s.
Proof. induction s as [|c s IH]; [by destruct t|]. rewrite app_cons. simpl. by rewrite IH. Qed.

Lemma dropBytes_app s t : dropBytes (String.length s) (s +:+ t) = t.
Proof. induction s as [|c s IH]; [done|]. rewrite app_cons. simpl. by rewrite IH. Qed.

(** A key [base-suffix] whose suffix holds no further dash splits at its
    last dash into [base] and [suffix]. *)
Lemma suffixed_key_split base suffix :
  Contains suffix "-" = false →
  let key := base +:+ "-" +:+ suffix in
  LastIndex key "-" = len base
  ∧ sliceTo key (LastIndex key "-") = base
  ∧ sliceFrom key (LastIndex key "-" + 1) = suffix.
Proof.
  intros Hs. cbn zeta.
  assert (LastIndex ("-" +:+ suffix) "-" = 0) as H0.
  { rewrite app_cons, app_nil. cbn [LastIndex]. cbn zeta.
    by rewrite (LastIndex_absent _ _ Hs). }
  assert (LastIndex (base +:+ "-" +:+ suffix) "-" = len base) as ->.
  { rewrite LastIndex_app; rewrite H0; lia. }
  unfold sliceTo, sliceFrom, len. split; [done|].
  rewrite Z2Nat.inj_add, !Nat2Z.id by lia. split.
  - apply takeBytes_app.
  - rewrite <- dropBytes_dropBytes, dropBytes_app. done.
Qed.

(** The lists of [buildOriginalIDMap] only grow while the loop runs. *)
Lemma buildOriginalIDMap_elem order key v base suffix :
  (key, v) ∈ order →
  key = base +:+ "-" +:+ suffix → base ≠ "" →
  isNumericSuffix suffix = true → Contains suffix "-" = false →
  ∃ l, buildOriginalIDMap order !! base = Some l ∧ key ∈ l.
Proof.
  intros Hin Hkey Hbase Hnum Hdash. unfold buildOriginalIDMap.
  destruct (suffixed_key_split base suffix Hdash) as (Hidx & Hto & Hfrom).
  rewrite <- Hkey in Hidx, Hto, Hfrom.
  assert (0 < len base) as Hpos.
  { unfold len. destruct base; [done|]. simpl. lia. }
  induction order as [|[k w] order IH] using rev_ind; [by inversion Hin|].
  rewrite foldl_app. simpl.
  set (m := foldl _ ∅ order) in *.
  assert ((∃ l, m !! base = Some l ∧ key ∈ l) →
          ∃ l, (if 0 <? LastIndex k "-"
                then if isNumericSuffix (sliceFrom k (LastIndex k "-" + 1))
                     then <[sliceTo k (LastIndex k "-") :=
                              default [] (m !! sliceTo k (LastIndex k "-")) ++ [k]]> m
                     else m
                else m) !! base = Some l ∧ key ∈ l) as Hmono.
  { intros (l & Hl & Hkl). repeat case_match; eauto.
    rewrite lookup_insert. case_decide as Hb; [|by eauto].
    rewrite Hb, Hl. simpl. eexists. split; [done|]. apply elem_of_app. by left. }
  apply elem_of_app in Hin as [Hin|Hin%list_elem_of_singleton]; [by apply Hmono, IH|].
  injection Hin as <- <-.
  rewrite Hidx, (proj2 (Z.ltb_lt _ _) Hpos), <- Hidx, Hfrom, Hnum, Hto.
  rewrite lookup_insert_eq. eexists. split; [done|]. apply elem_of_app. right. by left.
Qed.

Lemma filterProgram_mono channelIDMap categoryMap originalIDMap acc program q :
  q ∈ acc → q ∈ filterProgram channelIDMap categoryMap originalIDMap acc program.
Proof.
  intros Hq. unfold filterProgram.
  set (acc1 := match channelIDMap !! PChannel program with
               | Some _ => _ | None => acc end).
  assert (q ∈ acc1) as Hq1.
  { subst acc1. destruct (channelIDMap !! PChannel program); [|done].
    apply elem_of_app. by left. }
  destruct (originalIDMap !! PChannel program) as [ids|]; [|done].
  apply (foldl_inv (λ l, q ∈ l)); [done|].
  intros l x _ Hl. apply elem_of_app. by left.
Qed.

Lemma filterProgram_copy channelIDMap categoryMap originalIDMap acc program ids key :
  originalIDMap !! PChannel program = Some ids → key ∈ ids →
  categorize channelIDMap categoryMap key (withChannel key program)
  ∈ filterProgram channelIDMap categoryMap originalIDMap acc program.
Proof.
  intros Hids Hkey. unfold filterProgram. rewrite Hids. clear Hids.
  generalize (match channelIDMap !! PChannel program with
              | Some _ => acc ++ [categorize channelIDMap categoryMap (PChannel program) program]
              | None => acc end) as acc1.
  induction ids as [|x ids IH] using rev_ind; intros acc1; [by inversion Hkey|].
  rewrite foldl_app. cbn [foldl].
  apply elem_of_app in Hkey as [Hkey|Hkey%list_elem_of_singleton].
  - apply elem_of_app. left. by apply IH.
  - subst x. apply elem_of_app. right. by left.
Qed.

Lemma filterProgram_kept channelIDMap categoryMap originalIDMap acc program :
  is_Some (channelIDMap !! PChannel program) →
  categorize channelIDMap categoryMap (PChannel program) program
  ∈ filterProgram channelIDMap categoryMap originalIDMap acc program.
Proof.
  intros [name Hname].
  assert (categorize channelIDMap categoryMap (PChannel program) program
          ∈ acc ++ [categorize channelIDMap categoryMap (PChannel program) program]) as Hin.
  { apply elem_of_app. right. by left. }
  unfold filterProgram. rewrite Hname.
  destruct (originalIDMap !! PChannel program) as [ids|]; [|done].
  apply (foldl_inv (λ l, categorize channelIDMap categoryMap (PChannel program) program ∈ l));
    [done|].
  intros l x _ Hl. apply elem_of_app. by left.
Qed.

Lemma foldl_filterProgram_elem channelIDMap categoryMap originalIDMap programs program q :
  program ∈ programs →
  (∀ acc, q ∈ filterProgram channelIDMap categoryMap originalIDMap acc program) →
  q ∈ foldl (filterProgram channelIDMap categoryMap originalIDMap) [] programs.
Proof.
  intros Hin Hq. induction programs as [|x l IH] using rev_ind; [by inversion Hin|].
  rewrite foldl_app. cbn [foldl].
  apply elem_of_app in Hin as [Hin|Hin%list_elem_of_singleton].
  - by apply filterProgram_mono, IH.
  - subst x. apply Hq.
Qed.

(** The program list of [Filter] before the placeholders is that of
    [FilterForMerge]. *)
Lemma filterProgramTracking_fst channelIDMap categoryMap originalIDMap programs acc :
  (foldl (filterProgramTracking channelIDMap categoryMap originalIDMap) acc programs).1
  = foldl (filterProgram channelIDMap categoryMap originalIDMap) acc.1 programs.
Proof.
  revert acc. induction programs as [|p l IH]; intros acc; simpl; [done|].
  rewrite IH. f_equal. unfold filterProgramTracking, filterProgram.
  set (acc1 := match channelIDMap !! PChannel p with Some _ => _ | None => acc end).
  assert (acc1.1 = match channelIDMap !! PChannel p with
                   | Some _ => acc.1 ++ [categorize channelIDMap categoryMap (PChannel p) p]
                   | None => acc.1 end) as <-.
  { subst acc1. by destruct (channelIDMap !! PChannel p). }
  destruct (originalIDMap !! PChannel p) as [ids|]; [|done].
  generalize acc1. induction ids as [|x ids IHids]; intros a; simpl; [done|].
  by rewrite IHids.
Qed.

Lemma categorize_fields channelIDMap categoryMap channelID p :
  let q := categorize channelIDMap categoryMap channelID p in
  PChannel q = PChannel p ∧ Start q = Start p ∧ Stop q = Stop p
  ∧ Title q = Title p ∧ Description q = Description p.
Proof.
  cbn zeta. unfold categorize.
  destruct (channelIDMap !! channelID) as [name|]; [|done].
  by destruct (categoryMap !! name).
Qed.

(** C10: when the identifier→name map of the matcher has a key
    [base-suffix] with a non-empty [base] and a numeric [suffix] (the part
    after the last dash of the key, accepted by [isNumericSuffix]), every
    program of the guide with channel reference [base] is emitted by
    [FilterForMerge] and by [Filter] once more with channel reference
    [base-suffix] (and the category of that key's playlist entry), next to
    the program itself when [base] is a key too.  Nothing is asked of where
    the key comes from: a guide identifier that ends in a dash and digits
    counts as much as one made by the suffixing. *)
Theorem suffixed_key_duplicates_programs (range : RangeOracle) (epgData : TV)
    (m3uChannels : list m3u.Channel) (chans : list Channel)
    (idMap : gmap string string) (base suffix : string) (program : Programme) :
  range_ok range →
  matchChannels range (Channels epgData) (buildChannelNameMap m3uChannels)
    (buildTVGIDMap m3uChannels) (buildNormalizedNameMap m3uChannels) = Some (chans, idMap) →
  base ≠ "" → isNumericSuffix suffix = true → Contains suffix "-" = false →
  is_Some (idMap !! (base +:+ "-" +:+ suffix)) →
  program ∈ Programs epgData → PChannel program = base →
  let key := base +:+ "-" +:+ suffix in
  let categoryMap := buildCategoryMap m3uChannels in
  let copy := categorize idMap categoryMap key (withChannel key program) in
  ∃ merged tv finalMap,
    FilterForMerge range epgData m3uChannels
    = Some {| EPG := Some merged; ChannelMap := idMap |}
    ∧ Filter range epgData m3uChannels = Some (tv, finalMap)
    ∧ copy ∈ Programs merged
    ∧ copy ∈ Programs tv
    ∧ PChannel copy = key ∧ Start copy = Start program ∧ Stop copy = Stop program
    ∧ Title copy = Title program ∧ Description copy = Description program
    ∧ (is_Some (idMap !! base) →
       categorize idMap categoryMap base program ∈ Programs merged
       ∧ categorize idMap categoryMap base program ∈ Programs tv).
Proof.
  intros Hr Hm Hbase Hnum Hdash [v Hkey] Hp Hch. cbn zeta.
  unfold FilterForMerge, Filter. cbn zeta. rewrite Hm. simpl.
  set (orig := buildOriginalIDMap (range 3%nat _ idMap)).
  set (cat := buildCategoryMap m3uChannels).
  pose proof (filterProgramTracking_fst idMap cat orig (Programs epgData) ([], ∅)) as Hfst.
  destruct (foldl (filterProgramTracking idMap cat orig) _ _) as [filtered tracked].
  simpl in Hfst. subst filtered.
  set (key := base +:+ "-" +:+ suffix) in *.
  destruct (buildOriginalIDMap_elem (range 3%nat _ idMap) key v base suffix)
    as (ids & Hids & Hin); try done.
  { by apply (range_elem_of range 3%nat idMap key v Hr). }
  fold orig in Hids.
  assert (categorize idMap cat key (withChannel key program)
          ∈ foldl (filterProgram idMap cat orig) [] (Programs epgData)) as Hcopy.
  { apply (foldl_filterProgram_elem _ _ _ _ program); [done|].
    intros acc. apply (filterProgram_copy _ _ _ _ _ ids); [by rewrite Hch|done]. }
  destruct (categorize_fields idMap cat key (withChannel key program))
    as (F1 & F2 & F3 & F4 & F5).
  eexists _, _, _. split; [done|]. split; [done|]. simpl.
  split; [done|]. split; [apply elem_of_app; by left|].
  split_and!; try done.
  intros Hb. rewrite <- Hch in *.
  assert (categorize idMap cat (PChannel program) program
          ∈ foldl (filterProgram idMap cat orig) [] (Programs epgData)) as Hkept.
  { apply (foldl_filterProgram_elem _ _ _ _ program); [done|].
    intros acc. by apply filterProgram_kept. }
  split; [done|]. apply elem_of_app. by left.
Qed.

(** A guide whose own identifiers are "bbc" and "bbc-2": the program of
    "bbc" is emitted once more under "bbc-2". *)
Lemma suffixed_key_duplicates_programs_witness :
  let guide :=
    {| Channels := [guideChannel "bbc" "BBC"; guideChannel "bbc-2" "BBC Two"];
       Programs := [guideProgram "bbc" "T1" "News"; guideProgram "bbc-2" "T1" "Two"] |} in
  let playlist := [playlistEntry "BBC" ""; playlistEntry "BBC Two" ""] in
  let idMap : gmap string string := <["bbc-2" := "BBC Two"]> (<["bbc" := "BBC"]> ∅) in
  let program := guideProgram "bbc" "T1" "News" in
  let key := "bbc" +:+ "-" +:+ "2" in
  let categoryMap := buildCategoryMap playlist in
  let copy := categorize idMap categoryMap key (withChannel key program) in
  ∃ merged tv finalMap,
    FilterForMerge range_canon guide playlist
    = Some {| EPG := Some merged; ChannelMap := idMap |}
    ∧ Filter range_canon guide playlist = Some (tv, finalMap)
    ∧ copy ∈ Programs merged
    ∧ copy ∈ Programs tv
    ∧ PChannel copy = key ∧ Start copy = Start program ∧ Stop copy = Stop program
    ∧ Title copy = Title program ∧ Description copy = Description program
    ∧ (is_Some (idMap !! "bbc") →
       categorize idMap categoryMap "bbc" program ∈ Programs merged
       ∧ categorize idMap categoryMap "bbc" program ∈ Programs tv).
Proof.
  apply (suffixed_key_duplicates_programs range_canon
           {| Channels := [guideChannel "bbc" "BBC"; guideChannel "bbc-2" "BBC Two"];
              Programs := [guideProgram "bbc" "T1" "News"; guideProgram "bbc-2" "T1" "Two"] |}
           [playlistEntry "BBC" ""; playlistEntry "BBC Two" ""]
           [guideChannel "bbc" "BBC"; guideChannel "bbc-2" "BBC Two"]
           (<["bbc-2" := "BBC Two"]> (<["bbc" := "BBC"]> ∅))
           "bbc" "2" (guideProgram "bbc" "T1" "News")).
  - exact range_canon_ok.
  - vm_compute. reflexivity.
  - discriminate.
  - vm_compute. reflexivity.
  - vm_compute. reflexivity.
  - vm_compute. eexists. reflexivity.
  - left.
  - reflexivity.
Defined.

(** The whole output on that guide. *)
Example native_suffix_duplicates :
  let guide :=
    {| Channels := [guideChannel "bbc" "BBC"; guideChannel "bbc-2" "BBC Two"];
       Programs := [guideProgram "bbc" "T1" "News"; guideProgram "bbc-2" "T1" "Two"] |} in
  let playlist := [playlistEntry "BBC" ""; playlistEntry "BBC Two" ""] in
  ∃ tv finalMap,
    Filter range_canon guide playlist = Some (tv, finalMap)
    ∧ Programs tv = [guideProgram "bbc" "T1" "News"; guideProgram "bbc-2" "T1" "News";
                     guideProgram "bbc-2" "T1" "Two"].
Proof. vm_compute. eexists _, _. split; reflexivity. Qed.

(** Decimal suffixes of up to 18 digits are numeric; a suffix whose value
    does not fit a 64-bit [int] is not, nor is the empty one. *)
Example isNumericSuffix_samples :
  map isNumericSuffix ["1"; "2"; "123"; "0"; ""; "a"; "1a"; "a1"; "-1"; "+5";
                       "9223372036854775807"; "9223372036854775808"]
  = [true; true; true; true; false; false; false; false; true; true; true; false].
Proof. vm_compute. reflexivity. Qed.

(** ** The merger: programs *)

Lemma hasOverlap_spec existing newProg :
  hasOverlap existing newProg = true ↔ Start newProg ∈ Start <$> existing.
Proof.
  induction existing as [|p l IH]; simpl.
  - split; [done|]. by intros ?%elem_of_nil.
  - rewrite elem_of_cons. destruct (decide (Start p = Start newProg)).
    + split; [by left|done].
    + rewrite IH. split; [by right|]. intros [?|?]; [congruence|done].
Qed.

Lemma mergeProgram_eq epgID primaryID cp prog :
  PChannel prog = epgID →
  let existing := default [] (cp !! primaryID) in
  mergeProgram epgID primaryID cp prog
  = if bool_decide (Start prog ∈ Start <$> existing) then cp
    else <[primaryID := existing ++ [withChannel primaryID prog]]> cp.
Proof.
  intros Hc. cbn zeta. unfold mergeProgram. rewrite decide_False by (by intros ?).
  cbn zeta. destruct (hasOverlap _ _) eqn:E.
  - apply hasOverlap_spec in E. simpl in E. by rewrite bool_decide_eq_true_2.
  - rewrite bool_decide_eq_false_2; [done|].
    intros Hin. apply (hasOverlap_spec _ (withChannel primaryID prog)) in Hin. congruence.
Qed.

Lemma programsExtend_refl cp : programsExtend cp cp.
Proof. intros k l Hl. exists []. by rewrite app_nil_r. Qed.

Lemma programsExtend_trans cp1 cp2 cp3 :
  programsExtend cp1 cp2 → programsExtend cp2 cp3 → programsExtend cp1 cp3.
Proof.
  intros H12 H23 k l Hl. destruct (H12 k l Hl) as [l1 H1].
  destruct (H23 k _ H1) as [l2 H2]. exists (l1 ++ l2). by rewrite app_assoc.
Qed.

Lemma covered_extend cp cp' own p :
  programsExtend cp cp' → covered cp own p → covered cp' own p.
Proof.
  intros Hext (q & Hq & Hs). exists q. split; [|done].
  destruct (cp !! own) as [l|] eqn:E; simpl in Hq; [|by inversion Hq].
  destruct (Hext own l E) as [l' ->]. simpl. apply elem_of_app. by left.
Qed.

Lemma mergeProgram_extend epgID primaryID cp prog :
  programsExtend cp (mergeProgram epgID primaryID cp prog).
Proof.
  unfold mergeProgram. destruct (decide _); [apply programsExtend_refl|].
  cbn zeta. destruct (hasOverlap _ _); [apply programsExtend_refl|].
  intros k l Hl. destruct (decide (primaryID = k)) as [->|Hne].
  - rewrite lookup_insert_eq, Hl. simpl. by eexists.
  - rewrite lookup_insert_ne by done. exists []. by rewrite app_nil_r.
Qed.

Lemma mergeProgram_wf epgID primaryID cp prog :
  programsWf cp → programsWf (mergeProgram epgID primaryID cp prog).
Proof.
  intros Hwf. unfold mergeProgram. destruct (decide _); [done|].
  cbn zeta. destruct (hasOverlap _ _) eqn:E; [done|].
  intros k l. rewrite lookup_insert. case_decide as Hk; [|apply Hwf].
  intros [= <-]. subst k.
  assert (Forall (λ p, PChannel p = primaryID) (default [] (cp !! primaryID))
          ∧ NoDup (Start <$> default [] (cp !! primaryID))) as [Hf Hn].
  { destruct (cp !! primaryID) as [l|] eqn:El; simpl; [by apply Hwf|].
    split; constructor. }
  split.
  - apply Forall_app. split; [done|]. by repeat constructor.
  - rewrite fmap_app. apply NoDup_app. split; [done|]. split; [|apply NoDup_singleton].
    intros s Hs ->%list_elem_of_singleton.
    apply (hasOverlap_spec _ (withChannel primaryID prog)) in Hs. congruence.
Qed.

Lemma mergeProgram_covered epgID primaryID cp prog :
  PChannel prog = epgID → covered (mergeProgram epgID primaryID cp prog) primaryID prog.
Proof.
  intros Hc. rewrite mergeProgram_eq by done. cbn zeta. case_bool_decide as Hin.
  - apply list_elem_of_fmap in Hin as (q & Hq & Hin). by exists q.
  - exists (withChannel primaryID prog). split; [|done].
    rewrite lookup_insert_eq. simpl. apply elem_of_app. right. by left.
Qed.

Lemma foldl_mergeProgram epgID primaryID cp programs :
  let cp' := foldl (mergeProgram epgID primaryID) cp programs in
  programsExtend cp cp'
  ∧ (programsWf cp → programsWf cp')
  ∧ ∀ p, p ∈ programs → PChannel p = epgID → covered cp' primaryID p.
Proof.
  cbn zeta. induction programs as [|x l IH] using rev_ind.
  - split; [apply programsExtend_refl|]. split; [done|]. by intros p ?%elem_of_nil.
  - rewrite foldl_app. cbn [foldl]. destruct IH as (Hext & Hwf & Hcov).
    split; [|split].
    + eapply programsExtend_trans; [done|apply mergeProgram_extend].
    + intros ?. by apply mergeProgram_wf, Hwf.
    + intros p [Hp|Hp%list_elem_of_singleton]%elem_of_app Hc.
      * eapply covered_extend; [apply mergeProgram_extend|by apply Hcov].
      * subst x. by apply mergeProgram_covered.
Qed.

Lemma mergeEntry_programs epg st entry :
  programsExtend (channelPrograms st) (channelPrograms (mergeEntry epg st entry))
  ∧ (programsWf (channelPrograms st) → programsWf (channelPrograms (mergeEntry epg st entry))).
Proof.
  destruct entry as [epgID m3uName]. unfold mergeEntry.
  destruct (m3uToEPGID st !! m3uName); simpl;
    match goal with |- context [foldl (mergeProgram ?a ?b) ?c ?d] =>
      destruct (foldl_mergeProgram a b c d) as (? & ? & _) end; done.
Qed.

Lemma mergeSource_programs range st entry :
  programsExtend (channelPrograms st) (channelPrograms (mergeSource range st entry))
  ∧ (programsWf (channelPrograms st) → programsWf (channelPrograms (mergeSource range st entry))).
Proof.
  destruct entry as [i [[[epg|] cm]|]]; simpl;
    try (split; [apply programsExtend_refl|done]).
  apply (foldl_inv (λ st', programsExtend (channelPrograms st) (channelPrograms st')
                           ∧ (programsWf (channelPrograms st) → programsWf (channelPrograms st')))).
  - split; [apply programsExtend_refl|done].
  - intros st' e _ [Hext Hwf]. destruct (mergeEntry_programs epg st' e) as [Hext' Hwf'].
    split; [by eapply programsExtend_trans|]. intros ?. by apply Hwf', Hwf.
Qed.

Lemma foldl_mergeSource_programs range st entries :
  let st' := foldl (mergeSource range) st entries in
  programsExtend (channelPrograms st) (channelPrograms st')
  ∧ (programsWf (channelPrograms st) → programsWf (channelPrograms st')).
Proof.
  cbn zeta.
  apply (foldl_inv (λ st', programsExtend (channelPrograms st) (channelPrograms st')
                           ∧ (programsWf (channelPrograms st) → programsWf (channelPrograms st')))).
  - split; [apply programsExtend_refl|done].
  - intros st' e _ [Hext Hwf]. destruct (mergeSource_programs range st' e) as [Hext' Hwf'].
    split; [by eapply programsExtend_trans|]. intros ?. by apply Hwf', Hwf.
Qed.

Lemma mergeSources_wf range results : programsWf (channelPrograms (mergeSources range results)).
Proof.
  unfold mergeSources. apply foldl_mergeSource_programs.
  intros k l. simpl. by rewrite lookup_empty.
Qed.

Lemma mergeSources_app range pre post :
  mergeSources range (pre ++ post)
  = foldl (mergeSource range) (mergeSources range pre)
          (imap (λ i, pair (length pre + i)%nat) post).
Proof. unfold mergeSources, indexed. by rewrite imap_app, foldl_app. Qed.

Lemma flatten_programs (order : list (string * list Programme)) acc :
  foldl (λ programs '(_, progs), programs ++ progs) acc order = acc ++ mjoin order.*2.
Proof.
  revert acc. induction order as [|[k l] order IH]; intros acc; simpl.
  - by rewrite app_nil_r.
  - by rewrite IH, app_assoc.
Qed.

Lemma flatten_NoDup (order : list (string * list Programme)) :
  NoDup order.*1 →
  Forall (λ e, Forall (λ p, PChannel p = e.1) e.2 ∧ NoDup (Start <$> e.2)) order →
  NoDup ((λ p, (PChannel p, Start p)) <$> mjoin order.*2).
Proof.
  induction order as [|[k l] order IH]; simpl; [constructor|].
  intros [Hk Hnd]%NoDup_cons [[Hch Hst] Hall]%Forall_cons. simpl in *.
  rewrite fmap_app. apply NoDup_app. split_and!.
  - clear -Hch Hst. induction l as [|p l IHl]; [constructor|].
    apply Forall_cons in Hch as [Hp Hch]. rewrite fmap_cons in Hst.
    apply NoDup_cons in Hst as [Hs Hst]. rewrite fmap_cons. apply NoDup_cons. split.
    + intros (q & [= Hq1 Hq2] & Hq)%list_elem_of_fmap. apply Hs.
      apply list_elem_of_fmap. by exists q.
    + by apply IHl.
  - intros [c s] (p & [= -> ->] & Hp)%list_elem_of_fmap
      (q & [= Hq1 Hq2] & Hq)%list_elem_of_fmap.
    rewrite Forall_forall in Hch. rewrite (Hch p Hp) in Hq1.
    apply list_elem_of_join in Hq as (l' & Hq & Hl').
    apply list_elem_of_fmap in Hl' as ([k' l''] & -> & Hin). simpl in Hq.
    rewrite Forall_forall in Hall. destruct (Hall _ Hin) as [Hch' _]. simpl in Hch'.
    rewrite Forall_forall in Hch'. rewrite (Hch' q Hq) in Hq1. subst k'.
    apply Hk. apply list_elem_of_fmap. by exists (k, l'').
  - by apply IH.
Qed.

(** ** The merger: ownership of playlist names *)

Lemma entriesFor_app name l1 l2 :
  entriesFor name (l1 ++ l2) = entriesFor name l1 ++ entriesFor name l2.
Proof. apply filter_app. Qed.

Lemma entriesFor_claimed name channels epgID m3uName :
  entriesFor name (claimedChannel channels epgID m3uName)
  = if decide (m3uName = name) then claimedChannel channels epgID m3uName else [].
Proof.
  unfold claimedChannel, entriesFor.
  destruct (list_find _ channels) as [[i ch]|]; [|by destruct (decide _)].
  rewrite filter_cons, filter_nil. simpl. by destruct (decide (m3uName = name)).
Qed.

Lemma claimedChannel_found channels epgID m3uName ch1 :
  ch1 ∈ channels → ID ch1 = epgID →
  ∃ ch0, ch0 ∈ channels ∧ ID ch0 = epgID
         ∧ claimedChannel channels epgID m3uName = [withDisplayName m3uName ch0].
Proof.
  intros Hin Hid. unfold claimedChannel.
  destruct (list_find (λ ch, ID ch = epgID) channels) as [[i ch0]|] eqn:E.
  - apply list_find_Some in E as (Hi & Hch & _). exists ch0.
    split; [by eapply list_elem_of_lookup_2|done].
  - apply list_find_None in E. rewrite Forall_forall in E. by destruct (E ch1 Hin).
Qed.

(** What one map entry does to the owner table, the channel list and the
    program lists. *)
Lemma mergeEntry_spec epg st epgID m3uName :
  let st' := mergeEntry epg st (epgID, m3uName) in
  m3uToEPGID st'
  = match m3uToEPGID st !! m3uName with
    | Some _ => m3uToEPGID st
    | None => <[m3uName := epgID]> (m3uToEPGID st)
    end
  ∧ mergedChannels st'
    = mergedChannels st ++
        match m3uToEPGID st !! m3uName with
        | Some _ => []
        | None => claimedChannel (Channels epg) epgID m3uName
        end
  ∧ ∀ own p, m3uToEPGID st' !! m3uName = Some own →
             p ∈ Programs epg → PChannel p = epgID →
             covered (channelPrograms st') own p.
Proof.
  cbn zeta. unfold mergeEntry.
  destruct (m3uToEPGID st !! m3uName) as [own0|] eqn:E; simpl.
  - rewrite E. simpl. split; [done|]. split; [by rewrite app_nil_r|].
    intros own p [= <-] Hp Hc.
    by apply (foldl_mergeProgram epgID own0 (channelPrograms st) (Programs epg)).
  - rewrite lookup_insert_eq. simpl. split; [done|]. split; [done|].
    intros own p [= <-] Hp Hc.
    by apply (foldl_mergeProgram epgID epgID (channelPrograms st) (Programs epg)).
Qed.

Lemma foldl_mergeEntry_extend epg st order :
  programsExtend (channelPrograms st) (channelPrograms (foldl (mergeEntry epg) st order)).
Proof.
  apply (foldl_inv (λ st', programsExtend (channelPrograms st) (channelPrograms st'))).
  - apply programsExtend_refl.
  - intros st' e _ Hext. eapply programsExtend_trans; [done|apply mergeEntry_programs].
Qed.

(** Entries for other playlist names leave the owner and the channel
    entries of [name] alone. *)
Lemma foldl_mergeEntry_other epg st order name :
  name ∉ order.*2 →
  let st' := foldl (mergeEntry epg) st order in
  m3uToEPGID st' !! name = m3uToEPGID st !! name
  ∧ entriesFor name (mergedChannels st') = entriesFor name (mergedChannels st).
Proof.
  cbn zeta. induction order as [|[id n] order IH] using rev_ind; [done|].
  rewrite fmap_app, not_elem_of_app. intros [Ho Hn]. simpl in Hn.
  assert (n ≠ name) as Hne.
  { intros ->. apply Hn. left. }
  rewrite foldl_app. cbn [foldl]. destruct (IH Ho) as [IH1 IH2].
  destruct (mergeEntry_spec epg (foldl (mergeEntry epg) st order) id n) as (-> & -> & _).
  rewrite entriesFor_app, IH2, <- IH1. split.
  - destruct (m3uToEPGID _ !! n); [done|]. by rewrite lookup_insert_ne.
  - destruct (m3uToEPGID _ !! n); [by rewrite app_nil_r|].
    by rewrite entriesFor_claimed, decide_False, app_nil_r.
Qed.

(** Once [name] has an owner, the owner and the channel entries of [name]
    stay, and the programs of every further entry for [name] are covered
    under the owner. *)
Lemma foldl_mergeEntry_owned epg st order name own :
  m3uToEPGID st !! name = Some own →
  let st' := foldl (mergeEntry epg) st order in
  m3uToEPGID st' !! name = Some own
  ∧ entriesFor name (mergedChannels st') = entriesFor name (mergedChannels st)
  ∧ ∀ id p, (id, name) ∈ order → p ∈ Programs epg → PChannel p = id →
            covered (channelPrograms st') own p.
Proof.
  intros Hown. cbn zeta. induction order as [|[id n] order IH] using rev_ind.
  { split; [done|]. split; [done|]. by intros id p ?%elem_of_nil. }
  rewrite foldl_app. cbn [foldl]. destruct IH as (IH1 & IH2 & IH3).
  set (st1 := foldl (mergeEntry epg) st order) in *.
  destruct (mergeEntry_spec epg st1 id n) as (Hm & Hc & Hp).
  assert (m3uToEPGID (mergeEntry epg st1 (id, n)) !! name = Some own) as Hown'.
  { rewrite Hm. destruct (m3uToEPGID st1 !! n) eqn:E; [done|].
    rewrite lookup_insert_ne; [done|]. intros ->. congruence. }
  split; [done|]. split.
  - rewrite Hc, entriesFor_app, IH2.
    destruct (m3uToEPGID st1 !! n) eqn:E; [by rewrite app_nil_r|].
    rewrite entriesFor_claimed, decide_False, app_nil_r; [done|]. intros ->. congruence.
  - intros id' p [Hin|Hin%list_elem_of_singleton]%elem_of_app Hpp Hch.
    + eapply covered_extend; [apply mergeEntry_programs|]. by eapply IH3.
    + injection Hin as -> ->. by apply Hp.
Qed.

(** The first entry for an unowned [name] claims it. *)
Lemma foldl_mergeEntry_claim epg st o1 o2 name id0 :
  m3uToEPGID st !! name = None → name ∉ o1.*2 →
  let st' := foldl (mergeEntry epg) st (o1 ++ (id0, name) :: o2) in
  m3uToEPGID st' !! name = Some id0
  ∧ entriesFor name (mergedChannels st')
    = entriesFor name (mergedChannels st) ++ claimedChannel (Channels epg) id0 name
  ∧ ∀ id p, (id, name) ∈ o1 ++ (id0, name) :: o2 → p ∈ Programs epg → PChannel p = id →
            covered (channelPrograms st') id0 p.
Proof.
  intros Hnone Ho1. cbn zeta. rewrite foldl_app. cbn [foldl].
  destruct (foldl_mergeEntry_other epg st o1 name Ho1) as [H1 H2].
  set (st1 := foldl (mergeEntry epg) st o1) in *.
  destruct (mergeEntry_spec epg st1 id0 name) as (Hm & Hc & Hp).
  rewrite H1, Hnone in Hm, Hc.
  set (st2 := mergeEntry epg st1 (id0, name)) in *.
  assert (m3uToEPGID st2 !! name = Some id0) as Hown.
  { by rewrite Hm, lookup_insert_eq. }
  destruct (foldl_mergeEntry_owned epg st2 o2 name id0 Hown) as (F1 & F2 & F3).
  split; [done|]. split.
  - rewrite F2, Hc, entriesFor_app, H2, entriesFor_claimed. by rewrite decide_True.
  - intros id p [Hin|[Hin|Hin]%elem_of_cons]%elem_of_app Hpp Hch.
    + exfalso. apply Ho1. apply list_elem_of_fmap. by exists (id, name).
    + injection Hin as ->. eapply covered_extend; [apply foldl_mergeEntry_extend|].
      by apply Hp.
    + by eapply F3.
Qed.

Lemma mergeSource_live range st i epg cm :
  mergeSource range st (i, Some {| EPG := Some epg; ChannelMap := cm |})
  = foldl (mergeEntry epg) st (range (6 + i)%nat _ cm).
Proof. reflexivity. Qed.

Lemma mergeSource_dead range st i x :
  (∀ epg cm, x ≠ Some {| EPG := Some epg; ChannelMap := cm |}) →
  mergeSource range st (i, x) = st.
Proof. intros Hx. destruct x as [[[epg|] cm]|]; try done. by destruct (Hx epg cm). Qed.

Lemma mergeSources_snoc range results x :
  mergeSources range (results ++ [x])
  = mergeSource range (mergeSources range results) (length results, x).
Proof. rewrite mergeSources_app. simpl. by rewrite Nat.add_0_r. Qed.

Lemma liveSource_snoc results x j epg cm :
  liveSource (results ++ [x]) j epg cm →
  liveSource results j epg cm
  ∨ (j = length results ∧ x = Some {| EPG := Some epg; ChannelMap := cm |}).
Proof.
  unfold liveSource. intros [H|[Hlen H]]%lookup_app_Some; [by left|right].
  apply list_lookup_singleton_Some in H as [Hj <-]. split; [lia|done].
Qed.

(** While no source maps an identifier to [name], the name has no owner and
    no channel entry. *)
Lemma mergeSources_unclaimed range results name :
  range_ok range →
  (∀ j epg cm id, liveSource results j epg cm → cm !! id ≠ Some name) →
  m3uToEPGID (mergeSources range results) !! name = None
  ∧ entriesFor name (mergedChannels (mergeSources range results)) = [].
Proof.
  intros Hr. induction results as [|x results IH] using rev_ind; intros Hno; [done|].
  rewrite mergeSources_snoc.
  destruct IH as [IH1 IH2].
  { intros j epg cm id Hj. apply (Hno j epg cm id).
    unfold liveSource in *. by apply lookup_app_l_Some. }
  destruct x as [[[epg|] cm]|]; try (by rewrite mergeSource_dead).
  rewrite mergeSource_live.
  destruct (foldl_mergeEntry_other epg (mergeSources range results)
              (range (6 + length results)%nat _ cm) name) as [-> ->]; [|done].
  intros ([id n] & -> & Hin)%list_elem_of_fmap. simpl in Hin.
  apply (range_elem_of range _ cm id n Hr) in Hin.
  apply (Hno (length results) epg cm id); [|done].
  unfold liveSource. by rewrite list_lookup_middle.
Qed.

(** The owner of a playlist name after the merge of all sources. *)
Lemma mergeSources_claimed range results name k epgK cmK id0 :
  range_ok range →
  liveSource results k epgK cmK →
  cmK !! id0 = Some name →
  (∀ id, cmK !! id = Some name → id = id0) →
  (∀ j epg cm id, (j < k)%nat → liveSource results j epg cm → cm !! id ≠ Some name) →
  let st := mergeSources range results in
  m3uToEPGID st !! name = Some id0
  ∧ entriesFor name (mergedChannels st) = claimedChannel (Channels epgK) id0 name
  ∧ ∀ j epg cm id p, liveSource results j epg cm → cm !! id = Some name →
                     p ∈ Programs epg → PChannel p = id →
                     covered (channelPrograms st) id0 p.
Proof.
  intros Hr. cbn zeta.
  induction results as [|x results IH] using rev_ind; intros Hk Hid0 Huniq Hfirst.
  { unfold liveSource in Hk. by rewrite lookup_nil in Hk. }
  rewrite mergeSources_snoc.
  apply liveSource_snoc in Hk as [Hk|[-> ->]].
  - destruct IH as (IH1 & IH2 & IH3); try done.
    { intros j epg cm id Hj Hl. apply (Hfirst j epg cm id Hj).
      unfold liveSource in *. by apply lookup_app_l_Some. }
    assert (∀ st', programsExtend (channelPrograms (mergeSources range results))
                                  (channelPrograms st') →
                   ∀ j epg cm id p, liveSource results j epg cm → cm !! id = Some name →
                     p ∈ Programs epg → PChannel p = id →
                     covered (channelPrograms st') id0 p) as Hold.
    { intros st' Hext j epg cm id p Hj Hc Hp Hch.
      eapply covered_extend; [done|]. by eapply IH3. }
    destruct x as [[[epg|] cm]|]; [rewrite mergeSource_live|rewrite mergeSource_dead by done..].
    + destruct (foldl_mergeEntry_owned epg (mergeSources range results)
                  (range (6 + length results)%nat _ cm) name id0 IH1) as (F1 & F2 & F3).
      split; [done|]. split; [by rewrite F2|].
      intros j epg' cm' id p [Hj|[-> [= <- <-]]]%liveSource_snoc Hc Hp Hch.
      * eapply Hold; [apply foldl_mergeEntry_extend|done..].
      * eapply F3; [|done..]. by apply (range_elem_of range _ cm id name Hr).
    + split; [done|]. split; [done|].
      intros j epg' cm' id p [Hj|[-> [=]]]%liveSource_snoc Hc Hp Hch.
      eapply Hold; [apply programsExtend_refl|done..].
    + split; [done|]. split; [done|].
      intros j epg' cm' id p [Hj|[-> [=]]]%liveSource_snoc Hc Hp Hch.
      eapply Hold; [apply programsExtend_refl|done..].
  - rewrite mergeSource_live.
    destruct (mergeSources_unclaimed range results name Hr) as [U1 U2].
    { intros j epg cm id Hj. apply (Hfirst j epg cm id).
      - apply lookup_lt_Some in Hj. lia.
      - unfold liveSource in *. by apply lookup_app_l_Some. }
    set (order := range (6 + length results)%nat _ cmK).
    assert ((id0, name) ∈ order) as Hin.
    { by apply (range_elem_of range _ cmK id0 name Hr). }
    apply list_elem_of_split in Hin as (o1 & o2 & Ho).
    assert (name ∉ o1.*2) as Ho1.
    { intros ([id n] & -> & Hin)%list_elem_of_fmap. simpl in Hin.
      assert ((id, n) ∈ order) as Hin' by (rewrite Ho; apply elem_of_app; by left).
      apply (range_elem_of range _ cmK id n Hr), Huniq in Hin'. subst id.
      pose proof (range_NoDup_keys range (6 + length results)%nat cmK Hr) as Hnd.
      fold order in Hnd. rewrite Ho, fmap_app, fmap_cons in Hnd.
      apply NoDup_app in Hnd as (_ & Hnd & _). apply (Hnd id0).
      - apply list_elem_of_fmap. by exists (id0, n).
      - left. }
    rewrite Ho.
    destruct (foldl_mergeEntry_claim epgK (mergeSources range results) o1 o2 name id0 U1 Ho1)
      as (C1 & C2 & C3).
    split; [done|]. split; [by rewrite C2, U2|].
    intros j epg cm id p [Hj|[_ [= <- <-]]]%liveSource_snoc Hc Hp Hch.
    + exfalso. apply (Hfirst j epg cm id); [|by unfold liveSource in *; apply lookup_app_l_Some|done].
      by apply lookup_lt_Some in Hj.
    + eapply C3; [|done..]. rewrite <- Ho.
      by apply (range_elem_of range _ cmK id name Hr).
Qed.

Lemma covered_merged range results own p :
  range_ok range → results ≠ [] →
  covered (channelPrograms (mergeSources range results)) own p →
  ∃ q, q ∈ MergedPrograms (MergeEPGs range results)
       ∧ PChannel q = own ∧ Start q = Start p.
Proof.
  intros Hr Hne (q & Hq & Hs). exists q.
  destruct (channelPrograms (mergeSources range results) !! own) as [l|] eqn:E;
    simpl in Hq; [|by inversion Hq].
  destruct (mergeSources_wf range results own l E) as [Hch _].
  rewrite Forall_forall in Hch. split; [|by split; [apply Hch|]].
  unfold MergeEPGs. rewrite decide_False by (by destruct results).
  simpl. rewrite flatten_programs. simpl.
  apply list_elem_of_join. exists l. split; [done|].
  apply list_elem_of_fmap. exists (own, l). split; [done|].
  by apply (range_elem_of range 5%nat _ own l Hr).
Qed.

(** What [FilterForMerge] returns is fit for merging: the guide and the map
    are there, every playlist name is the value of at most one identifier,
    and every identifier of the map is that of a returned channel. *)
Lemma FilterForMerge_wf range epgData m3uChannels :
  ∃ tv cm,
    FilterForMerge range epgData m3uChannels = Some {| EPG := Some tv; ChannelMap := cm |}
    ∧ (∀ id1 id2 name, cm !! id1 = Some name → cm !! id2 = Some name → id1 = id2)
    ∧ (∀ id, is_Some (cm !! id) → ∃ ch, ch ∈ Channels tv ∧ ID ch = id).
Proof.
  destruct (matchChannels_map range (Channels epgData) (buildChannelNameMap m3uChannels)
              (buildTVGIDMap m3uChannels) (buildNormalizedNameMap m3uChannels))
    as (chans & idMap & Hm & Hinj & Hkey).
  unfold FilterForMerge. cbn zeta. rewrite Hm. simpl.
  eexists _, _. split; [done|]. by split.
Qed.

(** *** Programs: the first one seen wins *)

Lemma NoDup_fmap_eq {A B} (f : A → B) (l : list A) x y :
  NoDup (f <$> l) → x ∈ l → y ∈ l → f x = f y → x = y.
Proof.
  induction l as [|z l IH]; [by intros _ ?%elem_of_nil|].
  rewrite fmap_cons. intros [Hz Hnd]%NoDup_cons.
  intros [->|Hx]%elem_of_cons [->|Hy]%elem_of_cons Hf; [done| | |by apply IH].
  - destruct Hz. rewrite Hf. apply list_elem_of_fmap. by exists y.
  - destruct Hz. rewrite <- Hf. apply list_elem_of_fmap. by exists x.
Qed.

Lemma mergeSource_owned range st e name own :
  m3uToEPGID st !! name = Some own →
  m3uToEPGID (mergeSource range st e) !! name = Some own.
Proof.
  intros Hown. destruct e as [i [[[epg|] cm]|]]; simpl; try done.
  by apply foldl_mergeEntry_owned.
Qed.

Lemma foldl_mergeSource_owned range st entries name own :
  m3uToEPGID st !! name = Some own →
  m3uToEPGID (foldl (mergeSource range) st entries) !! name = Some own.
Proof.
  intros Hown. apply foldl_inv; [done|]. intros st' e _. apply mergeSource_owned.
Qed.

(** Every program of a live source under an identifier that the source maps
    to a playlist name is covered under the owner of that name. *)
Lemma mergeSources_covers range results j epg cm id name :
  range_ok range → liveSource results j epg cm → cm !! id = Some name →
  ∃ own, m3uToEPGID (mergeSources range results) !! name = Some own
         ∧ ∀ p, p ∈ Programs epg → PChannel p = id →
                covered (channelPrograms (mergeSources range results)) own p.
Proof.
  intros Hr Hlive Hcm. unfold liveSource in Hlive.
  rewrite <- (take_drop_middle results j _ Hlive).
  set (pre := take j results). set (post := drop (S j) results).
  rewrite mergeSources_app. cbn [imap foldl].
  set (st0 := mergeSources range pre).
  rewrite mergeSource_live.
  set (order := range (6 + (length pre + 0))%nat _ cm).
  assert ((id, name) ∈ order) as Hin by (by apply (range_elem_of range _ cm id name Hr)).
  apply list_elem_of_split in Hin as (o1 & o2 & Ho). rewrite Ho.
  rewrite foldl_app. cbn [foldl].
  set (t1 := foldl (mergeEntry epg) st0 o1).
  destruct (mergeEntry_spec epg t1 id name) as (Hm & _ & Hp).
  set (t2 := mergeEntry epg t1 (id, name)) in *.
  assert (∃ own, m3uToEPGID t2 !! name = Some own) as [own Hown].
  { rewrite Hm. destruct (m3uToEPGID t1 !! name) as [own|] eqn:E; [by exists own|].
    exists id. by rewrite lookup_insert_eq. }
  exists own. split.
  - apply foldl_mergeSource_owned. by apply foldl_mergeEntry_owned.
  - intros p Hpp Hch.
    eapply covered_extend; [apply foldl_mergeSource_programs|].
    eapply covered_extend; [apply foldl_mergeEntry_extend|].
    by apply Hp.
Qed.

Lemma MergedPrograms_elem range results q :
  range_ok range →
  q ∈ MergedPrograms (MergeEPGs range results)
  ↔ results ≠ []
    ∧ ∃ k l, channelPrograms (mergeSources range results) !! k = Some l ∧ q ∈ l.
Proof.
  intros Hr. unfold MergeEPGs. destruct (decide (length results = 0%nat)) as [Hz|Hz].
  - simpl. apply length_zero_iff_nil in Hz. subst results.
    split; [by intros ?%elem_of_nil|by intros [[] _]].
  - simpl. rewrite flatten_programs. simpl. rewrite list_elem_of_join. split.
    + intros (l & Hq & ([k l'] & -> & He)%list_elem_of_fmap).
      apply (range_elem_of range 5%nat _ k l' Hr) in He.
      split; [by intros ->|]. by exists k, l'.
    + intros (_ & k & l & Hl & Hq). exists l. split; [done|].
      apply list_elem_of_fmap. exists (k, l). split; [done|].
      by apply (range_elem_of range 5%nat _ k l Hr).
Qed.

Lemma MergedPrograms_NoDup range results :
  range_ok range →
  NoDup ((λ p, (PChannel p, Start p)) <$> MergedPrograms (MergeEPGs range results)).
Proof.
  intros Hr. unfold MergeEPGs. destruct (decide _); [constructor|]. simpl.
  rewrite flatten_programs. simpl.
  apply flatten_NoDup; [by apply range_NoDup_keys|].
  apply Forall_forall. intros [k l] Hin%(range_elem_of range); [|done].
  by apply (mergeSources_wf range results).
Qed.

Lemma MergedPrograms_stay range results post q :
  range_ok range →
  q ∈ MergedPrograms (MergeEPGs range results) →
  q ∈ MergedPrograms (MergeEPGs range (results ++ post)).
Proof.
  intros Hr. rewrite !MergedPrograms_elem by done.
  intros (Hne & k & l & Hl & Hq). split; [by destruct results|].
  assert (programsExtend (channelPrograms (mergeSources range results))
            (channelPrograms (mergeSources range (results ++ post)))) as Hext
    by (rewrite mergeSources_app; apply foldl_mergeSource_programs).
  destruct (Hext k l Hl) as [l' Hl']. exists k, (l ++ l'). split; [done|].
  apply elem_of_app. by left.
Qed.

(** C8: the program list of [MergeEPGs] never holds two programs with the
    same final channel identifier and the same start.  Every program of a
    live source under an identifier that the source maps to a playlist name
    is represented in the list: a program with its start is there, under
    one identifier for all programs of the name.  The program seen first
    wins: a program of the list is still in the list when further sources
    are merged after the given ones, and it is then the only program there
    with its identifier and start; within a source, a program whose start
    is already present under its primary identifier is dropped, any other
    is appended.  In the example, the second program of source [a] with
    the start "T1" and the program of source [b] with the start "T2" are
    dropped. *)
Theorem merged_programs_unique (range : RangeOracle)
    (results : list (option FilterResult)) :
  range_ok range →
  NoDup ((λ p, (PChannel p, Start p)) <$> MergedPrograms (MergeEPGs range results))
  ∧ (∀ j epg cm id name, liveSource results j epg cm → cm !! id = Some name →
       ∃ own, ∀ p, p ∈ Programs epg → PChannel p = id →
         ∃ q, q ∈ MergedPrograms (MergeEPGs range results)
              ∧ PChannel q = own ∧ Start q = Start p)
  ∧ (∀ post q, q ∈ MergedPrograms (MergeEPGs range results) →
       q ∈ MergedPrograms (MergeEPGs range (results ++ post))
       ∧ ∀ q', q' ∈ MergedPrograms (MergeEPGs range (results ++ post)) →
               PChannel q' = PChannel q → Start q' = Start q → q' = q)
  ∧ (∀ epgID primaryID cp prog,
       PChannel prog = epgID →
       let existing := default [] (cp !! primaryID) in
       mergeProgram epgID primaryID cp prog
       = if bool_decide (Start prog ∈ Start <$> existing) then cp
         else <[primaryID := existing ++ [withChannel primaryID prog]]> cp)
  ∧ (let a := {| EPG := Some {| Channels := [guideChannel "x" "ESPN HD"];
                                Programs := [guideProgram "x" "T1" "A1";
                                             guideProgram "x" "T1" "A1 again";
                                             guideProgram "x" "T2" "A2"] |};
                 ChannelMap := {["x" := "ESPN"]} |} in
     let b := {| EPG := Some {| Channels := [guideChannel "y" "Espn"];
                                Programs := [guideProgram "y" "T2" "B2";
                                             guideProgram "y" "T3" "B3"] |};
                 ChannelMap := {["y" := "ESPN"]} |} in
     MergedPrograms (MergeEPGs range_canon [Some a; Some b])
     = [guideProgram "x" "T1" "A1"; guideProgram "x" "T2" "A2";
        guideProgram "x" "T3" "B3"]).
Proof.
  intros Hr. split_and!.
  - by apply MergedPrograms_NoDup.
  - intros j epg cm id name Hlive Hcm.
    destruct (mergeSources_covers range results j epg cm id name Hr Hlive Hcm)
      as (own & _ & Hcov).
    exists own. intros p Hp Hch. apply covered_merged; [done| |by apply Hcov].
    intros ->. unfold liveSource in Hlive. by rewrite lookup_nil in Hlive.
  - intros post q Hq.
    pose proof (MergedPrograms_stay range results post q Hr Hq) as Hq'.
    split; [done|]. intros q' Hin Hc Hs.
    apply (NoDup_fmap_eq (λ p, (PChannel p, Start p))
             (MergedPrograms (MergeEPGs range (results ++ post)))); try done.
    + by apply MergedPrograms_NoDup.
    + by rewrite Hc, Hs.
  - apply mergeProgram_eq.
  - vm_compute. reflexivity.
Qed.

Lemma merged_programs_unique_witness :
  let a := {| EPG := Some {| Channels := [guideChannel "x" "ESPN HD"];
                             Programs := [guideProgram "x" "T1" "A1"; guideProgram "x" "T2" "A2"] |};
              ChannelMap := {["x" := "ESPN"]} |} in
  let b := {| EPG := Some {| Channels := [guideChannel "y" "Espn"];
                             Programs := [guideProgram "y" "T2" "B2"; guideProgram "y" "T3" "B3"] |};
              ChannelMap := {["y" := "ESPN"]} |} in
  let results := [Some a; Some b] in
  NoDup ((λ p, (PChannel p, Start p)) <$> MergedPrograms (MergeEPGs range_canon results))
  ∧ (∀ j epg cm id name, liveSource results j epg cm → cm !! id = Some name →
       ∃ own, ∀ p, p ∈ Programs epg → PChannel p = id →
         ∃ q, q ∈ MergedPrograms (MergeEPGs range_canon results)
              ∧ PChannel q = own ∧ Start q = Start p)
  ∧ (∀ post q, q ∈ MergedPrograms (MergeEPGs range_canon results) →
       q ∈ MergedPrograms (MergeEPGs range_canon (results ++ post))
       ∧ ∀ q', q' ∈ MergedPrograms (MergeEPGs range_canon (results ++ post)) →
               PChannel q' = PChannel q → Start q' = Start q → q' = q)
  ∧ (∀ epgID primaryID cp prog,
       PChannel prog = epgID →
       let existing := default [] (cp !! primaryID) in
       mergeProgram epgID primaryID cp prog
       = if bool_decide (Start prog ∈ Start <$> existing) then cp
         else <[primaryID := existing ++ [withChannel primaryID prog]]> cp)
  ∧ (let a := {| EPG := Some {| Channels := [guideChannel "x" "ESPN HD"];
                                Programs := [guideProgram "x" "T1" "A1";
                                             guideProgram "x" "T1" "A1 again";
                                             guideProgram "x" "T2" "A2"] |};
                 ChannelMap := {["x" := "ESPN"]} |} in
     let b := {| EPG := Some {| Channels := [guideChannel "y" "Espn"];
                                Programs := [guideProgram "y" "T2" "B2";
                                             guideProgram "y" "T3" "B3"] |};
                 ChannelMap := {["y" := "ESPN"]} |} in
     MergedPrograms (MergeEPGs range_canon [Some a; Some b])
     = [guideProgram "x" "T1" "A1"; guideProgram "x" "T2" "A2";
        guideProgram "x" "T3" "B3"]).
Proof.
  intros a b results.
  apply (merged_programs_unique range_canon results). exact range_canon_ok.
Defined.

(** C7: in [MergeEPGs] a playlist name belongs to the identifier that the
    earliest source with the name in its map gives it.  Let source [k] map
    the identifier [id0], and no other, to [name], let no earlier source
    map anything to [name], and let the guide of source [k] hold a channel
    [id0], as the results of [FilterForMerge] do.  Then exactly one channel entry is
    emitted for [name]: the first channel [id0] of source [k], with its
    identifier and icon, renamed to [name]; [id0] is the primary identifier
    of [name]; and for every program of every source under an identifier
    that this source maps to [name], the merged program list holds a
    program under [id0] with that start (the program itself, remapped,
    unless one with the same start came first). *)
Theorem merge_first_source_owns (range : RangeOracle)
    (results : list (option FilterResult)) (name : string) (k : nat)
    (epgK : TV) (cmK : gmap string string) (id0 : string) (ch1 : Channel) :
  range_ok range →
  liveSource results k epgK cmK →
  cmK !! id0 = Some name →
  (∀ id, cmK !! id = Some name → id = id0) →
  (∀ j epg cm id, (j < k)%nat → liveSource results j epg cm → cm !! id ≠ Some name) →
  ch1 ∈ Channels epgK → ID ch1 = id0 →
  let merged := MergeEPGs range results in
  (∃ ch0, ch0 ∈ Channels epgK ∧ ID ch0 = id0
          ∧ entriesFor name (MergedChannels merged) = [withDisplayName name ch0]
          ∧ ID (withDisplayName name ch0) = id0
          ∧ DisplayName (withDisplayName name ch0) = name
          ∧ ChIcon (withDisplayName name ch0) = ChIcon ch0)
  ∧ m3uToEPGID (mergeSources range results) !! name = Some id0
  ∧ (∀ j epg cm id p,
       liveSource results j epg cm → cm !! id = Some name →
       p ∈ Programs epg → PChannel p = id →
       ∃ q, q ∈ MergedPrograms merged ∧ PChannel q = id0 ∧ Start q = Start p).
Proof.
  intros Hr Hk Hid0 Huniq Hfirst Hch1 Hid1. cbn zeta.
  assert (results ≠ []) as Hne.
  { intros ->. unfold liveSource in Hk. by rewrite lookup_nil in Hk. }
  destruct (mergeSources_claimed range results name k epgK cmK id0 Hr Hk Hid0 Huniq Hfirst)
    as (Hown & Hent & Hcov).
  destruct (claimedChannel_found (Channels epgK) id0 name ch1 Hch1 Hid1)
    as (ch0 & Hin0 & Hid & Hcl).
  split; [|split; [done|]].
  - exists ch0. split_and!; try done.
    unfold MergeEPGs. rewrite decide_False by (by destruct results).
    simpl. by rewrite Hent.
  - intros j epg cm id p Hj Hc Hp Hpc.
    apply covered_merged; [done|done|]. by eapply Hcov.
Qed.

(** Source A (first) maps "x" to "ESPN", source B maps "y" to "ESPN". *)
Lemma merge_first_source_owns_witness :
  let a := {| EPG := Some {| Channels := [guideChannel "x" "ESPN HD"];
                             Programs := [guideProgram "x" "T1" "A1"; guideProgram "x" "T2" "A2"] |};
              ChannelMap := {["x" := "ESPN"]} |} in
  let b := {| EPG := Some {| Channels := [guideChannel "y" "Espn"];
                             Programs := [guideProgram "y" "T2" "B2"; guideProgram "y" "T3" "B3"] |};
              ChannelMap := {["y" := "ESPN"]} |} in
  let results := [Some a; Some b] in
  let merged := MergeEPGs range_canon results in
  (∃ ch0, ch0 ∈ [guideChannel "x" "ESPN HD"] ∧ ID ch0 = "x"
          ∧ entriesFor "ESPN" (MergedChannels merged) = [withDisplayName "ESPN" ch0]
          ∧ ID (withDisplayName "ESPN" ch0) = "x"
          ∧ DisplayName (withDisplayName "ESPN" ch0) = "ESPN"
          ∧ ChIcon (withDisplayName "ESPN" ch0) = ChIcon ch0)
  ∧ m3uToEPGID (mergeSources range_canon results) !! "ESPN" = Some "x"
  ∧ (∀ j epg cm id p,
       liveSource results j epg cm → cm !! id = Some "ESPN" →
       p ∈ Programs epg → PChannel p = id →
       ∃ q, q ∈ MergedPrograms merged ∧ PChannel q = "x" ∧ Start q = Start p).
Proof.
  apply (merge_first_source_owns range_canon _ "ESPN" 0%nat
           {| Channels := [guideChannel "x" "ESPN HD"];
              Programs := [guideProgram "x" "T1" "A1"; guideProgram "x" "T2" "A2"] |}
           {["x" := "ESPN"]} "x" (guideChannel "x" "ESPN HD")).
  - exact range_canon_ok.
  - reflexivity.
  - vm_compute. reflexivity.
  - intros id [-> _]%lookup_singleton_Some. reflexivity.
  - intros j epg cm id Hj. lia.
  - left.
  - reflexivity.
Defined.

(** The whole result of that merge: one channel "x" named "ESPN", the
    programs of "x" and, under "x", the program of "y" whose start is new. *)
Example merge_two_sources :
  let a := {| EPG := Some {| Channels := [guideChannel "x" "ESPN HD"];
                             Programs := [guideProgram "x" "T1" "A1"; guideProgram "x" "T2" "A2"] |};
              ChannelMap := {["x" := "ESPN"]} |} in
  let b := {| EPG := Some {| Channels := [guideChannel "y" "Espn"];
                             Programs := [guideProgram "y" "T2" "B2"; guideProgram "y" "T3" "B3"] |};
              ChannelMap := {["y" := "ESPN"]} |} in
  let merged := MergeEPGs range_canon [Some a; Some b] in
  MergedChannels merged = [guideChannel "x" "ESPN"]
  ∧ MergedPrograms merged
    = [guideProgram "x" "T1" "A1"; guideProgram "x" "T2" "A2"; guideProgram "x" "T3" "B3"]
  ∧ map_to_list (MergedChannelMap merged) = [("x", "ESPN")].
Proof. vm_compute. done. Qed.

(** * Further properties *)

(** ** The lookup tables built from the playlist *)

Lemma playlist_last_snoc {A : Type} (P : A → Prop) `{!∀ x, Decision (P x)}
    (l : list A) (x : A) :
  last (filter P (l ++ [x])) = if decide (P x) then Some x else last (filter P l).
Proof.
  rewrite filter_app, filter_cons, filter_nil.
  destruct (decide (P x)); [by rewrite last_snoc|by rewrite app_nil_r].
Qed.

Lemma playlist_head_snoc {A : Type} (P : A → Prop) `{!∀ x, Decision (P x)}
    (l : list A) (x : A) :
  head (filter P (l ++ [x]))
  = match head (filter P l) with
    | Some y => Some y
    | None => if decide (P x) then Some x else None
    end.
Proof.
  rewrite filter_app, filter_cons, filter_nil.
  destruct (filter P l) as [|y l']; simpl; [|done]. by destruct (decide (P x)).
Qed.

(** X1: [buildChannelNameMap] holds exactly the non-empty display names of
    the playlist. *)
Theorem buildChannelNameMap_spec (m3uChannels : list m3u.Channel) (name : string) :
  name ∈ buildChannelNameMap m3uChannels ↔ playlistName m3uChannels name.
Proof.
  unfold buildChannelNameMap, playlistName.
  induction m3uChannels as [|x l IH] using rev_ind.
  - simpl. split; [by intros ?%not_elem_of_empty|]. by intros (_ & c & ?%elem_of_nil & _).
  - rewrite foldl_app. cbn [foldl]. destruct (decide (m3u.Name x ≠ "")) as [Hx|Hx].
    + rewrite elem_of_union, elem_of_singleton, IH. split.
      * intros [->|(Hn & c & Hc & Hcn)]; (split; [done|]).
        -- exists x. split; [|done]. apply elem_of_app. right. by left.
        -- exists c. split; [|done]. apply elem_of_app. by left.
      * intros (Hn & c & [Hc|Hc%list_elem_of_singleton]%elem_of_app & Hcn).
        -- right. split; [done|]. by exists c.
        -- left. by subst.
    + rewrite IH. split.
      * intros (Hn & c & Hc & Hcn). split; [done|]. exists c. split; [|done].
        apply elem_of_app. by left.
      * intros (Hn & c & [Hc|Hc%list_elem_of_singleton]%elem_of_app & Hcn).
        -- split; [done|]. by exists c.
        -- subst. by destruct Hx.
Qed.

(** X2: under a guide-id hint [buildTVGIDMap] keeps the name of the last
    playlist entry that carries the hint and a non-empty name; the empty
    hint is no key. *)
Theorem buildTVGIDMap_last_wins (m3uChannels : list m3u.Channel) (tvgID : string) :
  buildTVGIDMap m3uChannels !! tvgID
  = m3u.Name <$> last (filter (hintedAs tvgID) m3uChannels).
Proof.
  unfold buildTVGIDMap. induction m3uChannels as [|x l IH] using rev_ind; [done|].
  rewrite foldl_app, playlist_last_snoc. cbn [foldl].
  destruct (decide (hintedAs tvgID x)) as [(He & H1 & H2)|Hh].
  - rewrite decide_True by done. by rewrite He, lookup_insert_eq.
  - destruct (decide (m3u.TVGID x ≠ "" ∧ m3u.Name x ≠ "")) as [[H1 H2]|Hn]; [|apply IH].
    rewrite lookup_insert_ne; [apply IH|]. intros He. by apply Hh.
Qed.

(** X3: under a playlist name [buildCategoryMap] keeps the group label of
    the last entry of that name with a non-empty label. *)
Theorem buildCategoryMap_last_wins (m3uChannels : list m3u.Channel) (name : string) :
  buildCategoryMap m3uChannels !! name
  = m3u.Group <$> last (filter (groupedAs name) m3uChannels).
Proof.
  unfold buildCategoryMap. induction m3uChannels as [|x l IH] using rev_ind; [done|].
  rewrite foldl_app, playlist_last_snoc. cbn [foldl].
  destruct (decide (groupedAs name x)) as [(He & H1 & H2)|Hh].
  - rewrite decide_True by done. by rewrite He, lookup_insert_eq.
  - destruct (decide (m3u.Name x ≠ "" ∧ m3u.Group x ≠ "")) as [[H1 H2]|Hn]; [|apply IH].
    rewrite lookup_insert_ne; [apply IH|]. intros He. by apply Hh.
Qed.

Lemma namesWithTVGID_spec m3uChannels name :
  name ∈ namesWithTVGID m3uChannels
  ↔ name ≠ "" ∧ ∃ c, c ∈ m3uChannels ∧ m3u.Name c = name ∧ m3u.TVGID c ≠ "".
Proof.
  unfold namesWithTVGID. induction m3uChannels as [|x l IH] using rev_ind.
  - simpl. split; [by intros ?%not_elem_of_empty|]. by intros (_ & c & ?%elem_of_nil & _).
  - rewrite foldl_app. cbn [foldl].
    destruct (decide (m3u.TVGID x ≠ "" ∧ m3u.Name x ≠ "")) as [[H1 H2]|Hn].
    + rewrite elem_of_union, elem_of_singleton, IH. split.
      * intros [->|(Hne & c & Hc & Hcn & Hid)]; (split; [done|]).
        -- exists x. split; [|done]. apply elem_of_app. right. by left.
        -- exists c. split; [|done]. apply elem_of_app. by left.
      * intros (Hne & c & [Hc|Hc%list_elem_of_singleton]%elem_of_app & Hcn & Hid).
        -- right. split; [done|]. by exists c.
        -- left. by subst.
    + rewrite IH. split.
      * intros (Hne & c & Hc & Hcn & Hid). split; [done|]. exists c. split; [|done].
        apply elem_of_app. by left.
      * intros (Hne & c & [Hc|Hc%list_elem_of_singleton]%elem_of_app & Hcn & Hid).
        -- split; [done|]. by exists c.
        -- subst. destruct Hn. by split.
Qed.

Lemma foldl_normalized_first hinted l key :
  foldl (λ normalizedMap channel,
           if decide (m3u.TVGID channel ≠ "") then normalizedMap
           else if decide (m3u.Name channel ∈ hinted) then normalizedMap
           else if decide (m3u.Name channel ≠ "") then
             let normalized := normalizeChannelName (m3u.Name channel) in
             let region := extractRegion (m3u.Name channel) in
             match normalizedMap !! normalized with
             | Some _ => normalizedMap
             | None =>
                 <[normalized := {| originalName := m3u.Name channel;
                                    normalizedName := normalized;
                                    region := region |}]> normalizedMap
             end
           else normalizedMap)
        (∅ : gmap string m3uNormalizedInfo) l !! key
  = normalizedInfoOf <$> head (filter (normalizedAs hinted key) l).
Proof.
  induction l as [|x l IH] using rev_ind; [done|].
  rewrite foldl_app, playlist_head_snoc. cbn [foldl]. cbn zeta.
  set (m := foldl _ ∅ l) in *.
  assert (∀ o : option m3u.Channel,
            normalizedInfoOf <$> match head (filter (normalizedAs hinted key) l) with
                                 | Some y => Some y | None => o end
            = match m !! key with Some i => Some i | None => normalizedInfoOf <$> o end)
    as Hhead.
  { intros o. rewrite IH. by destruct (head _). }
  rewrite Hhead. clear Hhead.
  destruct (decide (normalizedAs hinted key x)) as [(H1 & H2 & H3 & Hk)|Hn].
  - rewrite decide_False by (by intros ?). rewrite decide_False by done.
    rewrite decide_True by done. subst key.
    destruct (m !! normalizeChannelName (m3u.Name x)) as [old|] eqn:E.
    + by rewrite E.
    + by rewrite lookup_insert_eq.
  - assert (∀ m' : gmap string m3uNormalizedInfo, m' !! key = m !! key →
              m' !! key = match m !! key with Some i => Some i | None => None end) as Hsame.
    { intros m' ->. by destruct (m !! key). }
    destruct (decide (m3u.TVGID x ≠ "")) as [H1|H1]; [by apply Hsame|].
    destruct (decide (m3u.Name x ∈ hinted)) as [H2|H2]; [by apply Hsame|].
    destruct (decide (m3u.Name x ≠ "")) as [H3|H3]; [|by apply Hsame].
    apply Hsame. destruct (m !! normalizeChannelName (m3u.Name x)); [done|].
    rewrite lookup_insert_ne; [done|]. intros Hk. apply Hn.
    split_and!; try done. by destruct (decide (m3u.TVGID x = "")).
Qed.

Lemma buildNormalizedNameMap_first (m3uChannels : list m3u.Channel) (key : string) :
  buildNormalizedNameMap m3uChannels !! key
  = normalizedInfoOf <$>
      head (filter (normalizedAs (namesWithTVGID m3uChannels) key) m3uChannels).
Proof. apply foldl_normalized_first. Qed.

(** ** The passes of the matcher *)

Lemma stateGrows_refl s : stateGrows s s.
Proof. by repeat split. Qed.

Lemma stateGrows_trans s1 s2 s3 : stateGrows s1 s2 → stateGrows s2 s3 → stateGrows s1 s3.
Proof.
  intros (E1 & C1 & M1 & G1) (E2 & C2 & M2 & G2).
  split_and!; [congruence|congruence|set_solver|set_solver].
Qed.

Lemma addMatch_grows i name s s' : addMatch i name s = Some s' → stateGrows s s'.
Proof.
  unfold addMatch. destruct (epgChannels s !! i) as [ch|]; simpl; [|done].
  intros [= <-]. split_and!; simpl; [done|done|set_solver|set_solver].
Qed.

Lemma forEach_grows {A : Type} (l : list A) (body : A → matcherState → option matcherState)
    (s s' : matcherState) :
  (∀ x t t', x ∈ l → body x t = Some t' → stateGrows t t') →
  forEach l body s = Some s' → stateGrows s s'.
Proof.
  intros Hbody Hrun.
  apply (forEach_Some_inv (stateGrows s) _ _ _ _ Hrun); [apply stateGrows_refl|].
  intros x t t' Hx Hb Ht. eapply stateGrows_trans; [done|]. by eapply Hbody.
Qed.

Lemma matchByTVGID_grows order s s' : matchByTVGID order s = Some s' → stateGrows s s'.
Proof.
  apply forEach_grows. intros [tvgID name] t t' _ Hb.
  destruct (decide (name ∈ matchedM3U t)); [simplify_eq; apply stateGrows_refl|].
  cbn zeta in Hb.
  destruct (decide (length (default [] (epgIDToCandidates t !! tvgID)) = 0%nat));
    [simplify_eq; apply stateGrows_refl|].
  destruct (findBestTVGIDCandidate t _ name) as [r|]; simpl in Hb; [|done].
  destruct (0 <=? r); [by eapply addMatch_grows|simplify_eq; apply stateGrows_refl].
Qed.

Lemma matchByDisplayName_grows channelNameMap s s' :
  matchByDisplayName channelNameMap s = Some s' → stateGrows s s'.
Proof.
  apply forEach_grows. intros [i ch] t t' _ Hb.
  destruct (decide (i ∈ matchedEPG t)); [simplify_eq; apply stateGrows_refl|].
  destruct (decide (_ ∨ _)); [simplify_eq; apply stateGrows_refl|].
  by eapply addMatch_grows.
Qed.

Lemma matchByNormalizedName_grows order s s' :
  matchByNormalizedName order s = Some s' → stateGrows s s'.
Proof.
  apply forEach_grows. intros [key info] t t' _ Hb.
  destruct (decide (originalName info ∈ matchedM3U t)); [simplify_eq; apply stateGrows_refl|].
  cbn zeta in Hb.
  destruct (0 <=? _); [by eapply addMatch_grows|simplify_eq; apply stateGrows_refl].
Qed.

(** The candidate lists of a fresh state hold every guide channel with a
    non-empty identifier. *)
Lemma candidates_complete chs i ch :
  chs !! i = Some ch → ID ch ≠ "" →
  ∃ cands, epgIDToCandidates (newMatcherState chs) !! ID ch = Some cands ∧ i ∈ cands.
Proof.
  simpl. revert i ch. induction chs as [|x l IH] using rev_ind; intros i ch Hi Hid.
  { by rewrite lookup_nil in Hi. }
  rewrite indexed_snoc, foldl_app. cbn [foldl].
  set (m := foldl _ ∅ (indexed l)) in *.
  apply lookup_app_Some in Hi as [Hi|[Hlen Hi]].
  - destruct (IH i ch Hi Hid) as (cands & Hc & Hin).
    destruct (decide (ID x ≠ "")); [|by eauto].
    rewrite lookup_insert. destruct (decide (ID x = ID ch)) as [He|He]; [|by eauto].
    rewrite He, Hc. simpl. eexists. split; [done|]. apply elem_of_app. by left.
  - apply list_lookup_singleton_Some in Hi as [Hi <-].
    rewrite decide_True by done. rewrite lookup_insert_eq.
    eexists. split; [done|]. apply elem_of_app. right.
    apply list_elem_of_singleton. lia.
Qed.

Lemma findBestTVGIDCandidateFrom_eq s candidates m3uName bestIdx :
  (∀ i, i ∈ candidates → is_Some (epgChannels s !! i)) →
  findBestTVGIDCandidateFrom s candidates m3uName bestIdx
  = Some (match list_find (displayNameAt s m3uName) (unmatchedCandidates s candidates) with
          | Some (_, i) => Z.of_nat i
          | None =>
              if bestIdx =? -1 then
                match unmatchedCandidates s candidates with
                | i :: _ => Z.of_nat i
                | [] => -1
                end
              else bestIdx
          end).
Proof.
  revert bestIdx. unfold unmatchedCandidates.
  induction candidates as [|idx rest IH]; intros bestIdx Hvalid.
  { simpl. by destruct (bestIdx =? -1) eqn:E; [apply Z.eqb_eq in E; subst|]. }
  assert (∀ i, i ∈ rest → is_Some (epgChannels s !! i)) as Hrest.
  { intros i Hi. apply Hvalid. by right. }
  cbn [findBestTVGIDCandidateFrom]. rewrite filter_cons.
  destruct (decide (idx ∈ matchedEPG s)) as [Hm|Hm].
  { rewrite decide_False by (by intros ?). by apply IH. }
  rewrite decide_True by done.
  destruct (Hvalid idx) as [ch Hch]; [by left|]. rewrite Hch. simpl.
  cbn [list_find].
  assert (displayNameAt s m3uName idx ↔ DisplayName ch = m3uName) as Hat.
  { unfold displayNameAt. rewrite Hch. simpl. split; [by intros [= ?]|by intros ->]. }
  destruct (decide (DisplayName ch = m3uName)) as [Hd|Hd].
  - rewrite decide_True by (by apply Hat). done.
  - rewrite decide_False by (by intros ?%Hat).
    rewrite IH by done. f_equal.
    destruct (list_find _ (filter _ rest)) as [[k i]|]; simpl; [done|].
    destruct (bestIdx =? -1) eqn:E; [|by rewrite E].
    assert ((Z.of_nat idx =? -1) = false) as -> by (apply Z.eqb_neq; lia). done.
Qed.

Lemma findBestTVGIDCandidate_eq s candidates m3uName :
  (∀ i, i ∈ candidates → is_Some (epgChannels s !! i)) →
  findBestTVGIDCandidate s candidates m3uName
  = Some (bestTVGIDCandidate s candidates m3uName).
Proof.
  intros Hvalid. unfold findBestTVGIDCandidate. by rewrite findBestTVGIDCandidateFrom_eq.
Qed.

Lemma bestTVGIDCandidate_none s candidates m3uName :
  bestTVGIDCandidate s candidates m3uName = -1
  ↔ ∀ i, i ∈ candidates → i ∈ matchedEPG s.
Proof.
  unfold bestTVGIDCandidate.
  destruct (list_find _ _) as [[k i]|] eqn:E.
  - split; [lia|]. intros Hall.
    apply list_find_Some in E as (Hk & _ & _).
    apply list_elem_of_lookup_2, list_elem_of_filter in Hk as [Hn Hi].
    destruct (Hn (Hall i Hi)).
  - destruct (unmatchedCandidates s candidates) as [|i un] eqn:Eu.
    + split; [|done]. intros _ i Hi.
      destruct (decide (i ∈ matchedEPG s)) as [|Hn]; [done|].
      assert (i ∈ unmatchedCandidates s candidates) as Hin
        by (by apply list_elem_of_filter).
      rewrite Eu in Hin. by apply elem_of_nil in Hin.
    + split; [lia|]. intros Hall.
      assert (i ∈ unmatchedCandidates s candidates) as Hin by (rewrite Eu; left).
      apply list_elem_of_filter in Hin as [Hn Hi]. destruct (Hn (Hall i Hi)).
Qed.

(** X5: among the guide channels of a hint, [findBestTVGIDCandidate] picks
    the first unmatched one whose display name is the playlist name; if
    there is none, the first unmatched one; and [-1] only when all are
    matched. *)
Theorem findBestTVGIDCandidate_spec (s : matcherState) (candidates : list nat)
    (m3uName : string) :
  (∀ i, i ∈ candidates → is_Some (epgChannels s !! i)) →
  findBestTVGIDCandidate s candidates m3uName
  = Some (bestTVGIDCandidate s candidates m3uName)
  ∧ (bestTVGIDCandidate s candidates m3uName = -1
     ↔ ∀ i, i ∈ candidates → i ∈ matchedEPG s).
Proof.
  intros Hvalid. split.
  - by apply findBestTVGIDCandidate_eq.
  - apply bestTVGIDCandidate_none.
Qed.

Lemma findBestTVGIDCandidate_spec_witness :
  let s := newMatcherState [guideChannel "espn" "ESPN East"; guideChannel "espn" "ESPN"] in
  findBestTVGIDCandidate s [0; 1]%nat "ESPN" = Some (bestTVGIDCandidate s [0; 1]%nat "ESPN")
  ∧ (bestTVGIDCandidate s [0; 1]%nat "ESPN" = -1
     ↔ ∀ i, i ∈ [0; 1]%nat → i ∈ matchedEPG s).
Proof.
  apply (findBestTVGIDCandidate_spec
           (newMatcherState [guideChannel "espn" "ESPN East"; guideChannel "espn" "ESPN"])
           [0; 1]%nat "ESPN").
  intros i Hi. apply lookup_lt_is_Some. simpl.
  apply elem_of_cons in Hi as [->|Hi]; [lia|].
  apply list_elem_of_singleton in Hi as ->. lia.
Defined.

Lemma bestTVGIDCandidate_sign s candidates m3uName :
  bestTVGIDCandidate s candidates m3uName = -1 ∨ 0 ≤ bestTVGIDCandidate s candidates m3uName.
Proof.
  unfold bestTVGIDCandidate. destruct (list_find _ _) as [[k i]|]; [right; lia|].
  destruct (unmatchedCandidates s candidates); [by left|right; lia].
Qed.

(** In the embedding the three passes return on every input. *)
Lemma identifier_pass_run (range : RangeOracle) (chs : list Channel)
    (channelNameMap : gset string) (tvgIDMap : gmap string string)
    (normalizedNameMap : gmap string m3uNormalizedInfo) (tvgID name : string) :
  range_ok range → tvgIDMap !! tvgID = Some name → tvgID ≠ "" →
  ∃ s, runMatcher range chs channelNameMap tvgIDMap normalizedNameMap = Some s
       ∧ (name ∈ matchedM3U s
          ∨ ∀ i ch, chs !! i = Some ch → ID ch = tvgID → i ∈ matchedEPG s).
Proof.
  intros Hr Hlook Hid.
  set (s0 := newMatcherState chs).
  destruct (matchByTVGID_runFrom chs [] (range 1%nat _ tvgIDMap) s0)
    as (s1 & H1 & R1); [apply runFrom_refl; constructor|].
  destruct (matchByDisplayName_runFrom chs [] channelNameMap s1 R1) as (s2 & H2 & R2).
  destruct (matchByNormalizedName_runFrom chs [] (range 2%nat _ normalizedNameMap) s2 R2)
    as (s3 & H3 & R3).
  exists s3. split.
  { unfold runMatcher. fold s0. rewrite H1. simpl. rewrite H2. simpl. done. }
  set (Q := λ t, name ∈ matchedM3U t
                 ∨ ∀ i ch, chs !! i = Some ch → ID ch = tvgID → i ∈ matchedEPG t).
  assert (∀ t t', stateGrows t t' → Q t → Q t') as Hmono.
  { intros t t' (_ & _ & HM & HE) [Hq|Hq]; [left; by apply HM|].
    right. intros i ch Hi Hc. by apply HE, (Hq i ch). }
  apply (Hmono s2); [by eapply matchByNormalizedName_grows|].
  apply (Hmono s1); [by eapply matchByDisplayName_grows|].
  assert ((tvgID, name) ∈ range 1%nat _ tvgIDMap) as Hin
    by (by apply (range_elem_of range 1%nat tvgIDMap tvgID name Hr)).
  apply list_elem_of_split in Hin as (l1 & l2 & Ho).
  unfold matchByTVGID in H1. rewrite Ho in H1.
  apply forEach_middle in H1 as (t1 & t2 & E1 & E2 & E3).
  apply (Hmono t2); [by apply (matchByTVGID_grows l2)|].
  pose proof (matchByTVGID_grows l1 s0 t1 E1) as (He & Hc & _ & _).
  destruct (decide (name ∈ matchedM3U t1)) as [Hm|Hm]; [left; by simplify_eq|].
  cbn zeta in E2. rewrite Hc in E2.
  assert (∀ i ch, chs !! i = Some ch → ID ch = tvgID →
            i ∈ default [] (epgIDToCandidates s0 !! tvgID)) as Hcomplete.
  { intros i ch Hi Hch. subst tvgID.
    destruct (candidates_complete chs i ch Hi Hid) as (cands & Hcands & Hic).
    fold s0 in Hcands. by rewrite Hcands. }
  destruct (decide (length (default [] (epgIDToCandidates s0 !! tvgID)) = 0%nat))
    as [Hlen|Hlen].
  { right. intros i ch Hi Hch. specialize (Hcomplete i ch Hi Hch).
    apply nil_length_inv in Hlen. rewrite Hlen in Hcomplete.
    by apply elem_of_nil in Hcomplete. }
  pose proof (bestTVGIDCandidate_none t1 (default [] (epgIDToCandidates s0 !! tvgID)) name)
    as Hneg.
  assert (findBestTVGIDCandidate t1 (default [] (epgIDToCandidates s0 !! tvgID)) name
          = Some (bestTVGIDCandidate t1 (default [] (epgIDToCandidates s0 !! tvgID)) name))
    as Hbest.
  { apply findBestTVGIDCandidate_eq. intros i Hi. rewrite He.
    destruct (epgIDToCandidates s0 !! tvgID) as [l|] eqn:El; simpl in Hi;
      [|by apply elem_of_nil in Hi].
    destruct (candidates_valid chs tvgID l i El Hi) as (ch & Hch & _). by exists ch. }
  rewrite Hbest in E2. cbn [mbind option_bind] in E2.
  destruct (bestTVGIDCandidate_sign t1 (default [] (epgIDToCandidates s0 !! tvgID)) name)
    as [Hb|Hb].
  - right. intros i ch Hi Hch. rewrite Hb in E2. change (0 <=? -1) with false in E2. cbn iota in E2. injection E2 as <-.
    apply Hneg; [done|]. by eapply Hcomplete.
  - rewrite (proj2 (Z.leb_le _ _) Hb) in E2.
    apply addMatch_Some_sets in E2 as [HM _]. unfold Q. left. rewrite HM. by apply elem_of_union_l, elem_of_singleton.
Qed.


Lemma exact_names_run (range : RangeOracle) (chs : list Channel)
    (channelNameMap : gset string) (tvgIDMap : gmap string string)
    (normalizedNameMap : gmap string m3uNormalizedInfo) (i : nat) (ch : Channel) :
  chs !! i = Some ch → DisplayName ch ∈ channelNameMap →
  ∃ s, runMatcher range chs channelNameMap tvgIDMap normalizedNameMap = Some s
       ∧ (i ∈ matchedEPG s ∨ DisplayName ch ∈ matchedM3U s).
Proof.
  intros Hi Hn.
  destruct (matchByTVGID_runFrom chs [] (range 1%nat _ tvgIDMap) (newMatcherState chs))
    as (s1 & H1 & R1); [apply runFrom_refl; constructor|].
  destruct (matchByDisplayName_runFrom chs [] channelNameMap s1 R1) as (s2 & H2 & R2).
  destruct (matchByNormalizedName_runFrom chs [] (range 2%nat _ normalizedNameMap) s2 R2)
    as (s3 & H3 & R3).
  exists s3. split.
  { unfold runMatcher. rewrite H1. simpl. rewrite H2. simpl. done. }
  pose proof (matchByDisplayName_grows _ _ _ H2) as (_ & _ & _ & G2).
  pose proof (matchByNormalizedName_grows _ _ _ H3) as (_ & _ & M3 & G3).
  destruct (decide (i ∈ matchedEPG s1)) as [Hm|Hm]; [left; by apply G3, G2|].
  right. apply M3. destruct R1 as [new R1].
  eapply matchByDisplayName_claims; [done| |done|done].
  by rewrite (inv_epgChannels _ _ _ (matcherRun_inv _ _ _ R1)).
Qed.


(** ** Counting the matches *)

Lemma matcherRun_sizes chs matches s :
  matcherRun chs matches s →
  size (matchedEPG s) = length matches ∧ size (matchedM3U s) = length matches
  ∧ (size (channelIDMap s) ≤ length matches)%nat.
Proof.
  induction 1 as [|matches s i ch name s' Hrun (IH1 & IH2 & IH3) Hi HnE HnM Hadd].
  - split_and!; [done|done|]. simpl. by rewrite map_size_empty.
  - unfold addMatch in Hadd.
    rewrite (inv_epgChannels _ _ _ (matcherRun_inv _ _ _ Hrun)), Hi in Hadd.
    simpl in Hadd. injection Hadd as <-. simpl. rewrite length_app. simpl.
    split_and!.
    + rewrite size_union by (by apply disjoint_singleton_l).
      rewrite size_singleton, IH1. lia.
    + rewrite size_union by (by apply disjoint_singleton_l).
      rewrite size_singleton, IH2. lia.
    + rewrite map_size_insert. destruct (channelIDMap s !! _); simpl; lia.
Qed.

Lemma counts_run (range : RangeOracle) (chs : list Channel)
    (channelNameMap : gset string) (tvgIDMap : gmap string string)
    (normalizedNameMap : gmap string m3uNormalizedInfo) :
  ∃ s, runMatcher range chs channelNameMap tvgIDMap normalizedNameMap = Some s
       ∧ length (matchedChannels s) = size (matchedEPG s)
       ∧ length (matchedChannels s) = size (matchedM3U s)
       ∧ (length (matchedChannels s) ≤ length chs)%nat
       ∧ (size (channelIDMap s) ≤ length (matchedChannels s))%nat.
Proof.
  destruct (runMatcher_run range chs channelNameMap tvgIDMap normalizedNameMap)
    as (s & matches & Hs & Hrun).
  exists s. split; [done|].
  pose proof (matcherRun_inv _ _ _ Hrun) as Hinv.
  destruct (matcherRun_sizes _ _ _ Hrun) as (S1 & S2 & S3).
  assert (length (matchedChannels s) = length matches) as Hlen.
  { by rewrite (inv_matchedChannels _ _ _ Hinv), finalizeAll_length, length_fmap. }
  split_and!; [congruence|congruence| |lia].
  rewrite Hlen, <- S1, <- (size_set_seq (C:=gset nat) 0 (length chs)).
  apply subseteq_size. intros i Hi. apply elem_of_set_seq.
  pose proof (inv_matchedEPG _ _ _ Hinv i Hi). lia.
Qed.

(** ** What [FilterForMerge] returns *)

Lemma matcherRun_channels chs matches s :
  matcherRun chs matches s →
  (∀ c, c ∈ matches.*1 → c ∈ chs)
  ∧ (∀ ch, ch ∈ matchedChannels s → is_Some (channelIDMap s !! ID ch)).
Proof.
  induction 1 as [|matches s i ch name s' Hrun [IH1 IH2] Hi HnE HnM Hadd].
  - split; intros c Hc; by apply elem_of_nil in Hc.
  - unfold addMatch in Hadd.
    rewrite (inv_epgChannels _ _ _ (matcherRun_inv _ _ _ Hrun)), Hi in Hadd.
    simpl in Hadd. injection Hadd as <-. simpl. split.
    + intros c. rewrite fmap_app. intros [Hc|Hc%list_elem_of_singleton]%elem_of_app.
      * by apply IH1.
      * simpl in Hc. subst c. by eapply list_elem_of_lookup_2.
    + intros c [Hc|Hc%list_elem_of_singleton]%elem_of_app.
      * rewrite lookup_insert. case_decide; [done|by apply IH2].
      * subst c. simpl. by rewrite lookup_insert_eq.
Qed.

Lemma finalizeAll_elem l ch :
  ch ∈ finalizeAll l → ∃ ch0, ch0 ∈ l ∧ finalizedFrom ch0 ch.
Proof.
  intros [k Hk]%list_elem_of_lookup_1. unfold finalizeAll in Hk.
  rewrite finalizeFrom_lookup in Hk.
  destruct (l !! k) as [ch0|] eqn:E; [|done]. simpl in Hk. injection Hk as <-.
  exists ch0. split; [by eapply list_elem_of_lookup_2|].
  unfold finalizedFrom, finalizeNth, ensureID. split_and!.
  - by destruct (decide (ID ch0 = "")).
  - by destruct (decide (ID ch0 = "")).
  - exists (usesOf (originalID ch0) ([] ++ take k l) + 1). split; [|done].
    pose proof (usesOf_nonneg (originalID ch0) ([] ++ take k l)). lia.
Qed.

Lemma matchByTVGID_names (N : string → Prop) order s s' :
  matchByTVGID order s = Some s' →
  (∀ k name, (k, name) ∈ order → N name) →
  (∀ n, n ∈ matchedM3U s → N n) → ∀ n, n ∈ matchedM3U s' → N n.
Proof.
  intros Hrun Hord Hs.
  apply (forEach_Some_inv (λ t, ∀ n, n ∈ matchedM3U t → N n) _ _ _ _ Hrun Hs).
  intros [k name] t t' Hx Hb Ht.
  destruct (decide (name ∈ matchedM3U t)); [by simplify_eq|].
  cbn zeta in Hb.
  destruct (decide (length (default [] (epgIDToCandidates t !! k)) = 0%nat));
    [by simplify_eq|].
  destruct (findBestTVGIDCandidate _ _ _) as [b|]; [|done]. cbn [mbind option_bind] in Hb.
  destruct (0 <=? b); [|by simplify_eq].
  apply addMatch_Some_sets in Hb as [HM _]. intros m. rewrite HM.
  intros [->%elem_of_singleton|Hm]%elem_of_union; [by eapply Hord|by apply Ht].
Qed.

Lemma matchByDisplayName_names (N : string → Prop) channelNameMap s s' :
  matchByDisplayName channelNameMap s = Some s' →
  (∀ name, name ∈ channelNameMap → N name) →
  (∀ n, n ∈ matchedM3U s → N n) → ∀ n, n ∈ matchedM3U s' → N n.
Proof.
  intros Hrun Hord Hs.
  apply (forEach_Some_inv (λ t, ∀ n, n ∈ matchedM3U t → N n) _ _ _ _ Hrun Hs).
  intros [i ch] t t' Hx Hb Ht.
  destruct (decide (i ∈ matchedEPG t)); [by simplify_eq|].
  destruct (decide (_ ∨ _)) as [|Hno]; [by simplify_eq|].
  apply addMatch_Some_sets in Hb as [HM _]. intros m. rewrite HM.
  intros [->%elem_of_singleton|Hm]%elem_of_union; [|by apply Ht].
  apply Hord. destruct (decide (DisplayName ch ∈ channelNameMap)); [done|].
  destruct Hno. by left.
Qed.

Lemma matchByNormalizedName_names (N : string → Prop) order s s' :
  matchByNormalizedName order s = Some s' →
  (∀ k info, (k, info) ∈ order → N (originalName info)) →
  (∀ n, n ∈ matchedM3U s → N n) → ∀ n, n ∈ matchedM3U s' → N n.
Proof.
  intros Hrun Hord Hs.
  apply (forEach_Some_inv (λ t, ∀ n, n ∈ matchedM3U t → N n) _ _ _ _ Hrun Hs).
  intros [k info] t t' Hx Hb Ht.
  destruct (decide (originalName info ∈ matchedM3U t)); [by simplify_eq|].
  cbn zeta in Hb. destruct (0 <=? _); [|by simplify_eq].
  apply addMatch_Some_sets in Hb as [HM _]. intros m. rewrite HM.
  intros [->%elem_of_singleton|Hm]%elem_of_union; [by eapply Hord|by apply Ht].
Qed.

Lemma buildTVGIDMap_value m3uChannels tvgID name :
  buildTVGIDMap m3uChannels !! tvgID = Some name → playlistName m3uChannels name.
Proof.
  unfold buildTVGIDMap, playlistName. revert tvgID name.
  induction m3uChannels as [|x l IH] using rev_ind; intros tvgID name; [done|].
  rewrite foldl_app. cbn [foldl].
  assert (∀ name, (name ≠ "" ∧ ∃ c, c ∈ l ∧ m3u.Name c = name) →
                  name ≠ "" ∧ ∃ c, c ∈ l ++ [x] ∧ m3u.Name c = name) as Hweak.
  { intros n (Hn & c & Hc & E). split; [done|]. exists c. split; [|done].
    apply elem_of_app. by left. }
  destruct (decide _) as [[H1 H2]|]; [|by intros ?%IH%Hweak].
  rewrite lookup_insert. case_decide; [|by intros ?%IH%Hweak].
  intros [= <-]. split; [done|]. exists x. split; [|done].
  apply elem_of_app. right. by left.
Qed.

Lemma buildNormalizedNameMap_value m3uChannels key info :
  buildNormalizedNameMap m3uChannels !! key = Some info →
  playlistName m3uChannels (originalName info).
Proof.
  unfold buildNormalizedNameMap, playlistName. cbn zeta.
  generalize (namesWithTVGID m3uChannels) as hinted. intros hinted. revert key info.
  induction m3uChannels as [|x l IH] using rev_ind; intros key info; [done|].
  rewrite foldl_app. cbn [foldl].
  assert (∀ name, (name ≠ "" ∧ ∃ c, c ∈ l ∧ m3u.Name c = name) →
                  name ≠ "" ∧ ∃ c, c ∈ l ++ [x] ∧ m3u.Name c = name) as Hweak.
  { intros n (Hn & c & Hc & E). split; [done|]. exists c. split; [|done].
    apply elem_of_app. by left. }
  destruct (decide (m3u.TVGID x ≠ "")); [by intros ?%IH%Hweak|].
  destruct (decide (m3u.Name x ∈ hinted)); [by intros ?%IH%Hweak|].
  destruct (decide (m3u.Name x ≠ "")); [|by intros ?%IH%Hweak].
  cbn zeta. destruct (foldl _ _ l !! normalizeChannelName (m3u.Name x)) eqn:E;
    [by intros ?%IH%Hweak|].
  rewrite lookup_insert. case_decide; [|by intros ?%IH%Hweak].
  intros [= <-]. simpl. split; [done|]. exists x. split; [|done].
  apply elem_of_app. right. by left.
Qed.

Lemma buildChannelNameMap_value m3uChannels name :
  name ∈ buildChannelNameMap m3uChannels → playlistName m3uChannels name.
Proof.
  unfold buildChannelNameMap, playlistName.
  induction m3uChannels as [|x l IH] using rev_ind; [by intros ?%elem_of_empty|].
  rewrite foldl_app. cbn [foldl].
  assert ((name ≠ "" ∧ ∃ c, c ∈ l ∧ m3u.Name c = name) →
          name ≠ "" ∧ ∃ c, c ∈ l ++ [x] ∧ m3u.Name c = name) as Hweak.
  { intros (Hn & c & Hc & E). split; [done|]. exists c. split; [|done].
    apply elem_of_app. by left. }
  destruct (decide _) as [H1|]; [|by intros ?%IH%Hweak].
  intros [->%elem_of_singleton|?%IH%Hweak]%elem_of_union; [|done].
  split; [done|]. exists x. split; [|done]. apply elem_of_app. right. by left.
Qed.

(** The names that a run of the matcher over the tables of a playlist
    pairs are names of the playlist. *)
Lemma runMatcher_playlist_names range chs m3uChannels s name :
  range_ok range →
  runMatcher range chs (buildChannelNameMap m3uChannels) (buildTVGIDMap m3uChannels)
             (buildNormalizedNameMap m3uChannels) = Some s →
  name ∈ matchedM3U s → playlistName m3uChannels name.
Proof.
  intros Hr. unfold runMatcher. cbn zeta.
  destruct (matchByTVGID _ _) as [s1|] eqn:H1; [|done]. cbn [mbind option_bind].
  destruct (matchByDisplayName _ _) as [s2|] eqn:H2; [|done]. cbn [mbind option_bind].
  intros H3. revert name.
  apply (matchByNormalizedName_names _ _ _ _ H3).
  { intros k info Hk%(range_elem_of range 2%nat _ _ _ Hr).
    by eapply buildNormalizedNameMap_value. }
  apply (matchByDisplayName_names _ _ _ _ H2).
  { intros name. apply buildChannelNameMap_value. }
  apply (matchByTVGID_names _ _ _ _ H1).
  { intros k name Hk%(range_elem_of range 1%nat _ _ _ Hr).
    by eapply buildTVGIDMap_value. }
  simpl. by intros n ?%elem_of_empty.
Qed.

Lemma FilterForMerge_run range epgData m3uChannels :
  ∃ s matches,
    runMatcher range (Channels epgData) (buildChannelNameMap m3uChannels)
      (buildTVGIDMap m3uChannels) (buildNormalizedNameMap m3uChannels) = Some s
    ∧ matcherRun (Channels epgData) matches s
    ∧ FilterForMerge range epgData m3uChannels
      = Some {| EPG := Some {| Channels := matchedChannels s;
                               Programs :=
                                 foldl (filterProgram (channelIDMap s)
                                          (buildCategoryMap m3uChannels)
                                          (buildOriginalIDMap
                                             (range 3%nat _ (channelIDMap s))))
                                       [] (Programs epgData) |};
                ChannelMap := channelIDMap s |}.
Proof.
  destruct (runMatcher_run range (Channels epgData) (buildChannelNameMap m3uChannels)
              (buildTVGIDMap m3uChannels) (buildNormalizedNameMap m3uChannels))
    as (s & matches & Hs & Hrun).
  exists s, matches. split_and!; [done|done|].
  unfold FilterForMerge, matchChannels. cbn zeta. by rewrite Hs.
Qed.

Lemma FilterForMerge_channels_run (range : RangeOracle) (epgData : TV)
    (m3uChannels : list m3u.Channel) :
  range_ok range →
  ∃ tv cm,
    FilterForMerge range epgData m3uChannels = Some {| EPG := Some tv; ChannelMap := cm |}
    ∧ (∀ id, is_Some (cm !! id) ↔ ∃ ch, ch ∈ Channels tv ∧ ID ch = id)
    ∧ (∀ id name, cm !! id = Some name → playlistName m3uChannels name)
    ∧ (∀ ch, ch ∈ Channels tv → ∃ ch0, ch0 ∈ Channels epgData ∧ finalizedFrom ch0 ch).
Proof.
  intros Hr.
  destruct (FilterForMerge_run range epgData m3uChannels) as (s & matches & Hs & Hrun & ->).
  eexists _, _. split; [done|]. simpl.
  pose proof (matcherRun_inv _ _ _ Hrun) as Hinv.
  destruct (matcherRun_channels _ _ _ Hrun) as [Hfrom Hkeys].
  split_and!.
  - intros id. split; [apply (inv_map_key _ _ _ Hinv)|].
    intros (ch & Hch & <-). by apply Hkeys.
  - intros id name Hid. apply (runMatcher_playlist_names range _ _ s name Hr Hs).
    apply (inv_matchedM3U _ _ _ Hinv). by eapply (inv_map_value _ _ _ Hinv).
  - intros ch. rewrite (inv_matchedChannels _ _ _ Hinv).
    intros (ch0 & Hch0 & Hfin)%finalizeAll_elem. exists ch0. split; [by apply Hfrom|done].
Qed.


(** *** The programs *)

Lemma takeBytes_dropBytes n s : takeBytes n s +:+ dropBytes n s = s.
Proof.
  revert s. induction n as [|n IH]; intros [|c r]; simpl; try done.
  by rewrite app_cons, IH.
Qed.

Lemma LastIndex_prefix s sub :
  0 ≤ LastIndex s sub → HasPrefix (sliceFrom s (LastIndex s sub)) sub = true.
Proof.
  unfold sliceFrom. induction s as [|c r IH]; cbn [LastIndex].
  - destruct (HasPrefix "" sub) eqn:E; [done|lia].
  - cbn zeta. destruct (0 <=? LastIndex r sub) eqn:E.
    + apply Z.leb_le in E. intros _.
      replace (Z.to_nat (LastIndex r sub + 1)) with (S (Z.to_nat (LastIndex r sub))) by lia.
      simpl. by apply IH.
    + destruct (HasPrefix (String c r) sub) eqn:E'; [done|lia].
Qed.

(** A string with a dash splits at its last dash. *)
Lemma LastIndex_split s :
  0 ≤ LastIndex s "-" →
  s = sliceTo s (LastIndex s "-") +:+ "-" +:+ sliceFrom s (LastIndex s "-" + 1).
Proof.
  intros Hi. pose proof (LastIndex_prefix s "-" Hi) as Hp.
  unfold sliceTo, sliceFrom in *.
  replace (Z.to_nat (LastIndex s "-" + 1)) with (Z.to_nat (LastIndex s "-") + 1)%nat by lia.
  rewrite <- dropBytes_dropBytes.
  rewrite <- (takeBytes_dropBytes (Z.to_nat (LastIndex s "-")) s) at 1. f_equal.
  destruct (dropBytes _ s) as [|c r]; [done|]. cbn [HasPrefix] in Hp.
  destruct (decide ("-"%char = c)) as [<-|]; [|done]. done.
Qed.

Lemma buildOriginalIDMap_inv order base l key :
  buildOriginalIDMap order !! base = Some l → key ∈ l →
  (∃ v, (key, v) ∈ order)
  ∧ ∃ suffix, isNumericSuffix suffix = true ∧ key = base +:+ "-" +:+ suffix.
Proof.
  unfold buildOriginalIDMap. revert base l key.
  apply (foldl_inv (λ m : gmap string (list string), ∀ base l key,
           m !! base = Some l → key ∈ l →
           (∃ v, (key, v) ∈ order)
           ∧ ∃ suffix, isNumericSuffix suffix = true ∧ key = base +:+ "-" +:+ suffix)).
  { intros base l key. by rewrite lookup_empty. }
  intros m [channelID v] Hx IH base l key. cbn zeta.
  destruct (0 <? LastIndex channelID "-") eqn:Ei; [|apply IH].
  destruct (isNumericSuffix _) eqn:En; [|apply IH].
  apply Z.ltb_lt in Ei. rewrite lookup_insert. case_decide as Hb; [|apply IH].
  intros [= <-] [Hk|Hk%list_elem_of_singleton]%elem_of_app.
  - destruct (m !! sliceTo channelID (LastIndex channelID "-")) as [l0|] eqn:E;
      [|by apply elem_of_nil in Hk].
    subst base. by eapply IH.
  - subst key base. split; [by exists v|]. eexists. split; [exact En|].
    apply LastIndex_split. lia.
Qed.

Lemma withChannel_same p : withChannel (PChannel p) p = p.
Proof. by destruct p. Qed.

Lemma categorize_PChannel channelIDMap categoryMap channelID p :
  PChannel (categorize channelIDMap categoryMap channelID p) = PChannel p.
Proof. apply categorize_fields. Qed.

Lemma filterProgram_sound channelIDMap categoryMap originalIDMap acc program q :
  (∀ base l key, originalIDMap !! base = Some l → key ∈ l →
     is_Some (channelIDMap !! key)
     ∧ ∃ suffix, isNumericSuffix suffix = true ∧ key = base +:+ "-" +:+ suffix) →
  q ∈ filterProgram channelIDMap categoryMap originalIDMap acc program →
  q ∈ acc
  ∨ (is_Some (channelIDMap !! PChannel q)
     ∧ filteredFrom channelIDMap categoryMap program q).
Proof.
  intros Horig. unfold filterProgram.
  set (acc1 := match channelIDMap !! PChannel program with
               | Some _ => _ | None => acc end).
  assert (q ∈ acc1 → q ∈ acc ∨ (is_Some (channelIDMap !! PChannel q)
            ∧ filteredFrom channelIDMap categoryMap program q)) as H1.
  { subst acc1. destruct (channelIDMap !! PChannel program) as [name|] eqn:E; [|by left].
    intros [Hq|Hq%list_elem_of_singleton]%elem_of_app; [by left|]. right.
    assert (PChannel q = PChannel program) as Hc
      by (subst q; apply categorize_PChannel).
    rewrite Hc, E. split; [done|]. split; [|by left].
    by rewrite Hc, withChannel_same. }
  destruct (originalIDMap !! PChannel program) as [ids|] eqn:E; [|done].
  assert (∀ key, key ∈ ids → is_Some (channelIDMap !! key)
            ∧ ∃ suffix, isNumericSuffix suffix = true
                        ∧ key = PChannel program +:+ "-" +:+ suffix) as Hids
    by (intros key; by apply Horig).
  clear E. revert Hids. generalize dependent acc1. clear Horig.
  induction ids as [|key ids IH] using rev_ind; intros acc1 H1 Hids; [done|].
  rewrite foldl_app. cbn [foldl].
  intros [Hq|Hq%list_elem_of_singleton]%elem_of_app.
  - apply (IH acc1); [done| |done]. intros k Hk. apply Hids, elem_of_app. by left.
  - right. destruct (Hids key) as [Hkey Hsuf]; [apply elem_of_app; right; by left|].
    assert (PChannel q = key) as Hc by (subst q; apply categorize_PChannel).
    rewrite Hc. split; [done|]. split; [by rewrite Hc|right; by rewrite Hc].
Qed.

Lemma FilterForMerge_programs_run (range : RangeOracle) (epgData : TV)
    (m3uChannels : list m3u.Channel) :
  range_ok range →
  ∃ tv cm,
    FilterForMerge range epgData m3uChannels = Some {| EPG := Some tv; ChannelMap := cm |}
    ∧ (∀ q, q ∈ Programs tv →
         is_Some (cm !! PChannel q)
         ∧ ∃ p, p ∈ Programs epgData
                ∧ filteredFrom cm (buildCategoryMap m3uChannels) p q)
    ∧ (∀ p, p ∈ Programs epgData → is_Some (cm !! PChannel p) →
         categorize cm (buildCategoryMap m3uChannels) (PChannel p) p ∈ Programs tv).
Proof.
  intros Hr.
  destruct (FilterForMerge_run range epgData m3uChannels) as (s & matches & Hs & Hrun & ->).
  eexists _, _. split; [done|]. simpl. split.
  - apply (foldl_inv (λ acc, ∀ q, q ∈ acc →
             is_Some (channelIDMap s !! PChannel q)
             ∧ ∃ p, p ∈ Programs epgData
                    ∧ filteredFrom (channelIDMap s) (buildCategoryMap m3uChannels) p q)).
    { by intros q ?%elem_of_nil. }
    intros acc p Hp IH q Hq.
    apply filterProgram_sound in Hq as [Hq|[Hkey Hfrom]]; [by apply IH|by eauto|].
    intros base l key Hl Hk.
    destruct (buildOriginalIDMap_inv _ _ _ _ Hl Hk) as [[v Hv] Hsuf].
    apply (range_elem_of range 3%nat _ _ _ Hr) in Hv. by split; [eexists|].
  - intros p Hp Hkey. apply (foldl_filterProgram_elem _ _ _ _ p); [done|].
    intros acc. by apply filterProgram_kept.
Qed.


(** ** Placeholders: [generateFakePrograms], [AddFakeChannels], [Filter] *)

Lemma generateFakePrograms_eq channels channelsWithPrograms categoryMap channelIDMap :
  generateFakePrograms channels channelsWithPrograms categoryMap channelIDMap
  = placeholderProgram categoryMap channelIDMap
      <$> filter (λ ch, ID ch ∉ channelsWithPrograms) channels.
Proof.
  unfold generateFakePrograms.
  induction channels as [|ch l IH] using rev_ind; [done|].
  rewrite foldl_app, filter_app, fmap_app, <- IH. cbn [foldl].
  rewrite filter_cons, filter_nil.
  destruct (decide (ID ch ∈ channelsWithPrograms)) as [Hin|Hin].
  - rewrite decide_False by (by intros ?). simpl. by rewrite app_nil_r.
  - by rewrite decide_True by done.
Qed.

Lemma foldl_programs_elem (programs : list Programme) (acc : gset string) id :
  id ∈ foldl (λ acc prog, {[PChannel prog]} ∪ acc) acc programs
  ↔ id ∈ acc ∨ id ∈ PChannel <$> programs.
Proof.
  revert acc. induction programs as [|p l IH]; intros acc; simpl.
  - split; [by left|]. by intros [?|?%elem_of_nil].
  - rewrite IH, elem_of_union, elem_of_singleton, elem_of_cons. tauto.
Qed.

Lemma foldl_copy_map {V} (order : list (string * V)) :
  NoDup order.*1 →
  ∀ k v, foldl (λ acc '(k, v), <[k := v]> acc) (∅ : gmap string V) order !! k = Some v
         ↔ (k, v) ∈ order.
Proof.
  induction order as [|[k0 v0] l IH] using rev_ind; intros Hnd k v.
  { simpl. rewrite lookup_empty. split; [done|by intros ?%elem_of_nil]. }
  rewrite fmap_app in Hnd. apply NoDup_app in Hnd as (Hl & Hk0 & _).
  rewrite foldl_app. cbn [foldl]. rewrite lookup_insert, elem_of_app, list_elem_of_singleton.
  case_decide as Hk.
  - subst k0. split; [intros [= <-]; by right|].
    intros [Hin| [= <-]]; [|done]. destruct (Hk0 k); [|simpl; left].
    apply list_elem_of_fmap. by exists (k, v).
  - rewrite (IH Hl). split; [by left|]. intros [?|[= ? ?]]; [done|by subst].
Qed.

Lemma range_copy_map (range : RangeOracle) site (m : gmap string string) :
  range_ok range →
  foldl (λ acc '(k, v), <[k := v]> acc) ∅ (range site _ m) = m.
Proof.
  intros Hr. apply map_eq. intros k. apply option_eq. intros v.
  rewrite (foldl_copy_map _ (range_NoDup_keys range site m Hr)).
  apply (range_elem_of range site m k v Hr).
Qed.

Lemma foldl_fake_pairs (names : gset string) (m0 : gmap string string)
    (l : list m3u.Channel) :
  let body1 := λ fakeChannels m3uChannel,
    if decide (m3u.Name m3uChannel ∈ names) then fakeChannels
    else if decide (m3u.Name m3uChannel = "") then fakeChannels
    else
      let channelID := generateChannelID (m3u.Name m3uChannel) in
      fakeChannels ++
        [{| ID := channelID;
            DisplayName := m3u.Name m3uChannel;
            ChIcon := {| Src := m3u.TVGLogo m3uChannel |} |}] in
  foldl (λ '(fakeChannels, newChannelMap) m3uChannel,
           if decide (m3u.Name m3uChannel ∈ names)
           then (fakeChannels, newChannelMap)
           else if decide (m3u.Name m3uChannel = "") then (fakeChannels, newChannelMap)
           else
             let channelID := generateChannelID (m3u.Name m3uChannel) in
             let fakeChannel :=
               {| ID := channelID;
                  DisplayName := m3u.Name m3uChannel;
                  ChIcon := {| Src := m3u.TVGLogo m3uChannel |} |} in
             (fakeChannels ++ [fakeChannel],
              <[channelID := m3u.Name m3uChannel]> newChannelMap))
        ([], m0) l
  = (foldl body1 [] l, withFakeChannels m0 (foldl body1 [] l)).
Proof.
  cbn zeta. induction l as [|c l IH] using rev_ind; [done|].
  rewrite !foldl_app, IH. cbn [foldl].
  destruct (decide (m3u.Name c ∈ names)); [done|].
  destruct (decide (m3u.Name c = "")); [done|].
  unfold withFakeChannels. by rewrite foldl_app.
Qed.

(** [AddFakeChannels] in closed form: the guide it is given, then one
    placeholder channel for every unmatched playlist entry, and one
    placeholder program for every channel without a program. *)
Lemma AddFakeChannels_eq range epgData m3uChannels channelMap :
  range_ok range →
  let fake := synthesizedChannel <$> unmatchedEntries channelMap m3uChannels in
  let allChannels := Channels epgData ++ fake in
  AddFakeChannels range epgData m3uChannels channelMap
  = {| Channels := allChannels;
       Programs :=
         Programs epgData ++
           (placeholderProgram (buildCategoryMap m3uChannels)
                               (withFakeChannels channelMap fake)
              <$> filter (λ ch, ID ch ∉ (list_to_set (PChannel <$> Programs epgData)
                                         : gset string))
                         allChannels) |}.
Proof.
  intros Hr. cbn zeta. unfold AddFakeChannels. cbn zeta.
  rewrite (range_copy_map range 1%nat channelMap Hr).
  rewrite foldl_fake_pairs. cbn beta iota zeta.
  pose proof (generateFakeEPGData_spec range 0%nat channelMap m3uChannels Hr) as Hf.
  unfold generateFakeEPGData in Hf. cbn zeta in Hf. rewrite Hf.
  fold (unmatchedEntries channelMap m3uChannels).
  rewrite generateFakePrograms_eq.
  assert (foldl (λ acc prog, {[PChannel prog]} ∪ acc) (∅ : gset string) (Programs epgData)
          = list_to_set (PChannel <$> Programs epgData)) as ->; [|done].
  apply set_eq. intros id. rewrite foldl_programs_elem, elem_of_list_to_set.
  split; [by intros [?%elem_of_empty|?]|by right].
Qed.

Lemma placeholder_or_program (channels : list Channel) (programs : list Programme)
    (cwp : gset string) categoryMap channelIDMap ch :
  (∀ id, id ∈ cwp → id ∈ PChannel <$> programs) →
  ch ∈ channels →
  ∃ p, p ∈ programs ++ generateFakePrograms channels cwp categoryMap channelIDMap
       ∧ PChannel p = ID ch.
Proof.
  intros Hcwp Hch. destruct (decide (ID ch ∈ cwp)) as [Hin|Hin].
  - apply Hcwp, list_elem_of_fmap in Hin as (p & Hp & Hin).
    exists p. split; [|done]. apply elem_of_app. by left.
  - exists (placeholderProgram categoryMap channelIDMap ch). split; [|done].
    apply elem_of_app. right. rewrite generateFakePrograms_eq.
    apply list_elem_of_fmap. exists ch. split; [done|]. by apply list_elem_of_filter.
Qed.

(** X11: in the guide that [AddFakeChannels] returns every channel owns at
    least one program, whatever the order of its map loops: a channel
    without a program of the guide gets a placeholder. *)
Theorem AddFakeChannels_every_channel_has_program (range : RangeOracle) (epgData : TV)
    (m3uChannels : list m3u.Channel) (channelMap : gmap string string) (ch : Channel) :
  let tv := AddFakeChannels range epgData m3uChannels channelMap in
  ch ∈ Channels tv → ∃ p, p ∈ Programs tv ∧ PChannel p = ID ch.
Proof.
  cbn zeta. unfold AddFakeChannels. cbn zeta.
  rewrite foldl_fake_pairs. cbn beta iota zeta. cbn [Channels Programs].
  apply placeholder_or_program.
  intros id [?%elem_of_empty|?]%foldl_programs_elem; done.
Qed.

Lemma AddFakeChannels_every_channel_has_program_witness :
  ∃ p, p ∈ Programs (AddFakeChannels range_canon
                       {| Channels := [guideChannel "espn.us" "ESPN"]; Programs := [] |}
                       [playlistEntry "ESPN" ""; playlistEntry "Local News" ""]
                       {["espn.us" := "ESPN"]})
       ∧ PChannel p = ID (guideChannel "espn.us" "ESPN").
Proof.
  apply (AddFakeChannels_every_channel_has_program range_canon
           {| Channels := [guideChannel "espn.us" "ESPN"]; Programs := [] |}
           [playlistEntry "ESPN" ""; playlistEntry "Local News" ""]
           {["espn.us" := "ESPN"]} (guideChannel "espn.us" "ESPN")).
  vm_compute. left.
Defined.

(** X12: [AddFakeChannels] keeps the guide it is given and appends, in
    playlist order, one placeholder channel for every playlist entry whose
    non-empty name is no value of the map, then one placeholder program for
    every channel, old or new, without a program; the title of a
    placeholder is the playlist name of the channel. *)
Theorem AddFakeChannels_spec (range : RangeOracle) (epgData : TV)
    (m3uChannels : list m3u.Channel) (channelMap : gmap string string) :
  range_ok range →
  let fake := synthesizedChannel <$> unmatchedEntries channelMap m3uChannels in
  let allChannels := Channels epgData ++ fake in
  AddFakeChannels range epgData m3uChannels channelMap
  = {| Channels := allChannels;
       Programs :=
         Programs epgData ++
           (placeholderProgram (buildCategoryMap m3uChannels)
                               (withFakeChannels channelMap fake)
              <$> filter (λ ch, ID ch ∉ (list_to_set (PChannel <$> Programs epgData)
                                         : gset string))
                         allChannels) |}.
Proof. apply AddFakeChannels_eq. Qed.

Lemma AddFakeChannels_spec_witness :
  let epgData := {| Channels := [guideChannel "espn.us" "ESPN"]; Programs := [] |} in
  let m3uChannels := [playlistEntry "ESPN" ""; playlistEntry "Local News" ""] in
  let channelMap : gmap string string := {["espn.us" := "ESPN"]} in
  let fake := synthesizedChannel <$> unmatchedEntries channelMap m3uChannels in
  let allChannels := Channels epgData ++ fake in
  AddFakeChannels range_canon epgData m3uChannels channelMap
  = {| Channels := allChannels;
       Programs :=
         Programs epgData ++
           (placeholderProgram (buildCategoryMap m3uChannels)
                               (withFakeChannels channelMap fake)
              <$> filter (λ ch, ID ch ∉ (list_to_set (PChannel <$> Programs epgData)
                                         : gset string))
                         allChannels) |}.
Proof.
  intros epgData m3uChannels channelMap.
  apply (AddFakeChannels_spec range_canon epgData m3uChannels channelMap).
  exact range_canon_ok.
Defined.

Lemma filterProgramTracking_snd channelIDMap categoryMap originalIDMap programs :
  let r := foldl (filterProgramTracking channelIDMap categoryMap originalIDMap)
                 ([], ∅) programs in
  ∀ id, id ∈ r.2 ↔ id ∈ PChannel <$> r.1.
Proof.
  cbn zeta.
  apply (foldl_inv (λ acc : list Programme * gset string,
           ∀ id, id ∈ acc.2 ↔ id ∈ PChannel <$> acc.1)).
  { intros id. simpl. split; [by intros ?%elem_of_empty|by intros ?%elem_of_nil]. }
  intros acc p _ IH. unfold filterProgramTracking.
  set (acc1 := match channelIDMap !! PChannel p with Some _ => _ | None => acc end).
  assert (∀ id, id ∈ acc1.2 ↔ id ∈ PChannel <$> acc1.1) as H1.
  { subst acc1. destruct (channelIDMap !! PChannel p); [|done]. intros id. simpl.
    rewrite fmap_app, elem_of_app, elem_of_union, elem_of_singleton, IH. simpl.
    rewrite list_elem_of_singleton, categorize_PChannel. tauto. }
  destruct (originalIDMap !! PChannel p) as [ids|]; [|done].
  clearbody acc1. clear IH.
  induction ids as [|sid ids IHids] using rev_ind; [done|].
  rewrite foldl_app. cbn [foldl]. intros id. simpl.
  rewrite fmap_app, elem_of_app, elem_of_union, elem_of_singleton, IHids. simpl.
  rewrite list_elem_of_singleton, categorize_PChannel. simpl. tauto.
Qed.

Lemma Filter_programs_run (range : RangeOracle) (epgData : TV)
    (m3uChannels : list m3u.Channel) :
  ∃ tv finalMap,
    Filter range epgData m3uChannels = Some (tv, finalMap)
    ∧ ∀ ch, ch ∈ Channels tv → ∃ p, p ∈ Programs tv ∧ PChannel p = ID ch.
Proof.
  destruct (matchChannels_map range (Channels epgData) (buildChannelNameMap m3uChannels)
              (buildTVGIDMap m3uChannels) (buildNormalizedNameMap m3uChannels))
    as (chans & idMap & Hm & _).
  unfold Filter. cbn zeta. rewrite Hm. simpl.
  pose proof (filterProgramTracking_snd idMap (buildCategoryMap m3uChannels)
                (buildOriginalIDMap (range 3%nat _ idMap)) (Programs epgData)) as Htrack.
  cbn zeta in Htrack.
  destruct (foldl (filterProgramTracking _ _ _) _ _) as [filteredPrograms channelsWithPrograms].
  eexists _, _. split; [done|]. simpl. intros ch Hch.
  apply placeholder_or_program; [|done]. intros id. apply Htrack.
Qed.

Lemma Filter_AddFakeChannels_run (range range' : RangeOracle) (epgData : TV)
    (m3uChannels : list m3u.Channel) :
  range_ok range → range_ok range' →
  ∃ tv0 cm,
    FilterForMerge range epgData m3uChannels
    = Some {| EPG := Some tv0; ChannelMap := cm |}
    ∧ Filter range epgData m3uChannels
      = Some (AddFakeChannels range' tv0 m3uChannels cm,
              withFakeChannels cm (synthesizedChannel <$> unmatchedEntries cm m3uChannels)).
Proof.
  intros Hr Hr'.
  destruct (FilterForMerge_run range epgData m3uChannels) as (s & matches & Hs & Hrun & ->).
  eexists _, _. split; [done|].
  rewrite (AddFakeChannels_eq range' _ m3uChannels (channelIDMap s) Hr'). cbn zeta.
  unfold Filter, matchChannels. cbn zeta. rewrite Hs. cbn [mbind option_bind].
  pose proof (filterProgramTracking_snd (channelIDMap s) (buildCategoryMap m3uChannels)
                (buildOriginalIDMap (range 3%nat _ (channelIDMap s)))
                (Programs epgData)) as Hsnd.
  pose proof (filterProgramTracking_fst (channelIDMap s) (buildCategoryMap m3uChannels)
                (buildOriginalIDMap (range 3%nat _ (channelIDMap s)))
                (Programs epgData) ([], ∅)) as Hfst.
  cbn zeta in Hsnd.
  destruct (foldl (filterProgramTracking _ _ _) _ _) as [filteredPrograms cwp].
  simpl in Hsnd, Hfst. subst filteredPrograms.
  rewrite (generateFakeEPGData_spec range 4%nat (channelIDMap s) m3uChannels Hr).
  fold (unmatchedEntries (channelIDMap s) m3uChannels).
  rewrite generateFakePrograms_eq. cbn [Channels Programs].
  assert (cwp = list_to_set (PChannel <$>
            foldl (filterProgram (channelIDMap s) (buildCategoryMap m3uChannels)
                     (buildOriginalIDMap (range 3%nat _ (channelIDMap s))))
                  [] (Programs epgData))) as ->; [|done].
  apply set_eq. intros id. by rewrite Hsnd, elem_of_list_to_set.
Qed.


(** ** An empty playlist *)

Lemma range_empty (range : RangeOracle) site {V} :
  range_ok range → range site V ∅ = [].
Proof.
  intros Hr. apply Permutation_nil_r. rewrite (Hr site V ∅). by rewrite map_to_list_empty.
Qed.

Lemma matchByDisplayName_empty s : matchByDisplayName ∅ s = Some s.
Proof.
  unfold matchByDisplayName. generalize (indexed (epgChannels s)) as l.
  induction l as [|[i ch] l IH]; [done|]. cbn [forEach].
  destruct (decide (i ∈ matchedEPG s)); [exact IH|].
  rewrite decide_True; [exact IH|]. left. apply not_elem_of_empty.
Qed.

(** X15: with an empty playlist nothing of a guide is kept: [FilterForMerge]
    returns an empty guide and an empty map, and so does [Filter]. *)
Theorem Filter_empty_playlist (range : RangeOracle) (epgData : TV) :
  range_ok range →
  FilterForMerge range epgData []
  = Some {| EPG := Some {| Channels := []; Programs := [] |}; ChannelMap := ∅ |}
  ∧ Filter range epgData [] = Some ({| Channels := []; Programs := [] |}, ∅).
Proof.
  intros Hr.
  assert (matchChannels range (Channels epgData) (buildChannelNameMap [])
            (buildTVGIDMap []) (buildNormalizedNameMap []) = Some ([], ∅)) as Hm.
  { unfold matchChannels, runMatcher. cbn zeta.
    change (buildTVGIDMap []) with (∅ : gmap string string).
    change (buildNormalizedNameMap []) with (∅ : gmap string m3uNormalizedInfo).
    change (buildChannelNameMap []) with (∅ : gset string).
    rewrite !(range_empty range _ Hr). cbn [matchByTVGID forEach mbind option_bind].
    rewrite matchByDisplayName_empty. done. }
  assert (∀ programs acc,
            foldl (filterProgram ∅ (buildCategoryMap []) (buildOriginalIDMap [])) acc programs
            = acc) as Hkeep.
  { induction programs as [|p l IH]; intros acc; [done|]. cbn [foldl]. rewrite IH.
    unfold filterProgram. rewrite lookup_empty.
    change (buildOriginalIDMap []) with (∅ : gmap string (list string)).
    by rewrite lookup_empty. }
  split.
  - unfold FilterForMerge. cbn zeta. rewrite Hm. cbn [mbind option_bind].
    rewrite (range_empty range _ Hr). by rewrite Hkeep.
  - unfold Filter. cbn zeta. rewrite Hm. cbn [mbind option_bind].
    rewrite !(range_empty range _ Hr).
    pose proof (filterProgramTracking_snd ∅ (buildCategoryMap []) (buildOriginalIDMap [])
                  (Programs epgData)) as Hsnd.
    pose proof (filterProgramTracking_fst ∅ (buildCategoryMap []) (buildOriginalIDMap [])
                  (Programs epgData) ([], ∅)) as Hfst.
    cbn zeta in Hsnd. rewrite Hkeep in Hfst.
    destruct (foldl (filterProgramTracking _ _ _) _ _) as [filteredPrograms cwp].
    simpl in Hfst. subst filteredPrograms. done.
Qed.

Lemma Filter_empty_playlist_witness :
  FilterForMerge range_canon
    {| Channels := [guideChannel "espn.us" "ESPN"];
       Programs := [guideProgram "espn.us" "20260101060000 +0000" "SportsCenter"] |} []
  = Some {| EPG := Some {| Channels := []; Programs := [] |}; ChannelMap := ∅ |}
  ∧ Filter range_canon
      {| Channels := [guideChannel "espn.us" "ESPN"];
         Programs := [guideProgram "espn.us" "20260101060000 +0000" "SportsCenter"] |} []
    = Some ({| Channels := []; Programs := [] |}, ∅).
Proof.
  apply (Filter_empty_playlist range_canon
           {| Channels := [guideChannel "espn.us" "ESPN"];
              Programs := [guideProgram "espn.us" "20260101060000 +0000" "SportsCenter"] |}).
  exact range_canon_ok.
Defined.

(** ** What [MergeEPGs] returns *)

Lemma mergeSources_inv (P : mergeState → Prop) range results :
  range_ok range →
  P emptyMergeState →
  (∀ j epg cm st id name, liveSource results j epg cm → cm !! id = Some name →
                          P st → P (mergeEntry epg st (id, name))) →
  P (mergeSources range results).
Proof.
  intros Hr H0 Hstep. unfold mergeSources. apply foldl_inv; [exact H0|].
  intros st [i x] Hx%indexed_lookup Hst.
  destruct x as [[[epg|] cm]|]; try done. simpl.
  apply foldl_inv; [done|].
  intros st' [id name] Hin%(range_elem_of range _ _ _ _ Hr) Hst'.
  by apply (Hstep i epg cm).
Qed.

Lemma foldl_mergeProgram_elems (Q : string → Programme → Prop) epgID primaryID cp programs :
  (∀ k l q, cp !! k = Some l → q ∈ l → Q k q) →
  (∀ p, p ∈ programs → PChannel p = epgID → Q primaryID (withChannel primaryID p)) →
  ∀ k l q, foldl (mergeProgram epgID primaryID) cp programs !! k = Some l → q ∈ l → Q k q.
Proof.
  intros Hcp Hnew. revert Hnew.
  induction programs as [|p ps IH] using rev_ind; intros Hnew; [done|].
  rewrite foldl_app. cbn [foldl].
  assert (∀ k l q, foldl (mergeProgram epgID primaryID) cp ps !! k = Some l → q ∈ l → Q k q)
    as IH'.
  { apply IH. intros p' Hp'. apply Hnew, elem_of_app. by left. }
  unfold mergeProgram at 1.
  destruct (decide (PChannel p ≠ epgID)) as [|Heq]; [done|].
  cbn zeta. destruct (hasOverlap _ _); [done|].
  intros k l q. rewrite lookup_insert. case_decide as Hk; [|apply IH'].
  intros [= <-] [Hq|Hq%list_elem_of_singleton]%elem_of_app.
  - subst k. destruct (foldl _ cp ps !! primaryID) as [l0|] eqn:E;
      [by eapply IH'|by apply elem_of_nil in Hq].
  - subst k q. apply Hnew; [apply elem_of_app; right; by left|].
    by destruct (decide (PChannel p = epgID)); [|destruct Heq].
Qed.

Lemma claimedChannel_elem channels epgID m3uName ch :
  ch ∈ claimedChannel channels epgID m3uName →
  ∃ ch0, ch0 ∈ channels ∧ ID ch0 = epgID ∧ ch = withDisplayName m3uName ch0.
Proof.
  unfold claimedChannel.
  destruct (list_find _ channels) as [[k ch0]|] eqn:E; [|by intros ?%elem_of_nil].
  intros ->%list_elem_of_singleton. apply list_find_Some in E as (Hk & Hid & _).
  exists ch0. split_and!; [by eapply list_elem_of_lookup_2|done|done].
Qed.

Lemma mergeEntry_inv results j epg cm st id name :
  liveSource results j epg cm → cm !! id = Some name →
  mergeInv results st → mergeInv results (mergeEntry epg st (id, name)).
Proof.
  intros Hlive Hcm [Hmap Hown Hch Hpr].
  assert (sourceEntry results id name) as Hentry by (by exists j, epg, cm).
  unfold mergeEntry.
  destruct (m3uToEPGID st !! name) as [own|] eqn:Eown.
  - (* the name is owned already: only programs are added *)
    rewrite Eown. simpl. split; simpl; try done.
    intros k l q.
    apply (foldl_mergeProgram_elems
             (λ k q, PChannel q = k
                     ∧ ∃ name, m3uToEPGID st !! name = Some k
                               ∧ sourceProgram results name q)); [exact Hpr|].
    intros p Hp Hpc. split; [done|]. exists name. split; [done|].
    exists j, epg, cm, p. split_and!; try done. by rewrite Hpc.
  - (* the name is claimed under [id] *)
    simpl. rewrite lookup_insert_eq. simpl. split; simpl.
    + intros id' name'. rewrite lookup_insert. case_decide as Hid.
      * intros [= <-]. subst id'. by rewrite lookup_insert_eq.
      * intros [He Ho]%Hmap. split; [done|]. rewrite lookup_insert_ne; [done|].
        intros <-. by rewrite Eown in Ho.
    + intros name' id'. rewrite lookup_insert. case_decide as Hn.
      * intros [= <-]. subst name'. split; [done|]. by rewrite lookup_insert_eq.
      * intros [He Hs]%Hown. split; [done|]. rewrite lookup_insert.
        by case_decide.
    + intros ch [Hin|Hin%claimedChannel_elem]%elem_of_app.
      * destruct (Hch ch Hin) as [Hs Ho]. split; [done|].
        rewrite lookup_insert_ne; [done|]. intros He. rewrite <- He in Ho.
        by rewrite Eown in Ho.
      * destruct Hin as (ch0 & Hch0 & Hid & ->). simpl. rewrite lookup_insert_eq.
        split; [|by rewrite Hid]. exists j, epg, cm, ch0. simpl.
        split_and!; try done. by rewrite Hid.
    + intros k l q.
      apply (foldl_mergeProgram_elems
               (λ k q, PChannel q = k
                       ∧ ∃ name', <[name := id]> (m3uToEPGID st) !! name' = Some k
                                  ∧ sourceProgram results name' q)).
      * intros k' l' q' Hl Hq. destruct (Hpr k' l' q' Hl Hq) as (Hc & n & Hn & Hsp).
        split; [done|]. exists n. split; [|done]. rewrite lookup_insert_ne; [done|].
        intros <-. by rewrite Eown in Hn.
      * intros p Hp Hpc. split; [done|]. exists name. rewrite lookup_insert_eq.
        split; [done|]. exists j, epg, cm, p. split_and!; try done. by rewrite Hpc.
Qed.

Lemma mergeSources_mergeInv range results :
  range_ok range → mergeInv results (mergeSources range results).
Proof.
  intros Hr. apply mergeSources_inv; [done| |].
  - split; simpl.
    + intros id name. by rewrite lookup_empty.
    + intros name id. by rewrite lookup_empty.
    + by intros ch ?%elem_of_nil.
    + intros k l q. by rewrite lookup_empty.
  - intros j epg cm st id name. apply mergeEntry_inv.
Qed.

(** X16: [MergeEPGs] makes nothing up: every entry of the merged map is an
    entry of a live source; every merged channel is a channel of a live
    source, shown under the playlist name that this source maps its
    identifier to; and every merged program is a program of a live source,
    moved to a key of the merged map that a live source maps to the same
    playlist name. *)
Theorem MergeEPGs_sound (range : RangeOracle) (results : list (option FilterResult)) :
  range_ok range →
  let merged := MergeEPGs range results in
  (∀ id name, MergedChannelMap merged !! id = Some name → sourceEntry results id name)
  ∧ (∀ ch, ch ∈ MergedChannels merged → sourceChannel results ch)
  ∧ (∀ q, q ∈ MergedPrograms merged →
       is_Some (MergedChannelMap merged !! PChannel q)
       ∧ ∃ name, sourceProgram results name q ∧ sourceEntry results (PChannel q) name).
Proof.
  intros Hr. cbn zeta. unfold MergeEPGs.
  destruct (decide (length results = 0%nat)) as [|_]; simpl.
  { split_and!; [intros id name; by rewrite lookup_empty|
                 by intros ch ?%elem_of_nil|by intros q ?%elem_of_nil]. }
  destruct (mergeSources_mergeInv range results Hr) as [Hmap Hown Hch Hpr].
  split_and!.
  - intros id name Hid. by apply Hmap.
  - intros ch Hin. by apply Hch.
  - intros q. rewrite flatten_programs. simpl.
    intros (l & Hq & (e & -> & He)%list_elem_of_fmap)%list_elem_of_join.
    destruct e as [k l]. apply (range_elem_of range 5%nat _ k l Hr) in He. simpl in Hq.
    destruct (Hpr k l q He Hq) as (Hc & name & Hn & Hsp).
    destruct (Hown name k Hn) as [Hentry Hkey]. rewrite Hc. eauto.
Qed.

Lemma MergeEPGs_sound_witness :
  let results :=
    [Some {| EPG := Some {| Channels := [guideChannel "espn.us" "ESPN"];
                            Programs := [guideProgram "espn.us" "20260101060000 +0000"
                                                      "SportsCenter"] |};
             ChannelMap := {["espn.us" := "US: ESPN HD"]} |}] in
  let merged := MergeEPGs range_canon results in
  (∀ id name, MergedChannelMap merged !! id = Some name → sourceEntry results id name)
  ∧ (∀ ch, ch ∈ MergedChannels merged → sourceChannel results ch)
  ∧ (∀ q, q ∈ MergedPrograms merged →
       is_Some (MergedChannelMap merged !! PChannel q)
       ∧ ∃ name, sourceProgram results name q ∧ sourceEntry results (PChannel q) name).
Proof.
  intros results.
  apply (MergeEPGs_sound range_canon results). exact range_canon_ok.
Defined.

Lemma mergeSources_dead range results :
  (∀ j epg cm, ¬ liveSource results j epg cm) →
  mergeSources range results = emptyMergeState.
Proof.
  intros Hdead. unfold mergeSources. apply foldl_inv; [done|].
  intros st [i x] Hx%indexed_lookup ->. apply mergeSource_dead.
  intros epg cm ->. by apply (Hdead i epg cm).
Qed.

(** X17: when no result is live (the list is empty, or every result is nil
    or has no guide), [MergeEPGs] returns no channel, no program and an
    empty map. *)
Theorem MergeEPGs_no_live_source (range : RangeOracle)
    (results : list (option FilterResult)) :
  range_ok range →
  (∀ j epg cm, ¬ liveSource results j epg cm) →
  MergeEPGs range results
  = {| MergedChannels := []; MergedPrograms := []; MergedChannelMap := ∅ |}.
Proof.
  intros Hr Hdead. unfold MergeEPGs. destruct (decide _); [done|].
  rewrite (mergeSources_dead range results Hdead). simpl.
  by rewrite (range_empty range _ Hr).
Qed.

Lemma MergeEPGs_no_live_source_witness :
  MergeEPGs range_canon [None; Some {| EPG := None; ChannelMap := {["a" := "A"]} |}]
  = {| MergedChannels := []; MergedPrograms := []; MergedChannelMap := ∅ |}.
Proof.
  apply (MergeEPGs_no_live_source range_canon
           [None; Some {| EPG := None; ChannelMap := {["a" := "A"]} |}]).
  - exact range_canon_ok.
  - intros j epg cm. unfold liveSource.
    destruct j as [|[|j]]; simpl; discriminate.
Defined.

(** ** The fetch pipeline ([FetchEPG]) *)

Lemma filterSources_spec rangeFilter m3uChannels sources :
  ∃ results,
    filterSources rangeFilter m3uChannels sources = Some results
    ∧ Forall (filteredSource rangeFilter m3uChannels sources) results
    ∧ length results = length (filter (λ source, source ≠ None) sources).
Proof.
  unfold filterSources.
  induction sources as [|x l IH] using rev_ind; [by exists []|].
  destruct IH as (results & Hrun & Hall & Hlen).
  assert (Forall (filteredSource rangeFilter m3uChannels (l ++ [x])) results) as Hall'.
  { eapply Forall_impl; [exact Hall|].
    intros r (i & epgData & tv & cm & Hi & Hf & ->). exists i, epgData, tv, cm.
    split_and!; [|done|done]. by apply lookup_app_l_Some. }
  rewrite indexed_snoc, forEach_app, Hrun. cbn [mbind option_bind forEach].
  rewrite filter_app, length_app, filter_cons, filter_nil.
  destruct x as [epgData|].
  - destruct (FilterForMerge_wf (rangeFilter (length l)) epgData m3uChannels)
      as (tv & cm & Hf & _).
    rewrite Hf. cbn [mbind option_bind EPG]. eexists. split; [done|].
    rewrite decide_True by done. rewrite !length_app. simpl. split; [|lia].
    apply Forall_app. split; [done|]. apply Forall_singleton.
    exists (length l), epgData, tv, cm. split_and!; [|done|done].
    by rewrite lookup_app_r, Nat.sub_diag by lia.
  - exists results. split; [done|]. rewrite decide_False by (by intros ?).
    simpl. split; [done|lia].
Qed.

Lemma FetchEPG_run_outcome (rangeFilter : nat → RangeOracle)
    (rangeMerge rangeFake : RangeOracle) (storedM3U : option (list m3u.Channel))
    (sources : list (option TV)) :
  match storedM3U with
  | None =>
      FetchEPG rangeFilter rangeMerge rangeFake storedM3U sources
      = Some (fetchError "M3U data not available, cannot filter EPG")
  | Some _ =>
      if decide (Forall (λ source, source = None) sources)
      then FetchEPG rangeFilter rangeMerge rangeFake storedM3U sources
           = Some (fetchError "all EPG sources failed")
      else ∃ epg channelMap,
             FetchEPG rangeFilter rangeMerge rangeFake storedM3U sources
             = Some (fetchStored epg channelMap)
  end.
Proof.
  destruct storedM3U as [m3uChannels|]; [|done]. unfold FetchEPG.
  destruct (filterSources_spec rangeFilter m3uChannels sources)
    as (results & -> & _ & Hlen). cbn [mbind option_bind].
  assert (length (filter (λ source : option TV, source ≠ None) sources) = 0%nat
          ↔ Forall (λ source, source = None) sources) as Hnone.
  { clear Hlen. induction sources as [|x l IH]; [done|].
    rewrite filter_cons, Forall_cons. destruct x as [e|].
    - rewrite decide_True by done. simpl. split; [done|]. by intros [? _].
    - rewrite decide_False by (by intros ?). rewrite IH. tauto. }
  rewrite Hlen.
  destruct (decide (Forall _ sources)) as [Hall|Hsome].
  - by rewrite decide_True by (by apply Hnone).
  - rewrite decide_False by (by intros ?%Hnone). by eexists _, _.
Qed.

Lemma FilterForMerge_names range epgData m3uChannels tv cm id name :
  range_ok range →
  FilterForMerge range epgData m3uChannels = Some {| EPG := Some tv; ChannelMap := cm |} →
  cm !! id = Some name → playlistName m3uChannels name.
Proof.
  intros Hr Hf Hid.
  destruct (FilterForMerge_run range epgData m3uChannels) as (s & matches & Hs & Hrun & Heq).
  rewrite Heq in Hf. injection Hf as _ <-.
  pose proof (matcherRun_inv _ _ _ Hrun) as Hinv.
  apply (runMatcher_playlist_names range _ _ s name Hr Hs).
  apply (inv_matchedM3U _ _ _ Hinv). by eapply (inv_map_value _ _ _ Hinv).
Qed.

Lemma FilterForMerge_keys range epgData m3uChannels tv cm id :
  FilterForMerge range epgData m3uChannels = Some {| EPG := Some tv; ChannelMap := cm |} →
  is_Some (cm !! id) → ∃ ch, ch ∈ Channels tv ∧ ID ch = id.
Proof.
  intros Hf Hid.
  destruct (FilterForMerge_wf range epgData m3uChannels) as (tv' & cm' & Hf' & _ & Hkeys).
  rewrite Hf in Hf'. injection Hf' as <- <-. by apply Hkeys.
Qed.

(** Every entry of the merged map has its channel among the merged
    channels, when every live source has a channel for each key of its map. *)
Lemma mergeSources_channels range results :
  range_ok range →
  (∀ j epg cm id, liveSource results j epg cm → is_Some (cm !! id) →
                  ∃ ch, ch ∈ Channels epg ∧ ID ch = id) →
  ∀ id name, mergedChannelMap (mergeSources range results) !! id = Some name →
             ∃ ch, ch ∈ mergedChannels (mergeSources range results)
                   ∧ DisplayName ch = name ∧ ID ch = id.
Proof.
  intros Hr Hwf.
  apply (mergeSources_inv (λ st, ∀ id name, mergedChannelMap st !! id = Some name →
           ∃ ch, ch ∈ mergedChannels st ∧ DisplayName ch = name ∧ ID ch = id)); [done| |].
  { intros id name. simpl. by rewrite lookup_empty. }
  intros j epg cm st id name Hlive Hcm IH id' name'. unfold mergeEntry.
  destruct (m3uToEPGID st !! name) as [own|] eqn:Eown; simpl; [apply IH|].
  rewrite lookup_insert. case_decide as Hid.
  - intros [= <-]. subst id'.
    destruct (Hwf j epg cm id Hlive) as (ch1 & Hch1 & Hid1); [by eexists|].
    destruct (claimedChannel_found (Channels epg) id name ch1 Hch1 Hid1)
      as (ch0 & Hch0 & Hid0 & ->).
    exists (withDisplayName name ch0). split_and!; [|done|done].
    apply elem_of_app. right. by left.
  - intros (ch & Hch & Hn & Hi)%IH. exists ch. split_and!; [|done|done].
    apply elem_of_app. by left.
Qed.

Lemma AddFakeChannels_owned range epgData m3uChannels channelMap ch :
  ch ∈ Channels (AddFakeChannels range epgData m3uChannels channelMap) →
  ∃ p, p ∈ Programs (AddFakeChannels range epgData m3uChannels channelMap)
       ∧ PChannel p = ID ch.
Proof.
  unfold AddFakeChannels. cbn zeta.
  rewrite foldl_fake_pairs. cbn beta iota zeta. cbn [Channels Programs].
  apply placeholder_or_program.
  intros id [?%elem_of_empty|?]%foldl_programs_elem; done.
Qed.

Lemma FetchEPG_covers_run (rangeFilter : nat → RangeOracle)
    (rangeMerge rangeFake : RangeOracle) (m3uChannels : list m3u.Channel)
    (sources : list (option TV)) :
  (∀ i, range_ok (rangeFilter i)) → range_ok rangeMerge → range_ok rangeFake →
  (∃ i epgData, sources !! i = Some (Some epgData)) →
  ∃ epg channelMap,
    FetchEPG rangeFilter rangeMerge rangeFake (Some m3uChannels) sources
    = Some (fetchStored epg channelMap)
    ∧ (∀ name, playlistName m3uChannels name →
               ∃ ch, ch ∈ Channels epg ∧ DisplayName ch = name)
    ∧ (∀ ch, ch ∈ Channels epg → ∃ p, p ∈ Programs epg ∧ PChannel p = ID ch)
    ∧ (∀ id name, channelMap !! id = Some name → playlistName m3uChannels name).
Proof.
  intros HrF HrM HrA (i0 & epg0 & Hsome). unfold FetchEPG.
  destruct (filterSources_spec rangeFilter m3uChannels sources)
    as (results & -> & Hall & Hlen). cbn [mbind option_bind].
  assert (length results ≠ 0%nat) as Hne.
  { rewrite Hlen. intros Hz%length_zero_iff_nil.
    assert (Some epg0 ∈ filter (λ source : option TV, source ≠ None) sources) as Hin
      by (apply list_elem_of_filter; split; [done|by eapply list_elem_of_lookup_2]).
    rewrite Hz in Hin. by apply elem_of_nil in Hin. }
  rewrite decide_False by done. cbn zeta. eexists _, _. split; [done|].
  unfold MergeEPGs. rewrite decide_False by done. cbn [MergedChannels MergedPrograms
    MergedChannelMap].
  set (st := mergeSources rangeMerge results).
  assert (∀ j epg cm, liveSource results j epg cm →
            ∃ i epgData, FilterForMerge (rangeFilter i) epgData m3uChannels
                         = Some {| EPG := Some epg; ChannelMap := cm |}) as Hlive.
  { intros j epg cm Hj. rewrite Forall_forall in Hall.
    destruct (Hall _ (list_elem_of_lookup_2 _ _ _ Hj)) as (i & e & tv & cm' & _ & Hf & [= -> ->]).
    by exists i, e. }
  assert (∀ id name, mergedChannelMap st !! id = Some name →
                     playlistName m3uChannels name) as Hnames.
  { intros id name Hid.
    destruct (minv_map _ _ (mergeSources_mergeInv rangeMerge results HrM) id name Hid)
      as [(j & epg & cm & Hj & Hcm) _].
    destruct (Hlive j epg cm Hj) as (i & e & Hf).
    by eapply (FilterForMerge_names (rangeFilter i)). }
  split_and!; [|apply AddFakeChannels_owned|exact Hnames].
  intros name [Hne' (c & Hc & Hname)].
  rewrite (AddFakeChannels_eq rangeFake _ m3uChannels (mergedChannelMap st) HrA).
  cbn [Channels].
  destruct (decide (name ∈ (map_img (mergedChannelMap st) : gset string))) as [Hin|Hin].
  - apply elem_of_map_img in Hin as [id Hid].
    destruct (mergeSources_channels rangeMerge results HrM) with (id := id) (name := name)
      as (ch & Hch & Hn & _); [|done|].
    { intros j epg cm id' Hj Hid'. destruct (Hlive j epg cm Hj) as (i & e & Hf).
      by eapply FilterForMerge_keys. }
    exists ch. split; [|done]. apply elem_of_app. by left.
  - exists (synthesizedChannel c). split; [|done]. apply elem_of_app. right.
    apply list_elem_of_fmap. exists c. split; [done|].
    apply list_elem_of_filter. rewrite Hname. done.
Qed.


(** ** The name normalizer, further *)

Lemma regionPrefixes_matching upperName e1 e2 :
  e1 ∈ regionPrefixes → e2 ∈ regionPrefixes →
  HasPrefix upperName (ToUpper e1.1) = true →
  HasPrefix upperName (ToUpper e2.1) = true → e1.2 = e2.2.
Proof.
  intros H1 H2 P1 P2.
  pose proof regionPrefixes_agree as Hall. unfold regionsAgree in Hall.
  rewrite forallb_forall in Hall. apply list_elem_of_In in H1, H2.
  destruct (HasPrefix_both _ _ _ P1 P2) as [Hp|Hp].
  - specialize (Hall _ H1). rewrite forallb_forall in Hall. specialize (Hall _ H2).
    rewrite Hp in Hall. by apply bool_decide_eq_true in Hall.
  - specialize (Hall _ H2). rewrite forallb_forall in Hall. specialize (Hall _ H1).
    rewrite Hp in Hall. by apply bool_decide_eq_true in Hall.
Qed.

(** X20: the region that the loop over the map [regionPrefixes] returns does
    not depend on the order in which the map is visited: in every order the
    result is the region of any entry whose prefix the upper-cased name
    starts with, and the empty string when there is none. *)
Theorem extractRegionIn_order_independent (order : list (string * string))
    (upperName : string) :
  order ≡ₚ regionPrefixes →
  extractRegionIn order upperName = extractRegionIn regionPrefixes upperName
  ∧ (∀ prefix region, (prefix, region) ∈ regionPrefixes →
       HasPrefix upperName (ToUpper prefix) = true →
       extractRegionIn order upperName = region)
  ∧ ((∀ prefix region, (prefix, region) ∈ regionPrefixes →
        HasPrefix upperName (ToUpper prefix) = false) →
     extractRegionIn order upperName = "").
Proof.
  intros Hperm.
  assert (∀ prefix region, (prefix, region) ∈ regionPrefixes →
            HasPrefix upperName (ToUpper prefix) = true →
            extractRegionIn order upperName = region) as Hany.
  { intros prefix region Hin Hp.
    destruct (extractRegionIn_first order upperName) as [[_ Ho]|(e1 & I1 & P1 & ->)].
    - rewrite Hperm, Forall_forall in Ho. specialize (Ho _ Hin). simpl in Ho. congruence.
    - rewrite Hperm in I1.
      apply (regionPrefixes_matching upperName e1 (prefix, region) I1 Hin P1 Hp). }
  assert ((∀ prefix region, (prefix, region) ∈ regionPrefixes →
             HasPrefix upperName (ToUpper prefix) = false) →
          extractRegionIn order upperName = "") as Hnone.
  { intros Hno.
    destruct (extractRegionIn_first order upperName) as [[-> _]|(e1 & I1 & P1 & _)]; [done|].
    rewrite Hperm in I1. destruct e1 as [p r]. simpl in P1. rewrite (Hno p r I1) in P1. done. }
  split_and!; [|exact Hany|exact Hnone].
  destruct (extractRegionIn_first regionPrefixes upperName)
    as [[-> Hr]|(e2 & I2 & P2 & ->)].
  - apply Hnone. intros prefix region Hin. rewrite Forall_forall in Hr. apply (Hr _ Hin).
  - destruct e2 as [p r]. by apply (Hany p r).
Qed.

Lemma extractRegionIn_order_independent_witness :
  extractRegionIn (reverse regionPrefixes) "USA  ESPN"
  = extractRegionIn regionPrefixes "USA  ESPN"
  ∧ (∀ prefix region, (prefix, region) ∈ regionPrefixes →
       HasPrefix "USA  ESPN" (ToUpper prefix) = true →
       extractRegionIn (reverse regionPrefixes) "USA  ESPN" = region)
  ∧ ((∀ prefix region, (prefix, region) ∈ regionPrefixes →
        HasPrefix "USA  ESPN" (ToUpper prefix) = false) →
     extractRegionIn (reverse regionPrefixes) "USA  ESPN" = "").
Proof.
  apply (extractRegionIn_order_independent (reverse regionPrefixes) "USA  ESPN").
  apply reverse_Permutation.
Defined.

Lemma stripPrefixStep_length normalized prefix :
  (String.length (stripPrefixStep normalized prefix) ≤ String.length normalized)%nat.
Proof.
  unfold stripPrefixStep, sliceFrom. destruct (HasPrefix _ _); [|done].
  rewrite dropBytes_length. lia.
Qed.

Lemma stripPrefixes_length prefixes name :
  (String.length (stripPrefixes prefixes name) ≤ String.length name)%nat.
Proof.
  unfold stripPrefixes. revert name. induction prefixes as [|p ps IH]; intros name; [done|].
  cbn [foldl]. etrans; [apply IH|apply stripPrefixStep_length].
Qed.

Lemma stripPrefixes_no_match prefixes name :
  Forall (λ p, HasPrefix (ToUpper name) (ToUpper p) = false) prefixes →
  stripPrefixes prefixes name = name.
Proof.
  unfold stripPrefixes. induction 1 as [|p ps Hp _ IH]; [done|].
  cbn [foldl]. unfold stripPrefixStep at 2. by rewrite Hp.
Qed.

Lemma stripPrefixes_match prefixes name p :
  Forall (λ p, p ≠ "") prefixes →
  p ∈ prefixes → HasPrefix (ToUpper name) (ToUpper p) = true →
  (String.length (stripPrefixes prefixes name) < String.length name)%nat.
Proof.
  unfold stripPrefixes. intros Hne. revert name.
  induction Hne as [|q ps Hq _ IH]; intros name Hin Hp; [by apply elem_of_nil in Hin|].
  cbn [foldl]. unfold stripPrefixStep at 2.
  destruct (HasPrefix (ToUpper name) (ToUpper q)) eqn:E.
  - eapply Nat.le_lt_trans; [apply (stripPrefixes_length ps)|].
    unfold sliceFrom, len. rewrite dropBytes_length, Nat2Z.id.
    apply HasPrefix_length in E. rewrite !ToUpper_length in E.
    destruct q; [done|]. simpl in *. lia.
  - apply IH; [|done]. apply elem_of_cons in Hin as [->|Hin]; [congruence|done].
Qed.

Lemma prefix_tables_agree :
  Forall (λ p, p ∈ regionPrefixes.*1) countryPrefixes
  ∧ Forall (λ e, e.1 ∈ countryPrefixes ∧ e.2 ≠ "") regionPrefixes
  ∧ Forall (λ p, p ≠ "") countryPrefixes.
Proof. split_and!; by_compute. Qed.

(** X21: the two prefix tables agree: a name has a region exactly when the
    prefix loop of the normalizer strips something from it. *)
Theorem region_iff_prefix_stripped (name : string) :
  isASCII name = true →
  extractRegion name = "" ↔ stripPrefixes countryPrefixes name = name.
Proof.
  intros _. unfold extractRegion.
  destruct prefix_tables_agree as (Hcr & Hrc & Hne).
  rewrite Forall_forall in Hcr. rewrite Forall_forall in Hrc. split.
  - intros Hnone. apply stripPrefixes_no_match.
    destruct (extractRegionIn_first regionPrefixes (ToUpper name))
      as [[_ Hr]|(e & He & _ & Heq)].
    + apply Forall_forall. intros p Hp. rewrite Forall_forall in Hr.
      pose proof (Hcr p Hp) as Hx. apply list_elem_of_fmap in Hx as ([p' r] & -> & Hpr).
      apply (Hr _ Hpr).
    + rewrite Hnone in Heq. destruct (Hrc e He) as [_ Hr2]. by destruct Hr2.
  - intros Hsame.
    destruct (extractRegionIn_first regionPrefixes (ToUpper name))
      as [[-> _]|(e & He & Hp & _)]; [done|]. exfalso.
    destruct (Hrc e He) as [Hin _].
    pose proof (stripPrefixes_match countryPrefixes name e.1 Hne Hin Hp) as Hlt.
    rewrite Hsame in Hlt. lia.
Qed.

Lemma region_iff_prefix_stripped_witness :
  extractRegion "Sky News" = "" ↔ stripPrefixes countryPrefixes "Sky News" = "Sky News".
Proof.
  apply (region_iff_prefix_stripped "Sky News"). reflexivity.
Defined.

Lemma stripSuffix_step_shorter suffix s :
  suffix ≠ "" → Contains (ToUpper s) (ToUpper suffix) = true →
  let idx := Index (ToUpper s) (ToUpper suffix) in
  (String.length (sliceTo s idx +:+ sliceFrom s (idx + len suffix)) < String.length s)%nat.
Proof.
  intros Hne Hc. cbn zeta. unfold Contains in Hc. apply Z.leb_le in Hc.
  pose proof (Index_bounds _ _ Hc) as Hb. unfold len in Hb. rewrite !ToUpper_length in Hb.
  rewrite app_length_str. unfold sliceTo, sliceFrom, len.
  rewrite takeBytes_length, dropBytes_length.
  assert (0 < String.length suffix)%nat by (destruct suffix; [done|simpl; lia]).
  lia.
Qed.

Lemma stripSuffixLoop_fuel fuel1 fuel2 suffix s :
  suffix ≠ "" → (String.length s ≤ fuel1)%nat → (String.length s ≤ fuel2)%nat →
  stripSuffixLoop fuel1 suffix s = stripSuffixLoop fuel2 suffix s.
Proof.
  intros Hne. revert fuel2 s. induction fuel1 as [|fuel1 IH]; intros fuel2 s H1 H2.
  - destruct s; [|simpl in H1; lia]. destruct fuel2; [done|].
    cbn [stripSuffixLoop]. cbn zeta. by destruct suffix.
  - cbn [stripSuffixLoop]. cbn zeta.
    destruct (Contains (ToUpper s) (ToUpper suffix)) eqn:Hc.
    + pose proof (stripSuffix_step_shorter suffix s Hne Hc) as Hlt. cbn zeta in Hlt.
      destruct fuel2 as [|fuel2]; [lia|]. cbn [stripSuffixLoop]. cbn zeta. rewrite Hc.
      unfold Contains in Hc. rewrite Hc. apply IH; lia.
    + destruct fuel2; cbn [stripSuffixLoop]; cbn zeta; by rewrite ?Hc.
Qed.

Lemma stripSuffixLoop_length fuel suffix s :
  (String.length (stripSuffixLoop fuel suffix s) ≤ String.length s)%nat.
Proof.
  revert s. induction fuel as [|fuel IH]; intros s; [done|].
  cbn [stripSuffixLoop]. cbn zeta.
  destruct (Contains (ToUpper s) (ToUpper suffix)) eqn:Hc; [|done].
  destruct (0 <=? Index _ _) eqn:Hi; [|apply IH].
  etrans; [apply IH|]. apply Z.leb_le in Hi.
  pose proof (Index_bounds _ _ Hi) as Hb. unfold len in Hb. rewrite !ToUpper_length in Hb.
  rewrite app_length_str. unfold sliceTo, sliceFrom, len.
  rewrite takeBytes_length, dropBytes_length. lia.
Qed.

(** X22: the inner loop that removes one quality suffix ends: run with any
    bound of at least the length of the string it gives the same result,
    in which the suffix no longer occurs, in any letter case, and which is
    no longer than the string it started from. *)
Theorem stripSuffix_loop_ends (fuel : nat) (suffix s : string) :
  isASCII s = true → suffix ≠ "" → (String.length s ≤ fuel)%nat →
  stripSuffixLoop fuel suffix s = stripSuffix s suffix
  ∧ Contains (ToUpper (stripSuffix s suffix)) (ToUpper suffix) = false
  ∧ (String.length (stripSuffix s suffix) ≤ String.length s)%nat.
Proof.
  intros _ Hne Hfuel. split_and!.
  - by apply stripSuffixLoop_fuel.
  - by apply stripSuffix_exits.
  - apply stripSuffixLoop_length.
Qed.

Lemma stripSuffix_loop_ends_witness :
  stripSuffixLoop 40 "(HD)" "ESPN (hd) (H(HD)D)" = stripSuffix "ESPN (hd) (H(HD)D)" "(HD)"
  ∧ Contains (ToUpper (stripSuffix "ESPN (hd) (H(HD)D)" "(HD)")) (ToUpper "(HD)") = false
  ∧ (String.length (stripSuffix "ESPN (hd) (H(HD)D)" "(HD)")
     ≤ String.length "ESPN (hd) (H(HD)D)")%nat.
Proof.
  apply (stripSuffix_loop_ends 40 "(HD)" "ESPN (hd) (H(HD)D)").
  - reflexivity.
  - discriminate.
  - simpl. lia.
Defined.

(** *** White space and letter case *)

Lemma allBytes_app P s t : allBytes P (s +:+ t) = allBytes P s && allBytes P t.
Proof.
  induction s as [|c s IH]; [done|]. rewrite app_cons. simpl. by rewrite IH, andb_assoc.
Qed.

Lemma fieldsFrom_fields cur s :
  allBytes (λ c, negb (isSpace c)) cur = true →
  Forall (λ f, f ≠ "" ∧ allBytes (λ c, negb (isSpace c)) f = true) (fieldsFrom cur s).
Proof.
  revert cur. induction s as [|c s IH]; intros cur Hcur; cbn [fieldsFrom].
  - destruct (decide (cur = "")); [constructor|]. by repeat constructor.
  - destruct (isSpace c) eqn:Ec.
    + destruct (decide (cur = "")); [by apply IH|]. constructor; [done|by apply IH].
    + apply IH. rewrite allBytes_app, Hcur. simpl. by rewrite Ec.
Qed.

Lemma fieldsFrom_app_field cur f rest :
  allBytes (λ c, negb (isSpace c)) f = true →
  fieldsFrom cur (f +:+ rest) = fieldsFrom (cur +:+ f) rest.
Proof.
  revert cur. induction f as [|c f IH]; intros cur Hf.
  - by rewrite app_nil, app_nil_r_str.
  - simpl in Hf. apply andb_prop in Hf as [Hc Hf]. apply negb_true_iff in Hc.
    rewrite app_cons. cbn [fieldsFrom]. rewrite Hc, IH by done.
    by rewrite <- app_assoc_str.
Qed.

Lemma Join_cons2 e e2 rest sep :
  Join (e :: e2 :: rest) sep = e +:+ sep +:+ Join (e2 :: rest) sep.
Proof. reflexivity. Qed.

Lemma Fields_Join fs :
  Forall (λ f, f ≠ "" ∧ allBytes (λ c, negb (isSpace c)) f = true) fs →
  Fields (Join fs " ") = fs.
Proof.
  unfold Fields. induction 1 as [|e fs [Hne He] Hfs IH]; [done|].
  destruct fs as [|e2 rest].
  - cbn [Join]. rewrite <- (app_nil_r_str e) at 1.
    rewrite fieldsFrom_app_field by done. cbn [fieldsFrom]. rewrite app_nil.
    by rewrite decide_False.
  - rewrite Join_cons2, fieldsFrom_app_field by done. rewrite app_nil, app_cons.
    cbn [fieldsFrom]. change (isSpace " ") with true. cbn iota.
    rewrite decide_False by done. by rewrite app_nil, IH.
Qed.

Lemma trimRight_field f :
  f ≠ "" → allBytes (λ c, negb (isSpace c)) f = true → trimRight f = f.
Proof.
  induction f as [|c f IH]; [done|]. intros _ Hf. simpl in Hf.
  apply andb_prop in Hf as [Hc Hf]. apply negb_true_iff in Hc.
  cbn [trimRight]. destruct f as [|d f].
  - cbn [trimRight]. by rewrite Hc.
  - by rewrite IH.
Qed.

Lemma trimRight_app s t : t ≠ "" → trimRight t = t → trimRight (s +:+ t) = s +:+ t.
Proof.
  intros Hne Ht. induction s as [|c s IH]; [done|].
  rewrite app_cons. cbn [trimRight]. rewrite IH.
  destruct (s +:+ t) eqn:E; [|done]. destruct s; [|done]. by rewrite app_nil in E.
Qed.

Lemma Join_nonempty e rest sep : e ≠ "" → Join (e :: rest) sep ≠ "".
Proof. destruct e as [|c r]; [done|]. intros _. by destruct rest. Qed.

Lemma Join_fields_trimmed fs :
  Forall (λ f, f ≠ "" ∧ allBytes (λ c, negb (isSpace c)) f = true) fs →
  TrimSpace (Join fs " ") = Join fs " ".
Proof.
  intros Hfs. unfold TrimSpace.
  assert (trimLeft (Join fs " ") = Join fs " ") as ->.
  { destruct Hfs as [|e fs [Hne He] _]; [done|].
    destruct e as [|c r]; [done|]. simpl in He.
    apply andb_prop in He as [Hc _]. apply negb_true_iff in Hc.
    destruct fs as [|e2 rest].
    - cbn [Join trimLeft]. by rewrite Hc.
    - rewrite Join_cons2, app_cons. cbn [trimLeft]. by rewrite Hc. }
  induction Hfs as [|e fs [Hne He] Hfs IH]; [done|].
  destruct fs as [|e2 rest]; [by apply trimRight_field|].
  rewrite Join_cons2.
  assert (Join (e2 :: rest) " " ≠ "") as HJ.
  { apply Join_nonempty. by inversion Hfs as [|? ? [? _] _]. }
  apply trimRight_app; [by rewrite app_cons|].
  apply (trimRight_app (String " " "")); done.
Qed.

Lemma isSpace_lowerByte c : isSpace (lowerByte c) = isSpace c.
Proof. by destruct c as [[] [] [] [] [] [] [] []]. Qed.

Lemma lowerByte_idemp c : lowerByte (lowerByte c) = lowerByte c.
Proof. by destruct c as [[] [] [] [] [] [] [] []]. Qed.

Lemma ToLower_idemp s : ToLower (ToLower s) = ToLower s.
Proof.
  unfold ToLower. induction s as [|c s IH]; [done|]. simpl. by rewrite lowerByte_idemp, IH.
Qed.

Lemma ToLower_empty s : ToLower s = "" ↔ s = "".
Proof. by destruct s. Qed.

Lemma fieldsFrom_ToLower cur s :
  fieldsFrom (ToLower cur) (ToLower s) = ToLower <$> fieldsFrom cur s.
Proof.
  revert cur. induction s as [|c s IH]; intros cur.
  - change (ToLower "") with "". cbn [fieldsFrom].
    destruct (decide (cur = "")) as [->|Hne]; [done|].
    rewrite decide_False; [done|]. intros He. by destruct cur.
  - change (ToLower (String c s)) with (String (lowerByte c) (ToLower s)).
    cbn [fieldsFrom]. rewrite isSpace_lowerByte. destruct (isSpace c).
    + pose proof (IH "") as IH0. change (ToLower "") with "" in IH0. rewrite IH0.
      destruct (decide (cur = "")) as [->|Hne]; [done|].
      rewrite decide_False; [done|]. intros He. by destruct cur.
    + rewrite <- IH. f_equal. unfold ToLower. by rewrite mapBytes_app.
Qed.

Lemma Join_ToLower fs : Join (ToLower <$> fs) " " = ToLower (Join fs " ").
Proof.
  induction fs as [|e fs IH]; [done|]. destruct fs as [|e2 rest]; [done|].
  rewrite Join_cons2. rewrite !fmap_cons in *. rewrite Join_cons2, IH.
  unfold ToLower. by rewrite !mapBytes_app.
Qed.

Lemma trimLeft_ToLower s : trimLeft (ToLower s) = ToLower (trimLeft s).
Proof.
  induction s as [|c s IH]; [done|].
  change (ToLower (String c s)) with (String (lowerByte c) (ToLower s)).
  cbn [trimLeft]. rewrite isSpace_lowerByte. by destruct (isSpace c).
Qed.

Lemma trimRight_ToLower s : trimRight (ToLower s) = ToLower (trimRight s).
Proof.
  induction s as [|c s IH]; [done|].
  change (ToLower (String c s)) with (String (lowerByte c) (ToLower s)).
  cbn [trimRight]. rewrite IH, isSpace_lowerByte.
  destruct (trimRight s) as [|d t]; [by destruct (isSpace c)|done].
Qed.

(** X23: a normalized name is in canonical form: lower-casing it, trimming
    it or splitting it into fields and joining them with single spaces
    gives the name back; and the [TrimSpace] step of the normalizer never
    changes its argument. *)
Theorem normalizeChannelName_canonical (name : string) :
  isASCII name = true →
  let r := normalizeChannelName name in
  ToLower r = r ∧ TrimSpace r = r ∧ Join (Fields r) " " = r
  ∧ r = ToLower (Join (Fields (stripSuffixes qualitySuffixes
                                 (stripPrefixes countryPrefixes name))) " ").
Proof.
  intros _. cbn zeta. unfold normalizeChannelName. cbn zeta.
  generalize (stripSuffixes qualitySuffixes (stripPrefixes countryPrefixes name)) as x.
  intros x.
  assert (Forall (λ f, f ≠ "" ∧ allBytes (λ c, negb (isSpace c)) f = true) (Fields x))
    as Hfs by (by apply fieldsFrom_fields).
  rewrite (Join_fields_trimmed _ Hfs). split_and!.
  - apply ToLower_idemp.
  - unfold TrimSpace. rewrite trimLeft_ToLower, trimRight_ToLower.
    fold (TrimSpace (Join (Fields x) " ")). by rewrite (Join_fields_trimmed _ Hfs).
  - unfold Fields at 1.
    pose proof (fieldsFrom_ToLower "" (Join (Fields x) " ")) as Hl.
    change (ToLower "") with "" in Hl. rewrite Hl, Join_ToLower. fold (Fields (Join (Fields x) " ")).
    by rewrite (Fields_Join _ Hfs).
  - done.
Qed.

Lemma normalizeChannelName_canonical_witness :
  let r := normalizeChannelName "US:  Fox   Sports (HD) " in
  ToLower r = r ∧ TrimSpace r = r ∧ Join (Fields r) " " = r
  ∧ r = ToLower (Join (Fields (stripSuffixes qualitySuffixes
                                 (stripPrefixes countryPrefixes
                                    "US:  Fox   Sports (HD) "))) " ").
Proof.
  apply (normalizeChannelName_canonical "US:  Fox   Sports (HD) "). reflexivity.
Defined.

(** * Properties of the runs that return

    The passes of the matcher that do not normalize names return on every
    input; what calls the normalizer returns on ASCII names.  The
    properties below hold of every run that returns. *)

Lemma runMatcher_total range chs channelNameMap tvgIDMap normalizedNameMap :
  ∃ s, runMatcher range chs channelNameMap tvgIDMap normalizedNameMap = Some s.
Proof.
  destruct (runMatcher_run range chs channelNameMap tvgIDMap normalizedNameMap)
    as (s & _ & Hs & _). by exists s.
Qed.

(** X4: the table of normalized names of a playlist with ASCII names maps a
    key to the first playlist entry without guide-id hint whose non-empty
    name is not the name of a hinted entry and normalizes to the key; it
    keeps the name, the normalized name and the region of that entry. *)
Theorem buildNormalizedNameMap_first_wins (m3uChannels : list m3u.Channel) (key : string) :
  asciiPlaylist m3uChannels →
  buildNormalizedNameMap m3uChannels !! key
  = normalizedInfoOf <$>
      head (filter (normalizedAs (namesWithTVGID m3uChannels) key) m3uChannels).
Proof. intros _. apply buildNormalizedNameMap_first. Qed.

Lemma buildNormalizedNameMap_first_wins_witness :
  let m3uChannels := [playlistEntry "US: ESPN HD" "espn.us"; playlistEntry "UK: ESPN" "";
                      playlistEntry "USA  ESPN (HD)" ""; playlistEntry "US: ESPN HD" ""] in
  buildNormalizedNameMap m3uChannels !! "espn"
  = normalizedInfoOf <$>
      head (filter (normalizedAs (namesWithTVGID m3uChannels) "espn") m3uChannels).
Proof.
  intros m3uChannels. apply (buildNormalizedNameMap_first_wins m3uChannels "espn").
  repeat constructor.
Defined.

(** X6: for a non-empty guide-id hint that the hint table maps to a playlist
    name, every run of the matcher that returns ends with that name matched
    or with every guide channel of that identifier matched; on a guide with
    ASCII names the matcher returns. *)
Theorem identifier_pass_complete (range : RangeOracle) (chs : list Channel)
    (channelNameMap : gset string) (tvgIDMap : gmap string string)
    (normalizedNameMap : gmap string m3uNormalizedInfo) (tvgID name : string) :
  range_ok range → tvgIDMap !! tvgID = Some name → tvgID ≠ "" →
  (∀ s, runMatcher range chs channelNameMap tvgIDMap normalizedNameMap = Some s →
        name ∈ matchedM3U s
        ∨ ∀ i ch, chs !! i = Some ch → ID ch = tvgID → i ∈ matchedEPG s)
  ∧ (asciiGuide chs →
     ∃ s, runMatcher range chs channelNameMap tvgIDMap normalizedNameMap = Some s).
Proof.
  intros Hr Hlook Hid. split; [|intros _; apply runMatcher_total].
  intros s Hs.
  destruct (identifier_pass_run range chs channelNameMap tvgIDMap
              normalizedNameMap tvgID name Hr Hlook Hid) as (s' & Hs' & HQ).
  rewrite Hs in Hs'. by injection Hs' as <-.
Qed.

Lemma identifier_pass_complete_witness :
  let chs := [guideChannel "espn.us" "ESPN"] in
  let channelNameMap := buildChannelNameMap [playlistEntry "US: ESPN HD" "espn.us"] in
  let tvgIDMap : gmap string string := {["espn.us" := "US: ESPN HD"]} in
  let normalizedNameMap := buildNormalizedNameMap [playlistEntry "US: ESPN HD" "espn.us"] in
  (∀ s, runMatcher range_canon chs channelNameMap tvgIDMap normalizedNameMap = Some s →
        "US: ESPN HD" ∈ matchedM3U s
        ∨ ∀ i ch, chs !! i = Some ch → ID ch = "espn.us" → i ∈ matchedEPG s)
  ∧ (asciiGuide chs →
     ∃ s, runMatcher range_canon chs channelNameMap tvgIDMap normalizedNameMap = Some s).
Proof.
  intros chs channelNameMap tvgIDMap normalizedNameMap.
  apply (identifier_pass_complete range_canon chs channelNameMap tvgIDMap
           normalizedNameMap "espn.us" "US: ESPN HD").
  - exact range_canon_ok.
  - vm_compute. reflexivity.
  - discriminate.
Defined.

(** X7: a guide channel whose display name is a playlist name is never left
    over next to that name: in every run of the matcher that returns, the
    guide channel is matched or the playlist name is; on a guide with ASCII
    names the matcher returns. *)
Theorem exact_names_not_missed (range : RangeOracle) (chs : list Channel)
    (channelNameMap : gset string) (tvgIDMap : gmap string string)
    (normalizedNameMap : gmap string m3uNormalizedInfo) (i : nat) (ch : Channel) :
  chs !! i = Some ch → DisplayName ch ∈ channelNameMap →
  (∀ s, runMatcher range chs channelNameMap tvgIDMap normalizedNameMap = Some s →
        i ∈ matchedEPG s ∨ DisplayName ch ∈ matchedM3U s)
  ∧ (asciiGuide chs →
     ∃ s, runMatcher range chs channelNameMap tvgIDMap normalizedNameMap = Some s).
Proof.
  intros Hi Hn. split; [|intros _; apply runMatcher_total].
  intros s Hs.
  destruct (exact_names_run range chs channelNameMap tvgIDMap
              normalizedNameMap i ch Hi Hn) as (s' & Hs' & HQ).
  rewrite Hs in Hs'. by injection Hs' as <-.
Qed.

Lemma exact_names_not_missed_witness :
  let chs := [guideChannel "local.news" "Local News"] in
  let channelNameMap := buildChannelNameMap [playlistEntry "Local News" ""] in
  let tvgIDMap := buildTVGIDMap [playlistEntry "Local News" ""] in
  let normalizedNameMap := buildNormalizedNameMap [playlistEntry "Local News" ""] in
  (∀ s, runMatcher range_canon chs channelNameMap tvgIDMap normalizedNameMap = Some s →
        0%nat ∈ matchedEPG s
        ∨ DisplayName (guideChannel "local.news" "Local News") ∈ matchedM3U s)
  ∧ (asciiGuide chs →
     ∃ s, runMatcher range_canon chs channelNameMap tvgIDMap normalizedNameMap = Some s).
Proof.
  intros chs channelNameMap tvgIDMap normalizedNameMap.
  apply (exact_names_not_missed range_canon chs channelNameMap tvgIDMap normalizedNameMap
           0%nat (guideChannel "local.news" "Local News")).
  - reflexivity.
  - by_compute.
Defined.

(** X8: in every run of the matcher that returns, every guide channel is
    paired with at most one playlist name and every playlist name with at
    most one guide channel: as many channels are returned as guide channels
    and as names are marked, never more than the guide holds, and the
    identifier map has at most one entry per returned channel.  On a guide
    with ASCII names the matcher returns. *)
Theorem matched_counts (range : RangeOracle) (chs : list Channel)
    (channelNameMap : gset string) (tvgIDMap : gmap string string)
    (normalizedNameMap : gmap string m3uNormalizedInfo) :
  (∀ s, runMatcher range chs channelNameMap tvgIDMap normalizedNameMap = Some s →
        length (matchedChannels s) = size (matchedEPG s)
        ∧ length (matchedChannels s) = size (matchedM3U s)
        ∧ (length (matchedChannels s) ≤ length chs)%nat
        ∧ (size (channelIDMap s) ≤ length (matchedChannels s))%nat)
  ∧ (asciiGuide chs →
     ∃ s, runMatcher range chs channelNameMap tvgIDMap normalizedNameMap = Some s).
Proof.
  split; [|intros _; apply runMatcher_total].
  intros s Hs.
  destruct (counts_run range chs channelNameMap tvgIDMap normalizedNameMap)
    as (s' & Hs' & HQ).
  rewrite Hs in Hs'. by injection Hs' as <-.
Qed.

(** X9: whenever [FilterForMerge] returns, it returns a guide whose channels
    carry exactly the identifiers that are keys of the returned map; every
    channel is a channel of the source guide under one of the identifiers
    the allocator gives it, and every name in the map is a non-empty name
    of the playlist.  On ASCII names, [FilterForMerge] returns. *)
Theorem FilterForMerge_channels_sound (range : RangeOracle) (epgData : TV)
    (m3uChannels : list m3u.Channel) :
  range_ok range →
  (∀ result, FilterForMerge range epgData m3uChannels = Some result →
     ∃ tv, EPG result = Some tv
           ∧ (∀ id, is_Some (ChannelMap result !! id) ↔ ∃ ch, ch ∈ Channels tv ∧ ID ch = id)
           ∧ (∀ id name, ChannelMap result !! id = Some name →
                playlistName m3uChannels name)
           ∧ (∀ ch, ch ∈ Channels tv →
                ∃ ch0, ch0 ∈ Channels epgData ∧ finalizedFrom ch0 ch))
  ∧ (asciiGuide (Channels epgData) → asciiPlaylist m3uChannels →
     ∃ result, FilterForMerge range epgData m3uChannels = Some result).
Proof.
  intros Hr.
  destruct (FilterForMerge_channels_run range epgData m3uChannels Hr)
    as (tv & cm & Hf & HQ).
  split; [|intros _ _; by eexists].
  intros result Hres. rewrite Hf in Hres. injection Hres as <-. by exists tv.
Qed.

Lemma FilterForMerge_channels_sound_witness :
  let epgData :=
    {| Channels := [guideChannel "espn.us" "ESPN"; guideChannel "espn.us" "ESPN 2"];
       Programs := [] |} in
  let m3uChannels := [playlistEntry "ESPN" ""; playlistEntry "ESPN 2" ""] in
  (∀ result, FilterForMerge range_canon epgData m3uChannels = Some result →
     ∃ tv, EPG result = Some tv
           ∧ (∀ id, is_Some (ChannelMap result !! id) ↔ ∃ ch, ch ∈ Channels tv ∧ ID ch = id)
           ∧ (∀ id name, ChannelMap result !! id = Some name →
                playlistName m3uChannels name)
           ∧ (∀ ch, ch ∈ Channels tv →
                ∃ ch0, ch0 ∈ Channels epgData ∧ finalizedFrom ch0 ch))
  ∧ (asciiGuide (Channels epgData) → asciiPlaylist m3uChannels →
     ∃ result, FilterForMerge range_canon epgData m3uChannels = Some result).
Proof.
  intros epgData m3uChannels.
  apply (FilterForMerge_channels_sound range_canon epgData m3uChannels).
  exact range_canon_ok.
Defined.

Lemma FilterForMerge_of_matchChannels range epgData m3uChannels chans idMap :
  matchChannels range (Channels epgData) (buildChannelNameMap m3uChannels)
    (buildTVGIDMap m3uChannels) (buildNormalizedNameMap m3uChannels) = Some (chans, idMap) →
  ∃ programs,
    FilterForMerge range epgData m3uChannels
    = Some {| EPG := Some {| Channels := chans; Programs := programs |};
              ChannelMap := idMap |}.
Proof.
  intros Hm. unfold FilterForMerge. cbn zeta. rewrite Hm. simpl. by eexists.
Qed.

(** X10: when the matcher has returned its channels and its identifier→name
    map, [FilterForMerge] returns them with a program list in which every
    program belongs to a channel of the map and is a program of the source
    guide, kept under its channel or copied to a channel renamed
    [<id>-<number>], with the category the playlist gives; and no program
    of a mapped channel is dropped. *)
Theorem FilterForMerge_programs_sound (range : RangeOracle) (epgData : TV)
    (m3uChannels : list m3u.Channel) (chans : list Channel)
    (idMap : gmap string string) :
  range_ok range →
  matchChannels range (Channels epgData) (buildChannelNameMap m3uChannels)
    (buildTVGIDMap m3uChannels) (buildNormalizedNameMap m3uChannels) = Some (chans, idMap) →
  ∃ programs,
    FilterForMerge range epgData m3uChannels
    = Some {| EPG := Some {| Channels := chans; Programs := programs |};
              ChannelMap := idMap |}
    ∧ (∀ q, q ∈ programs →
         is_Some (idMap !! PChannel q)
         ∧ ∃ p, p ∈ Programs epgData
                ∧ filteredFrom idMap (buildCategoryMap m3uChannels) p q)
    ∧ (∀ p, p ∈ Programs epgData → is_Some (idMap !! PChannel p) →
         categorize idMap (buildCategoryMap m3uChannels) (PChannel p) p ∈ programs).
Proof.
  intros Hr Hm.
  destruct (FilterForMerge_of_matchChannels range epgData m3uChannels chans idMap Hm)
    as (programs & Hf).
  destruct (FilterForMerge_programs_run range epgData m3uChannels Hr)
    as (tv & cm & Hf' & HQ).
  rewrite Hf in Hf'. injection Hf' as <- <-. by exists programs.
Qed.

Lemma FilterForMerge_programs_sound_witness :
  let epgData :=
    {| Channels := [guideChannel "espn.us" "ESPN"];
       Programs := [guideProgram "espn.us" "20260101060000 +0000" "SportsCenter";
                    guideProgram "cnn.us" "20260101060000 +0000" "Newsroom"] |} in
  let m3uChannels := [playlistEntry "ESPN" ""] in
  let chans := [guideChannel "espn.us" "ESPN"] in
  let idMap : gmap string string := <["espn.us" := "ESPN"]> ∅ in
  ∃ programs,
    FilterForMerge range_canon epgData m3uChannels
    = Some {| EPG := Some {| Channels := chans; Programs := programs |};
              ChannelMap := idMap |}
    ∧ (∀ q, q ∈ programs →
         is_Some (idMap !! PChannel q)
         ∧ ∃ p, p ∈ Programs epgData
                ∧ filteredFrom idMap (buildCategoryMap m3uChannels) p q)
    ∧ (∀ p, p ∈ Programs epgData → is_Some (idMap !! PChannel p) →
         categorize idMap (buildCategoryMap m3uChannels) (PChannel p) p ∈ programs).
Proof.
  intros epgData m3uChannels chans idMap.
  apply (FilterForMerge_programs_sound range_canon epgData m3uChannels chans idMap).
  - exact range_canon_ok.
  - vm_compute. reflexivity.
Defined.

(** X13: whenever [Filter] returns, every channel of its guide, matched or
    made up, owns at least one program of that guide.  On ASCII names,
    [Filter] returns. *)
Theorem Filter_every_channel_has_program (range : RangeOracle) (epgData : TV)
    (m3uChannels : list m3u.Channel) :
  (∀ tv finalMap, Filter range epgData m3uChannels = Some (tv, finalMap) →
     ∀ ch, ch ∈ Channels tv → ∃ p, p ∈ Programs tv ∧ PChannel p = ID ch)
  ∧ (asciiGuide (Channels epgData) → asciiPlaylist m3uChannels →
     ∃ tv finalMap, Filter range epgData m3uChannels = Some (tv, finalMap)).
Proof.
  destruct (Filter_programs_run range epgData m3uChannels) as (tv & finalMap & Hf & HQ).
  split; [|intros _ _; by eexists _, _].
  intros tv' finalMap' Hf'. rewrite Hf in Hf'. by injection Hf' as <- <-.
Qed.

(** X14: the single-guide path is the merge path on one guide: whenever
    [FilterForMerge] returns a guide and a map, [Filter] returns
    [AddFakeChannels] applied to them, with the map in which the
    placeholder channels are entered; and whenever [Filter] returns,
    [FilterForMerge] returns too.  On ASCII names both return. *)
Theorem Filter_as_AddFakeChannels (range range' : RangeOracle) (epgData : TV)
    (m3uChannels : list m3u.Channel) :
  range_ok range → range_ok range' →
  (∀ result, FilterForMerge range epgData m3uChannels = Some result →
     ∃ tv0, EPG result = Some tv0
            ∧ Filter range epgData m3uChannels
              = Some (AddFakeChannels range' tv0 m3uChannels (ChannelMap result),
                      withFakeChannels (ChannelMap result)
                        (synthesizedChannel
                           <$> unmatchedEntries (ChannelMap result) m3uChannels)))
  ∧ (∀ tv finalMap, Filter range epgData m3uChannels = Some (tv, finalMap) →
       ∃ result, FilterForMerge range epgData m3uChannels = Some result)
  ∧ (asciiGuide (Channels epgData) → asciiPlaylist m3uChannels →
     ∃ result, FilterForMerge range epgData m3uChannels = Some result).
Proof.
  intros Hr Hr'.
  destruct (Filter_AddFakeChannels_run range range' epgData m3uChannels Hr Hr')
    as (tv0 & cm & Hf & HF).
  split_and!; [|intros _ _ _; by eexists|intros _ _; by eexists].
  intros result Hres. rewrite Hf in Hres. injection Hres as <-. by exists tv0.
Qed.

Lemma Filter_as_AddFakeChannels_witness :
  let epgData :=
    {| Channels := [guideChannel "espn.us" "ESPN"];
       Programs := [guideProgram "espn.us" "20260101060000 +0000" "SportsCenter"] |} in
  let m3uChannels := [playlistEntry "ESPN" ""; playlistEntry "Local News" ""] in
  (∀ result, FilterForMerge range_canon epgData m3uChannels = Some result →
     ∃ tv0, EPG result = Some tv0
            ∧ Filter range_canon epgData m3uChannels
              = Some (AddFakeChannels range_canon tv0 m3uChannels (ChannelMap result),
                      withFakeChannels (ChannelMap result)
                        (synthesizedChannel
                           <$> unmatchedEntries (ChannelMap result) m3uChannels)))
  ∧ (∀ tv finalMap, Filter range_canon epgData m3uChannels = Some (tv, finalMap) →
       ∃ result, FilterForMerge range_canon epgData m3uChannels = Some result)
  ∧ (asciiGuide (Channels epgData) → asciiPlaylist m3uChannels →
     ∃ result, FilterForMerge range_canon epgData m3uChannels = Some result).
Proof.
  intros epgData m3uChannels.
  apply (Filter_as_AddFakeChannels range_canon range_canon epgData m3uChannels).
  - exact range_canon_ok.
  - exact range_canon_ok.
Defined.

(** X18: whenever [FetchEPG] returns, without a stored playlist it reports
    that the playlist is unavailable; with one, it reports that all sources
    failed exactly when no source was fetched and decoded, and otherwise
    it stores a guide and a map.  On ASCII names [FetchEPG] returns. *)
Theorem FetchEPG_outcome (rangeFilter : nat → RangeOracle)
    (rangeMerge rangeFake : RangeOracle) (storedM3U : option (list m3u.Channel))
    (sources : list (option TV)) :
  (∀ outcome,
     FetchEPG rangeFilter rangeMerge rangeFake storedM3U sources = Some outcome →
     match storedM3U with
     | None => outcome = fetchError "M3U data not available, cannot filter EPG"
     | Some _ =>
         if decide (Forall (λ source, source = None) sources)
         then outcome = fetchError "all EPG sources failed"
         else ∃ epg channelMap, outcome = fetchStored epg channelMap
     end)
  ∧ ((∀ m3uChannels, storedM3U = Some m3uChannels → asciiPlaylist m3uChannels) →
     asciiSources sources →
     ∃ outcome, FetchEPG rangeFilter rangeMerge rangeFake storedM3U sources = Some outcome).
Proof.
  pose proof (FetchEPG_run_outcome rangeFilter rangeMerge rangeFake storedM3U sources) as H.
  split.
  - intros outcome Hout. destruct storedM3U as [m3uChannels|].
    + destruct (decide (Forall _ sources)).
      * rewrite Hout in H. by injection H as ->.
      * destruct H as (epg & cm & H). rewrite Hout in H. injection H as ->. by eexists _, _.
    + rewrite Hout in H. by injection H as ->.
  - intros _ _. destruct storedM3U as [m3uChannels|]; [|by eexists].
    destruct (decide (Forall _ sources)); [by eexists|].
    destruct H as (epg & cm & H). by eexists.
Qed.

(** X19: whenever [FetchEPG] stores a guide and a map, every non-empty
    playlist name is the display name of some channel of the guide, every
    channel owns a program, and the values of the map are playlist names.
    With a playlist and sources of ASCII names of which one at least is
    fetched and decoded, [FetchEPG] stores a guide. *)
Theorem FetchEPG_covers_playlist (rangeFilter : nat → RangeOracle)
    (rangeMerge rangeFake : RangeOracle) (m3uChannels : list m3u.Channel)
    (sources : list (option TV)) :
  (∀ i, range_ok (rangeFilter i)) → range_ok rangeMerge → range_ok rangeFake →
  (∀ epg channelMap,
     FetchEPG rangeFilter rangeMerge rangeFake (Some m3uChannels) sources
     = Some (fetchStored epg channelMap) →
     (∀ name, playlistName m3uChannels name →
              ∃ ch, ch ∈ Channels epg ∧ DisplayName ch = name)
     ∧ (∀ ch, ch ∈ Channels epg → ∃ p, p ∈ Programs epg ∧ PChannel p = ID ch)
     ∧ (∀ id name, channelMap !! id = Some name → playlistName m3uChannels name))
  ∧ (asciiPlaylist m3uChannels → asciiSources sources →
     (∃ i epgData, sources !! i = Some (Some epgData)) →
     ∃ epg channelMap,
       FetchEPG rangeFilter rangeMerge rangeFake (Some m3uChannels) sources
       = Some (fetchStored epg channelMap)).
Proof.
  intros HrF HrM HrA. split.
  - intros epg channelMap Hout.
    assert (∃ i epgData, sources !! i = Some (Some epgData)) as Hsome.
    { pose proof (FetchEPG_run_outcome rangeFilter rangeMerge rangeFake (Some m3uChannels)
                    sources) as H. cbn beta iota in H.
      destruct (decide (Forall (λ source, source = None) sources)) as [|Hnot].
      { rewrite Hout in H. discriminate. }
      apply not_Forall_Exists in Hnot; [|apply _].
      apply Exists_exists in Hnot as (x & Hx & Hne). simpl in Hne.
      destruct x as [epgData|]; [|done].
      apply list_elem_of_lookup_1 in Hx as [i Hi]. by exists i, epgData. }
    destruct (FetchEPG_covers_run rangeFilter rangeMerge rangeFake m3uChannels sources
                HrF HrM HrA Hsome) as (epg' & cm' & Hout' & HQ).
    rewrite Hout in Hout'. by injection Hout' as <- <-.
  - intros _ _ Hsome.
    destruct (FetchEPG_covers_run rangeFilter rangeMerge rangeFake m3uChannels sources
                HrF HrM HrA Hsome) as (epg' & cm' & Hout' & _).
    by exists epg', cm'.
Qed.

Lemma FetchEPG_covers_playlist_witness :
  let m3uChannels := [playlistEntry "ESPN" ""; playlistEntry "Local News" ""] in
  let sources :=
    [None;
     Some {| Channels := [guideChannel "espn.us" "ESPN"];
             Programs := [guideProgram "espn.us" "20260101060000 +0000"
                                       "SportsCenter"] |}] in
  (∀ epg channelMap,
     FetchEPG (λ _, range_canon) range_canon range_canon (Some m3uChannels) sources
     = Some (fetchStored epg channelMap) →
     (∀ name, playlistName m3uChannels name →
              ∃ ch, ch ∈ Channels epg ∧ DisplayName ch = name)
     ∧ (∀ ch, ch ∈ Channels epg → ∃ p, p ∈ Programs epg ∧ PChannel p = ID ch)
     ∧ (∀ id name, channelMap !! id = Some name → playlistName m3uChannels name))
  ∧ (asciiPlaylist m3uChannels → asciiSources sources →
     (∃ i epgData, sources !! i = Some (Some epgData)) →
     ∃ epg channelMap,
       FetchEPG (λ _, range_canon) range_canon range_canon (Some m3uChannels) sources
       = Some (fetchStored epg channelMap)).
Proof.
  intros m3uChannels sources.
  apply (FetchEPG_covers_playlist (λ _, range_canon) range_canon range_canon
           m3uChannels sources).
  - intros _. exact range_canon_ok.
  - exact range_canon_ok.
  - exact range_canon_ok.
Defined.
